(** * Reference resolution and watch reconciliation of the TypeScript batch compiler

    A shallow embedding of [CodeResolver.resolveCode]
    (src/compiler/referenceResolution.ts), and of three parts of the batch
    compiler driver: the resolution dispatcher of [CommandLineHost], its
    loop over the entry files, and the watch-mode reconciliation loop of
    [BatchCompiler.watchFiles]; followed by the properties that the
    specification states about them.  The last part of the file embeds
    [ErrorReporter], [CommandLineHost.isResolved] and
    [BatchCompiler.resolve] as well, and proves further properties of the
    resolver, of the driver and of the watch reconciliation.

    Conventions of the embedding.
    - JavaScript strings are [string]; [a + b] is [a +:+ b]; [a == b] on
      strings is [String.eqb].
    - The objects [visited] and [resolvedPaths] are keyed by normalised
      paths, which end in a file suffix and so name no property that an
      object inherits; they are [gmap string bool], and a truthiness test
      [m[k]] is a lookup that yields [true].
    - The objects [pathMap] and [watchers] are keyed by paths as they are
      given to the driver.  They are maps of their own properties, read
      and written through [Js.get] and [Js.set], which take into account
      what a plain object inherits.
    - What depends on the runtime (the inherited properties, the collation
      of [localeCompare]) is a parameter, [Js.Runtime].
    - The resolver mutates [this.visited] and calls into the host and the
      dispatcher; this is threaded explicitly through a state that also
      keeps a chronological trace of those calls.
    - The recursion of [resolveCode] is not structural; it is driven by a
      fuel argument and [None] means that the fuel ran out. *)

From Stdlib Require Import String Ascii List Bool NArith Lia DecimalString.
From Stdlib Require OrderedTypeEx.
From stdpp Require Import base option list gmap strings.
Import ListNotations.

Local Open Scope string_scope.
Local Open Scope list_scope.

(** ** Data model (referenceResolution.ts, lines 20-86) *)

Module IResolvedFile.
Record t : Type := mk { content : option string; path : string }.
End IResolvedFile.

Module IFileReference.
(** [IFileReference extends ILineAndCharacter]: a path with its source
    position. *)
Record t : Type := mk {
  path : string;
  line : N;
  character : N;
  isResident : bool }.
End IFileReference.

Module SourceUnit.
(** [content] is [None] for a unit whose text is not loaded ([null] in
    the source), [referencedFiles] is [None] until the resolver fills it
    in. *)
Record t : Type := mk {
  path : string;
  content : option string;
  referencedFiles : option (list IFileReference.t) }.
End SourceUnit.

Record CompilationSettings : Type := {
  useCaseSensitiveFileResolution : bool }.

(** The result of the preprocessing step: the explicit directives and the
    import statements of one unit, in textual order. *)
Record IPreProcessedFileInfo : Type := {
  referencedFiles : list IFileReference.t;
  importedFiles : list IFileReference.t }.

(** [IFileSystemObject]: the host capability.  [readFile] throws when the
    file cannot be read, which is [None] here; [findFile] returns [null]
    when nothing is found. *)
Class IFileSystemObject : Type := {
  resolvePath : string -> string;
  readFile : string -> option string;
  findFile : string -> string -> option IResolvedFile.t;
  dirName : string -> string }.

(** The path helpers that [resolveCode] calls.  They are declared in
    pathUtils.ts, outside the files at hand, and are therefore taken as
    parameters; [toLocaleUpperCase] is the built-in of the language. *)
Class PathUtils : Type := {
  isRelative : string -> bool;
  isRooted : string -> bool;
  isSTRFile : string -> bool;
  isTSFile : string -> bool;
  isDSTRFile : string -> bool;
  isDTSFile : string -> bool;
  changePathToTS : string -> string;
  changePathToSTR : string -> string;
  changePathToDSTR : string -> string;
  changePathToDTS : string -> string;
  switchToForwardSlashes : string -> string;
  stripQuotes : string -> string;
  toLocaleUpperCase : string -> string }.

(** [IResolutionDispatcher], as an interface over the state [D] that its
    two callbacks act on. *)
Class IResolutionDispatcher (D : Type) : Type := {
  postResolutionError : string -> IFileReference.t -> string -> D -> D;
  postResolution : string -> SourceUnit.t -> D -> D }.

(** The calls that leave the resolver, in the order they are made.  A read
    is recorded with its success, a search with the path of the file it
    found; [Visit] records the assignment
    [this.visited[absoluteModuleID] = true]. *)
Inductive Event : Type :=
| ReadFile (path : string) (ok : bool)
| FindFile (rootPath partialFilePath : string) (found : option string)
| Visit (absoluteModuleID : string)
| PostResolutionError (errorFile : string) (fileReference : IFileReference.t)
    (errorMessage : string)
| PostResolution (path : string) (source : SourceUnit.t).

(** The double quote character, for the messages that embed one. *)
Definition dquote : string := String (ascii_of_nat 34) EmptyString.

(** ** What the driver takes from the runtime *)

Module Js.

(** How a piece of code ends that can raise a [TypeError]. *)
Inductive Completion (A : Type) : Type :=
| Normal (a : A)
| TypeError.

Arguments Normal {A} a.
Arguments TypeError {A}.

Definition bind {A B} (c : Completion A) (f : A -> Completion B) : Completion B :=
  match c with
  | Normal a => f a
  | TypeError => TypeError
  end.

(** How a plain object comes by a property that it does not own: not at
    all; as a value of [Object.prototype], such as [constructor] or
    [toString]; or as an accessor of [Object.prototype] that drops the
    assignment of a string, such as [__proto__]. *)
Inductive Inheritance : Type :=
| Absent
| Data
| Accessor.

(** The built-ins whose result depends on the runtime: which properties a
    plain object inherits, the text that an inherited value converts to
    when it is used as a property name, and the collation of
    [String.prototype.localeCompare].  Of the collation only what every
    runtime guarantees is kept: a string compares equal to itself. *)
Class Runtime : Type := {
  inheritance : string -> Inheritance;
  inheritedText : string -> string;
  localeCompare : string -> string -> comparison;
  localeCompare_refl : forall a, localeCompare a a = Eq }.

(** What [object[name]] yields for a plain object with the own properties
    [object]. *)
Inductive Property (A : Type) : Type :=
| Own (a : A)
| Inherited
| Undefined.

Arguments Own {A} a.
Arguments Inherited {A}.
Arguments Undefined {A}.

Section Objects.

Context {runtime : Runtime}.

(** [object[name]]. *)
Definition get {A} (object : gmap string A) (name : string) : Property A :=
  match object !! name with
  | Some a => Own a
  | None =>
    match inheritance name with
    | Absent => Undefined
    | Data | Accessor => Inherited
    end
  end.

(** [object[name] = a], for a value [a] that is a string or an object
    assigned under a name that is not inherited as an accessor. *)
Definition set {A} (name : string) (a : A) (object : gmap string A)
    : gmap string A :=
  match object !! name, inheritance name with
  | None, Accessor => object
  | _, _ => <[name := a]> object
  end.

End Objects.

(** A number as the string concatenation prints it. *)
Definition numberToString (n : N) : string :=
  NilEmpty.string_of_uint (N.to_uint n).

(** The values that reach the error callback of the dispatcher: strings,
    the numbers that it declares, file references, and [undefined] for a
    parameter that the caller leaves out. *)
Inductive Value : Type :=
| VString (s : string)
| VNumber (n : N)
| VObject (fileReference : IFileReference.t)
| VUndefined.

(** The conversion that [+] applies to its right operand when the left
    one is a string.  The file references are built by the preprocessing
    step, outside the files at hand, as objects that declare no
    [toString] of their own; such an object converts to the text that
    every plain object converts to. *)
Definition toText (v : Value) : string :=
  match v with
  | VString s => s
  | VNumber n => numberToString n
  | VObject _ => "[object Object]"
  | VUndefined => "undefined"
  end.

(** [v == ""]. *)
Definition equalsEmpty (v : Value) : bool :=
  match v with
  | VString s => String.eqb s EmptyString
  | VNumber n => N.eqb n 0
  | VObject _ => false
  | VUndefined => false
  end.

End Js.

(** ** The resolver *)

Module CodeResolver.
Section Resolver.

Context {pathUtils : PathUtils} {ioHost : IFileSystemObject}.
Context (compilationSettings : CompilationSettings).
Context (preProcessFile : SourceUnit.t -> CompilationSettings -> IPreProcessedFileInfo).
Context {D : Type} {resolutionDispatcher : IResolutionDispatcher D}.

(** The mutable state a pass runs in: the resolver's [visited] object,
    the trace of calls, and the state behind the dispatcher. *)
Record State : Type := mkState {
  visited : gmap string bool;
  trace : list Event;
  dispatched : D }.

(** [this.visited[k]] as a condition. *)
Definition isVisited (st : State) (k : string) : bool :=
  match visited st !! k with
  | Some b => b
  | None => false
  end.

(** State passing with fuel exhaustion. *)
Definition M (A : Type) : Type := State -> option (A * State).

Definition ret {A} (a : A) : M A := fun st => Some (a, st).

Definition bind {A B} (m : M A) (f : A -> M B) : M B :=
  fun st => match m st with
            | Some (a, st') => f a st'
            | None => None
            end.

Notation "x <- m ;; k" := (bind m (fun x => k))
  (at level 100, m at next level, right associativity).
Notation "m ;;; k" := (bind m (fun _ => k))
  (at level 100, right associativity).

Definition emit (e : Event) : M unit :=
  fun st => Some (tt, mkState (visited st) (trace st ++ [e]) (dispatched st)).

Definition markVisited (absoluteModuleID : string) : M unit :=
  fun st => Some (tt, mkState (<[absoluteModuleID := true]> (visited st))
                              (trace st ++ [Visit absoluteModuleID])
                              (dispatched st)).

Definition callPostResolutionError (errorFile : string)
    (fileReference : IFileReference.t) (errorMessage : string) : M unit :=
  fun st => Some (tt, mkState (visited st)
    (trace st ++ [PostResolutionError errorFile fileReference errorMessage])
    (postResolutionError errorFile fileReference errorMessage (dispatched st))).

Definition callPostResolution (path : string) (source : SourceUnit.t) : M unit :=
  fun st => Some (tt, mkState (visited st)
    (trace st ++ [PostResolution path source])
    (postResolution path source (dispatched st))).

(** [ioHost.readFile] inside a [try]: the outcome, with the call traced. *)
Definition tryReadFile (path : string) : M (option string) :=
  let r := readFile path in
  emit (ReadFile path (bool_decide (is_Some r))) ;;; ret r.

Definition callFindFile (rootPath partialFilePath : string)
    : M (option IResolvedFile.t) :=
  let r := findFile rootPath partialFilePath in
  emit (FindFile rootPath partialFilePath (IResolvedFile.path <$> r)) ;;; ret r.

(** Lines 100-105. *)
Definition isRootedPath (referencePath : string) : bool :=
  if isRelative referencePath then false else isRooted referencePath.

Definition initialPath (referencePath parentPath : string) (performSearch : bool)
    : string :=
  if isRelative referencePath
  then resolvePath (parentPath +:+ "/" +:+ referencePath)
  else if isRootedPath referencePath || String.eqb parentPath EmptyString
          || performSearch
       then referencePath
       else parentPath +:+ "/" +:+ referencePath.

(** Lines 108-112: [normalizedPath] as it stands when the key is taken. *)
Definition normalizePath (referencePath parentPath : string) (performSearch : bool)
    : string :=
  let normalizedPath := initialPath referencePath parentPath performSearch in
  let normalizedPath :=
    if negb (isSTRFile normalizedPath) && negb (isTSFile normalizedPath)
    then normalizedPath +:+ ".ts"
    else normalizedPath in
  switchToForwardSlashes (stripQuotes normalizedPath).

(** Line 113. *)
Definition caseFold (normalizedPath : string) : string :=
  if useCaseSensitiveFileResolution compilationSettings
  then normalizedPath
  else toLocaleUpperCase normalizedPath.

Definition absoluteModuleID (referencePath parentPath : string)
    (performSearch : bool) : string :=
  caseFold (normalizePath referencePath parentPath performSearch).

(** Line 118: the direct strategy is taken. *)
Definition readsDirectly (referencePath : string) (performSearch : bool) : bool :=
  isRelative referencePath || isRootedPath referencePath || negb performSearch.

(** Lines 128-133 and 168-173. *)
Definition swapSourceSuffix (normalizedPath : string) : string :=
  if isSTRFile normalizedPath then changePathToTS normalizedPath
  else if isTSFile normalizedPath then changePathToSTR normalizedPath
  else normalizedPath.

(** Lines 119-150: the nested [try] blocks of the direct strategy.  The
    result is the content together with the path it was read from. *)
Definition readWithFallback (normalizedPath : string)
    : M (option IResolvedFile.t) :=
  c1 <- tryReadFile normalizedPath ;;
  match c1 with
  | Some c => ret (Some (IResolvedFile.mk (Some c) normalizedPath))
  | None =>
    let normalizedPath := swapSourceSuffix normalizedPath in
    c2 <- tryReadFile normalizedPath ;;
    match c2 with
    | Some c => ret (Some (IResolvedFile.mk (Some c) normalizedPath))
    | None =>
      let normalizedPath := changePathToDSTR normalizedPath in
      c3 <- tryReadFile normalizedPath ;;
      match c3 with
      | Some c => ret (Some (IResolvedFile.mk (Some c) normalizedPath))
      | None =>
        let normalizedPath := changePathToDTS normalizedPath in
        c4 <- tryReadFile normalizedPath ;;
        match c4 with
        | Some c => ret (Some (IResolvedFile.mk (Some c) normalizedPath))
        | None => ret None
        end
      end
    end
  end.

(** Lines 165-184: the probes of the search strategy. *)
Definition findWithFallback (parentPath normalizedPath : string)
    : M (option IResolvedFile.t) :=
  r1 <- callFindFile parentPath normalizedPath ;;
  match r1 with
  | Some f => ret (Some f)
  | None =>
    let normalizedPath := swapSourceSuffix normalizedPath in
    r2 <- callFindFile parentPath normalizedPath ;;
    match r2 with
    | Some f => ret (Some f)
    | None =>
      let normalizedPath := changePathToDTS normalizedPath in
      r3 <- callFindFile parentPath normalizedPath ;;
      match r3 with
      | Some f => ret (Some f)
      | None =>
        let normalizedPath := changePathToDSTR normalizedPath in
        callFindFile parentPath normalizedPath
      end
    end
  end.

Section Recursion.

(** The recursive call, as the loops below see it. *)
Variable resolveCode : string -> string -> bool -> M bool.

(** Lines 209-225: the loop over the explicit references. *)
Fixpoint resolveReferences (resolvedFilePath rootDir : string)
    (refs : list IFileReference.t) : M unit :=
  match refs with
  | [] => ret tt
  | fileReference :: rest =>
    let normalizedPath :=
      if isRooted (IFileReference.path fileReference)
      then IFileReference.path fileReference
      else rootDir +:+ "/" +:+ IFileReference.path fileReference in
    let normalizedPath := resolvePath normalizedPath in
    if String.eqb resolvedFilePath normalizedPath then
      callPostResolutionError normalizedPath fileReference
        "Incorrect reference: File contains reference to itself." ;;;
      resolveReferences resolvedFilePath rootDir rest
    else
      resolutionResult <-
        resolveCode (IFileReference.path fileReference) rootDir false ;;
      (if negb resolutionResult then
         callPostResolutionError resolvedFilePath fileReference
           ("Incorrect reference: referenced file: " +:+ dquote +:+
            IFileReference.path fileReference +:+ dquote +:+
            " cannot be resolved.")
       else ret tt) ;;;
      resolveReferences resolvedFilePath rootDir rest
  end.

(** Lines 228-236: the loop over the imports. *)
Fixpoint resolveImports (resolvedFilePath rootDir : string)
    (imports : list IFileReference.t) : M unit :=
  match imports with
  | [] => ret tt
  | fileImport :: rest =>
    resolutionResult <-
      resolveCode (IFileReference.path fileImport) rootDir true ;;
    (if negb resolutionResult then
       callPostResolutionError resolvedFilePath fileImport
         ("Incorrect reference: imported file: " +:+ dquote +:+
          IFileReference.path fileImport +:+ dquote +:+
          " cannot be resolved.")
     else ret tt) ;;;
    resolveImports resolvedFilePath rootDir rest
  end.

(** Lines 197-240: what is done with an acquired file. *)
Definition resolveDependencies (resolvedFile : option IResolvedFile.t) : M unit :=
  match resolvedFile with
  | Some (IResolvedFile.mk (Some content) path) =>
    let rootDir := dirName path in
    let sourceUnit := SourceUnit.mk path (Some content) None in
    let preProcessedFileInfo := preProcessFile sourceUnit compilationSettings in
    let resolvedFilePath := resolvePath path in
    let sourceUnit :=
      SourceUnit.mk path (Some content)
        (Some (referencedFiles preProcessedFileInfo)) in
    resolveReferences resolvedFilePath rootDir
      (referencedFiles preProcessedFileInfo) ;;;
    resolveImports resolvedFilePath rootDir
      (importedFiles preProcessedFileInfo) ;;;
    callPostResolution (SourceUnit.path sourceUnit) sourceUnit
  | _ => ret tt
  end.

(** Lines 95-243, one level of the recursion. *)
Definition resolveCodeBody (referencePath parentPath : string)
    (performSearch : bool) : M bool :=
  let normalizedPath := normalizePath referencePath parentPath performSearch in
  let absoluteModuleID := caseFold normalizedPath in
  fun st =>
  if isVisited st absoluteModuleID then ret true st
  else if readsDirectly referencePath performSearch then
    (resolvedFile <- readWithFallback normalizedPath ;;
     match resolvedFile with
     | None => ret false
     | Some _ =>
       markVisited absoluteModuleID ;;;
       resolveDependencies resolvedFile ;;;
       ret true
     end) st
  else
    (found <- findWithFallback parentPath normalizedPath ;;
     match found with
     | Some f =>
       let resolvedFile :=
         Some (IResolvedFile.mk (IResolvedFile.content f)
                 (switchToForwardSlashes (stripQuotes (IResolvedFile.path f)))) in
       markVisited absoluteModuleID ;;;
       resolveDependencies resolvedFile ;;;
       ret true
     | None =>
       resolveDependencies None ;;;
       ret true
     end) st.

End Recursion.

(** [CodeResolver.resolveCode]. *)
Fixpoint resolveCode (fuel : nat) (referencePath parentPath : string)
    (performSearch : bool) : M bool :=
  match fuel with
  | O => fun _ => None
  | S fuel => resolveCodeBody (resolveCode fuel) referencePath parentPath performSearch
  end.

End Resolver.

Arguments State D : clear implicits.
Arguments M D A : clear implicits.

Module Notations.
Notation "x <- m ;; k" := (bind m (fun x => k))
  (at level 100, m at next level, right associativity).
Notation "m ;;; k" := (bind m (fun _ => k))
  (at level 100, right associativity).
End Notations.

End CodeResolver.

(** ** Path helpers and a table-driven host

    The general results below hold for every [PathUtils] and every host.
    The end-to-end scenarios need concrete ones to run on. *)

Module PathModel.

Definition backslash : ascii := ascii_of_nat 92.
Definition slash : ascii := ascii_of_nat 47.
Definition isQuoteChar (c : ascii) : bool :=
  Nat.eqb (nat_of_ascii c) 34 || Nat.eqb (nat_of_ascii c) 39.

(** [s] ends with [suffix] and is longer than it. *)
Definition hasSuffix (suffix s : string) : bool :=
  Nat.ltb (String.length suffix) (String.length s) &&
  String.eqb
    (substring (String.length s - String.length suffix) (String.length suffix) s)
    suffix.

Definition dropSuffix (suffix s : string) : string :=
  substring 0 (String.length s - String.length suffix) s.

(** Modelled from the spec: [isRelative] of pathUtils.ts, which is not
    among the sources.  A relative path starts with a dot. *)
Definition isRelative (path : string) : bool :=
  match path with
  | String c _ => Ascii.eqb c "."%char
  | EmptyString => false
  end.

(** Modelled from the spec: [isRooted] of pathUtils.ts, which is not among
    the sources.  A rooted (absolute) path starts with a slash or a
    backslash, or carries a drive prefix. *)
Definition isRooted (path : string) : bool :=
  match path with
  | String c rest =>
    Ascii.eqb c slash || Ascii.eqb c backslash ||
    match rest with
    | String d _ => Ascii.eqb d ":"%char
    | EmptyString => false
    end
  | EmptyString => false
  end.

(** Modelled from the spec: [isTSFile] of pathUtils.ts, which is not among
    the sources.  A path is of the primary source-suffix family when it
    ends in [.ts], the suffix that line 109 of the resolver appends. *)
Definition isTSFile : string -> bool := hasSuffix ".ts".

(** Modelled from the spec: [isSTRFile] of pathUtils.ts, which is not among
    the sources.  The legacy source suffix is [.str]. *)
Definition isSTRFile : string -> bool := hasSuffix ".str".

(** Modelled from the spec: [isDTSFile] of pathUtils.ts, which is not among
    the sources.  The primary declaration suffix is [.d.ts]. *)
Definition isDTSFile : string -> bool := hasSuffix ".d.ts".

(** Modelled from the spec: [isDSTRFile] of pathUtils.ts, which is not among
    the sources.  The legacy declaration suffix is [.d.str]. *)
Definition isDSTRFile : string -> bool := hasSuffix ".d.str".

Definition stripLeadingQuote (s : string) : string :=
  match s with
  | String c rest => if isQuoteChar c then rest else s
  | EmptyString => s
  end.

(** Modelled from the spec: [stripQuotes] of pathUtils.ts, which is not
    among the sources.  Surrounding quote characters are stripped. *)
Definition stripQuotes (s : string) : string :=
  String.rev (stripLeadingQuote (String.rev (stripLeadingQuote s))).

(** Modelled from the spec: [switchToForwardSlashes] of pathUtils.ts, which
    is not among the sources.  Every backslash becomes a slash. *)
Fixpoint switchToForwardSlashes (s : string) : string :=
  match s with
  | EmptyString => EmptyString
  | String c rest =>
    String (if Ascii.eqb c backslash then slash else c)
           (switchToForwardSlashes rest)
  end.

(** The path without its recognised suffix, if it has one. *)
Definition trimModName (modName : string) : string :=
  if hasSuffix ".d.str" modName then dropSuffix ".d.str" modName
  else if hasSuffix ".str" modName then dropSuffix ".str" modName
  else if hasSuffix ".d.ts" modName then dropSuffix ".d.ts" modName
  else if hasSuffix ".ts" modName then dropSuffix ".ts" modName
  else modName.

(** Modelled from the spec: [changePathToTS] of pathUtils.ts, which is not
    among the sources.  A suffix substitution: the recognised suffix is
    replaced by the primary source suffix. *)
Definition changePathToTS (p : string) : string :=
  trimModName (stripQuotes p) +:+ ".ts".

(** Modelled from the spec: [changePathToSTR] of pathUtils.ts, which is not
    among the sources.  The recognised suffix is replaced by the legacy
    source suffix. *)
Definition changePathToSTR (p : string) : string :=
  trimModName (stripQuotes p) +:+ ".str".

(** Modelled from the spec: [changePathToDSTR] of pathUtils.ts, which is not
    among the sources.  The recognised suffix is replaced by the legacy
    declaration suffix. *)
Definition changePathToDSTR (p : string) : string :=
  trimModName (stripQuotes p) +:+ ".d.str".

(** Modelled from the spec: [changePathToDTS] of pathUtils.ts, which is not
    among the sources.  The recognised suffix is replaced by the primary
    declaration suffix. *)
Definition changePathToDTS (p : string) : string :=
  trimModName (stripQuotes p) +:+ ".d.ts".

(** [String.prototype.toLocaleUpperCase], on the ASCII letters. *)
Definition upperChar (c : ascii) : ascii :=
  let n := nat_of_ascii c in
  if Nat.leb 97 n && Nat.leb n 122 then ascii_of_nat (n - 32) else c.

Fixpoint toLocaleUpperCase (s : string) : string :=
  match s with
  | EmptyString => EmptyString
  | String c rest => String (upperChar c) (toLocaleUpperCase rest)
  end.

#[export] Instance pathUtils : PathUtils :=
  Build_PathUtils isRelative isRooted isSTRFile isTSFile isDSTRFile isDTSFile
    changePathToTS changePathToSTR changePathToDSTR changePathToDTS
    switchToForwardSlashes stripQuotes toLocaleUpperCase.

End PathModel.

(** A host over a file system that is a finite table from absolute paths to
    contents, with a fixed working directory. *)
Module TableHost.

Definition FileTable : Type := list (string * string).

Fixpoint lookupFile (files : FileTable) (path : string) : option string :=
  match files with
  | [] => None
  | (p, c) :: rest => if String.eqb p path then Some c else lookupFile rest path
  end.

(** The segments of a path between slashes. *)
Fixpoint segmentsFrom (current : string) (s : string) : list string :=
  match s with
  | EmptyString => [String.rev current]
  | String c rest =>
    if Ascii.eqb c PathModel.slash
    then String.rev current :: segmentsFrom EmptyString rest
    else segmentsFrom (String c current) rest
  end.

Definition segments (path : string) : list string := segmentsFrom EmptyString path.

Fixpoint joinSegments (segs : list string) : string :=
  match segs with
  | [] => EmptyString
  | [s] => s
  | s :: rest => s +:+ "/" +:+ joinSegments rest
  end.

(** [dirName]: the path without its last segment. *)
Definition dirName (path : string) : string :=
  joinSegments (removelast (segments path)).

(** Removes [.] segments and resolves [..] segments against what is before
    them. *)
Fixpoint collapse (done_rev : list string) (segs : list string) : list string :=
  match segs with
  | [] => rev done_rev
  | s :: rest =>
    if String.eqb s "." then collapse done_rev rest
    else if String.eqb s ".." then collapse (tl done_rev) rest
    else collapse (s :: done_rev) rest
  end.

Definition resolvePath (cwd path : string) : string :=
  let absolute :=
    if PathModel.isRooted path then path else cwd +:+ "/" +:+ path in
  joinSegments (collapse [] (segments absolute)).

(** [findFile]: looks for [partialFilePath] under [rootPath] and then under
    each directory above it. *)
Fixpoint findUpwards (read : string -> option string) (steps : nat)
    (rootPath partialFilePath : string) : option IResolvedFile.t :=
  let path := rootPath +:+ "/" +:+ partialFilePath in
  match read path with
  | Some c => Some (IResolvedFile.mk (Some c) path)
  | None =>
    match steps with
    | O => None
    | S steps =>
      if String.eqb rootPath EmptyString then None
      else findUpwards read steps (dirName rootPath) partialFilePath
    end
  end.

Definition findFile (read : string -> option string)
    (rootPath partialFilePath : string) : option IResolvedFile.t :=
  findUpwards read (List.length (segments rootPath)) rootPath partialFilePath.

(** The host that reads a file under the path it has in the table, and
    under no other spelling of it. *)
Definition ioHost (cwd : string) (files : FileTable) : IFileSystemObject :=
  Build_IFileSystemObject (resolvePath cwd) (lookupFile files)
    (findFile (lookupFile files)) dirName.

(** The host over a file system that resolves the [.] and [..] segments
    of a path before it looks the file up, as file systems do: a file is
    read under every spelling of its path. *)
Definition readCanonical (cwd : string) (files : FileTable) (path : string)
    : option string :=
  lookupFile files (resolvePath cwd path).

Definition canonicalHost (cwd : string) (files : FileTable) : IFileSystemObject :=
  Build_IFileSystemObject (resolvePath cwd) (readCanonical cwd files)
    (findFile (readCanonical cwd files)) dirName.

(** A preprocessing step given by a table from source text to the
    references found in it; a text that is not in the table has none. *)
Definition PreProcessTable : Type := list (string * IPreProcessedFileInfo).

Fixpoint lookupInfo (table : PreProcessTable) (text : string)
    : IPreProcessedFileInfo :=
  match table with
  | [] => Build_IPreProcessedFileInfo [] []
  | (t, info) :: rest => if String.eqb t text then info else lookupInfo rest text
  end.

Definition preProcessFile (table : PreProcessTable) (sourceUnit : SourceUnit.t)
    (_ : CompilationSettings) : IPreProcessedFileInfo :=
  match SourceUnit.content sourceUnit with
  | Some text => lookupInfo table text
  | None => Build_IPreProcessedFileInfo [] []
  end.

End TableHost.

(** A runtime to run the driver on: a plain object inherits the members
    of [Object.prototype], of which [__proto__] is the accessor; an
    inherited function converts to its source text; the collation is the
    order of the code units. *)
Module RuntimeModel.

Definition prototypeMembers : list string :=
  ["constructor"; "toString"; "toLocaleString"; "valueOf"; "hasOwnProperty";
   "isPrototypeOf"; "propertyIsEnumerable"; "__defineGetter__";
   "__defineSetter__"; "__lookupGetter__"; "__lookupSetter__"].

Definition inheritance (name : string) : Js.Inheritance :=
  if String.eqb name "__proto__" then Js.Accessor
  else if existsb (String.eqb name) prototypeMembers then Js.Data
  else Js.Absent.

Definition inheritedText (name : string) : string :=
  if String.eqb name "__proto__" then "[object Object]"
  else if String.eqb name "constructor"
       then "function Object() { [native code] }"
       else "function " +:+ name +:+ "() { [native code] }".

Lemma compare_refl (a : string) : String.compare a a = Eq.
Proof.
  pose proof (String.compare_antisym a a) as H.
  destruct (String.compare a a); [reflexivity | discriminate | discriminate].
Qed.

#[export] Instance runtime : Js.Runtime :=
  Js.Build_Runtime inheritance inheritedText String.compare compare_refl.

(** A collation that, unlike the order of the code units, puts the
    underscore before the full stop, as the collations of the locales
    do: the strings are compared with every underscore read as [!]. *)
Fixpoint collationKey (s : string) : string :=
  match s with
  | EmptyString => EmptyString
  | String c rest =>
    String (if Ascii.eqb c "_"%char then "!"%char else c) (collationKey rest)
  end.

Definition collate (a b : string) : comparison :=
  String.compare (collationKey a) (collationKey b).

Lemma collate_refl (a : string) : collate a a = Eq.
Proof. apply compare_refl. Qed.

Definition collatingRuntime : Js.Runtime :=
  Js.Build_Runtime inheritance inheritedText collate collate_refl.

End RuntimeModel.

(** ** The command-line host (batch compiler driver, lines 45-95) *)

Module CompilationEnvironment.
Record t : Type := mk {
  compilationSettings : CompilationSettings;
  code : list SourceUnit.t }.
End CompilationEnvironment.

Module CommandLineHost.
Import CodeResolver.Notations.
Section Host.

Context {pathUtils : PathUtils} {ioHost : IFileSystemObject} {runtime : Js.Runtime}.
Context (preProcessFile : SourceUnit.t -> CompilationSettings -> IPreProcessedFileInfo).
Context (compilationSettings : CompilationSettings).

Definition getPathIdentifier (path : string) : string :=
  if useCaseSensitiveFileResolution compilationSettings
  then path
  else toLocaleUpperCase path.

(** What the two callbacks of [resolutionDispatcher] act on: the host's
    [resolvedPaths], the [code] array of [resolvedEnv], and the lines
    handed to [errorReporter]. *)
Record Resolution : Type := mkResolution {
  resolvedPaths : gmap string bool;
  resolvedCode : list SourceUnit.t;
  reported : list string }.

(** Lines 75-77: the text that the callback
    [(errorFile, line, col, errorMessage) => ...] hands to
    [errorReporter], for the values that it is called with. *)
Definition resolutionErrorText (errorFile line col errorMessage : Js.Value)
    : string :=
  Js.toText errorFile +:+ "(" +:+ Js.toText line +:+ "," +:+ Js.toText col
  +:+ ") "
  +:+ (if Js.equalsEmpty errorMessage then EmptyString
       else ": " +:+ Js.toText errorMessage).

Definition postResolutionError (errorFile line col errorMessage : Js.Value)
    (r : Resolution) : Resolution :=
  mkResolution (resolvedPaths r) (resolvedCode r)
    (reported r ++ [resolutionErrorText errorFile line col errorMessage]).

(** Lines 78-84. *)
Definition postResolution (path : string) (code : SourceUnit.t) (r : Resolution)
    : Resolution :=
  let pathId := getPathIdentifier path in
  match resolvedPaths r !! pathId with
  | Some true => r
  | _ => mkResolution (<[pathId := true]> (resolvedPaths r))
                      (resolvedCode r ++ [code])
                      (reported r)
  end.

(** The object handed to the resolver.  The resolver calls
    [postResolutionError] with three arguments, the file, the reference
    and the message (lines 216, 223 and 234 of the resolver), as the
    interface declares it; the callback of lines 74-77 has the four
    parameters [(errorFile, line, col, errorMessage)].  The reference
    therefore arrives as [line], the message as [col], and
    [errorMessage] is [undefined]. *)
#[export] Instance resolutionDispatcher : IResolutionDispatcher Resolution :=
  Build_IResolutionDispatcher Resolution
    (fun errorFile fileReference errorMessage =>
       postResolutionError (Js.VString errorFile) (Js.VObject fileReference)
         (Js.VString errorMessage) Js.VUndefined)
    postResolution.

(** Lines 87-91: the loop over the entry units. *)
Fixpoint resolveEntries (fuel : nat) (entries : list SourceUnit.t)
    (pathMap : gmap string string)
    : CodeResolver.M Resolution (gmap string string) :=
  match entries with
  | [] => CodeResolver.ret pathMap
  | unit :: rest =>
    let path := switchToForwardSlashes (resolvePath (SourceUnit.path unit)) in
    let pathMap := Js.set (SourceUnit.path unit) path pathMap in
    _ <- CodeResolver.resolveCode compilationSettings preProcessFile fuel
           path EmptyString false ;;
    resolveEntries fuel rest pathMap
  end.

(** [resolveCompilationEnvironment], run with a resolver whose [visited]
    object is [visited0]: the resolved environment, the own properties
    of the host's [pathMap], and the state the pass ended in. *)
Definition resolveCompilationEnvironment (fuel : nat)
    (preEnv : CompilationEnvironment.t) (visited0 : gmap string bool)
    (resolvedPaths0 : gmap string bool) (pathMap0 : gmap string string)
    : option (CompilationEnvironment.t * gmap string string *
              CodeResolver.State Resolution) :=
  let start :=
    CodeResolver.mkState visited0 [] (mkResolution resolvedPaths0 [] []) in
  match resolveEntries fuel (CompilationEnvironment.code preEnv) pathMap0 start with
  | Some (pathMap, st) =>
    Some (CompilationEnvironment.mk
            (CompilationEnvironment.compilationSettings preEnv)
            (resolvedCode (CodeResolver.dispatched st)),
          pathMap, st)
  | None => None
  end.

End Host.
End CommandLineHost.

(** ** Watch-mode reconciliation (batch compiler driver, lines 555-658) *)

Module Watch.

(** The calls on the file-watch capability. *)
Inductive WatchOp : Type :=
| WatchFile (filename : string)
| CloseWatcher (filename : string).

(** The handle [ioHost.watchFile] returns. *)
Record IFileWatcher : Type := { watchedFile : string }.

(** The variables the closures of [watchFiles] share: [resolvedFiles], the
    own properties of [watchers], and the calls made so far. *)
Record State : Type := mkState {
  resolvedFiles : list string;
  watchers : gmap string IFileWatcher;
  ops : list WatchOp }.

(** [Array.prototype.sort] without a comparator: ascending in the order of
    the code units of the strings. *)
Fixpoint insertSorted (x : string) (l : list string) : list string :=
  match l with
  | [] => [x]
  | y :: rest =>
    match String.compare x y with
    | Gt => y :: insertSorted x rest
    | _ => x :: l
    end
  end.

Definition sort (l : list string) : list string := foldr insertSorted [] l.

Section Closures.

Context {runtime : Js.Runtime}.

(** Lines 564-572.  The test [!watchers[filename]] fails when the object
    owns a watcher under the name and also when it inherits a property of
    that name. *)
Definition addWatcher (filename : string) (st : State) : State :=
  match Js.get (watchers st) filename with
  | Js.Undefined =>
    mkState (resolvedFiles st)
            (Js.set filename (Build_IFileWatcher filename) (watchers st))
            (ops st ++ [WatchFile filename])
  | Js.Own _ | Js.Inherited => st
  end.

(** Lines 574-582.  For a name that the object only inherits, the test
    [watchers[filename]] succeeds and [close] is called on a value that has
    no such method. *)
Definition removeWatcher (filename : string) (st : State) : Js.Completion State :=
  match Js.get (watchers st) filename with
  | Js.Own _ =>
    Js.Normal (mkState (resolvedFiles st)
                       (delete filename (watchers st))
                       (ops st ++ [CloseWatcher filename]))
  | Js.Inherited => Js.TypeError
  | Js.Undefined => Js.Normal st
  end.

(** Lines 600-619: the [while] loop.  Every iteration advances [i] or [j],
    so [length oldFiles + length newFiles] iterations are enough. *)
Fixpoint mergeLoop (iterations : nat) (oldFiles newFiles : list string)
    (i j : nat) (st : State) : Js.Completion (nat * nat * State) :=
  match iterations with
  | O => Js.Normal (i, j, st)
  | S iterations =>
    match oldFiles !! i, newFiles !! j with
    | Some o, Some n =>
      match Js.localeCompare o n with
      | Eq => mergeLoop iterations oldFiles newFiles (S i) (S j) st
      | Lt =>
        Js.bind (removeWatcher o st)
          (mergeLoop iterations oldFiles newFiles (S i) j)
      | Gt => mergeLoop iterations oldFiles newFiles i (S j) (addWatcher n st)
      end
    | _, _ => Js.Normal (i, j, st)
    end
  end.

(** Lines 622-624: the rest of the old list. *)
Fixpoint removeAll (files : list string) (st : State) : Js.Completion State :=
  match files with
  | [] => Js.Normal st
  | f :: rest => Js.bind (removeWatcher f st) (removeAll rest)
  end.

(** Lines 627-629: the rest of the new list. *)
Definition addAll (files : list string) (st : State) : State :=
  foldl (fun st f => addWatcher f st) st files.

(** Lines 595-632: the reconciliation step of [onWatchedFileChange], given
    the paths of the freshly resolved environment. *)
Definition reconcile (resolvedPaths : list string) (st : State)
    : Js.Completion State :=
  let oldFiles := resolvedFiles st in
  let newFiles := sort resolvedPaths in
  Js.bind
    (mergeLoop (length oldFiles + length newFiles) oldFiles newFiles 0 0 st)
    (fun '(i, j, st) =>
       Js.bind (removeAll (drop i oldFiles) st)
         (fun st =>
            let st := addAll (drop j newFiles) st in
            Js.Normal (mkState newFiles (watchers st) (ops st)))).

(** Lines 653-657: the initial watches. *)
Definition watchInitial (resolvedPaths : list string) : State :=
  let st := addAll resolvedPaths (mkState [] ∅ []) in
  mkState (sort resolvedPaths) (watchers st) (ops st).

End Closures.

End Watch.

(** ** Reading the traces *)

Definition isPostResolution (e : Event) : bool :=
  match e with PostResolution _ _ => true | _ => false end.

Definition isHostCall (e : Event) : bool :=
  match e with ReadFile _ _ | FindFile _ _ _ => true | _ => false end.

(** The paths handed to [postResolution], in call order. *)
Fixpoint dispatchedPaths (t : list Event) : list string :=
  match t with
  | [] => []
  | PostResolution p _ :: rest => p :: dispatchedPaths rest
  | _ :: rest => dispatchedPaths rest
  end.

(** The paths whose content the host returned, in call order. *)
Fixpoint acquiredPaths (t : list Event) : list string :=
  match t with
  | [] => []
  | ReadFile p true :: rest => p :: acquiredPaths rest
  | FindFile _ _ (Some p) :: rest => p :: acquiredPaths rest
  | _ :: rest => acquiredPaths rest
  end.

(** The keys marked visited, in the order they were marked. *)
Fixpoint visitKeys (t : list Event) : list string :=
  match t with
  | [] => []
  | Visit k :: rest => k :: visitKeys rest
  | _ :: rest => visitKeys rest
  end.

(** The errors handed to [postResolutionError], as file and message, in call
    order. *)
Fixpoint reportedErrors (t : list Event) : list (string * string) :=
  match t with
  | [] => []
  | PostResolutionError f _ m :: rest => (f, m) :: reportedErrors rest
  | _ :: rest => reportedErrors rest
  end.

(** The names probed with [findFile], in call order. *)
Fixpoint probedNames (t : list Event) : list string :=
  match t with
  | [] => []
  | FindFile _ p _ :: rest => p :: probedNames rest
  | _ :: rest => probedNames rest
  end.

(** A generic fallback chain: the candidates are tried in order until one
    yields a result. *)
Fixpoint firstHit {A} (probe : string -> option A) (candidates : list string)
    : option (string * A) :=
  match candidates with
  | [] => None
  | c :: rest =>
    match probe c with
    | Some a => Some (c, a)
    | None => firstHit probe rest
    end
  end.

(** The attempts such a chain makes, each with its outcome. *)
Fixpoint attempts {A} (probe : string -> option A) (candidates : list string)
    : list (string * option A) :=
  match candidates with
  | [] => []
  | c :: rest =>
    match probe c with
    | Some a => [(c, Some a)]
    | None => (c, None) :: attempts probe rest
    end
  end.

Lemma firstHit_probe {A} (probe : string -> option A) candidates c a :
  firstHit probe candidates = Some (c, a) -> probe c = Some a.
Proof.
  induction candidates as [|x rest IH]; simpl; [discriminate|].
  destruct (probe x) eqn:E; [|exact IH].
  intros [= <- <-]. exact E.
Qed.

Lemma firstHit_In {A} (probe : string -> option A) candidates c a :
  firstHit probe candidates = Some (c, a) -> In c candidates.
Proof.
  induction candidates as [|x rest IH]; simpl; [discriminate|].
  destruct (probe x); [intros [= <- <-]; now left | right; auto].
Qed.

Lemma visitKeys_app t1 t2 : visitKeys (t1 ++ t2) = visitKeys t1 ++ visitKeys t2.
Proof.
  induction t1 as [|e t1 IH]; simpl; [reflexivity|].
  destruct e; simpl; rewrite IH; reflexivity.
Qed.

Lemma acquiredPaths_app t1 t2 :
  acquiredPaths (t1 ++ t2) = acquiredPaths t1 ++ acquiredPaths t2.
Proof.
  induction t1 as [|e t1 IH]; simpl; [reflexivity|].
  destruct e as [p [|]|r p [f|]| | |]; simpl; rewrite IH; reflexivity.
Qed.

(** As many files were acquired from the host as keys were marked. *)
Definition balanced (events : list Event) : Prop :=
  length (acquiredPaths events) = length (visitKeys events).

Lemma balanced_app t1 t2 : balanced t1 -> balanced t2 -> balanced (t1 ++ t2).
Proof.
  unfold balanced. intros H1 H2.
  rewrite acquiredPaths_app, visitKeys_app, !length_app. lia.
Qed.

Lemma dispatchedPaths_app t1 t2 :
  dispatchedPaths (t1 ++ t2) = dispatchedPaths t1 ++ dispatchedPaths t2.
Proof.
  induction t1 as [|e t1 IH]; simpl; [reflexivity|].
  destruct e; simpl; rewrite IH; reflexivity.
Qed.

(** ** General facts about the resolver *)

Module ResolverFacts.
Import CodeResolver CodeResolver.Notations.
Section Facts.

Context {pathUtils : PathUtils} {ioHost : IFileSystemObject}.
Context (compilationSettings : CompilationSettings).
Context (preProcessFile : SourceUnit.t -> CompilationSettings -> IPreProcessedFileInfo).
Context {D : Type} {resolutionDispatcher : IResolutionDispatcher D}.

#[local] Abbreviation State := (State D).
#[local] Abbreviation resolveCode := (resolveCode compilationSettings preProcessFile).
#[local] Abbreviation caseFold := (caseFold compilationSettings).
#[local] Abbreviation absoluteModuleID := (absoluteModuleID compilationSettings).

(** The state with further calls appended to its trace. *)
Definition traced (st : State) (events : list Event) : State :=
  mkState (visited st) (trace st ++ events) (dispatched st).

(** The order of the read attempts of the direct strategy. *)
Definition directCandidates (normalizedPath : string) : list string :=
  let p2 := swapSourceSuffix normalizedPath in
  let p3 := changePathToDSTR p2 in
  let p4 := changePathToDTS p3 in
  [normalizedPath; p2; p3; p4].

(** The order of the probes of the search strategy. *)
Definition searchCandidates (normalizedPath : string) : list string :=
  let p2 := swapSourceSuffix normalizedPath in
  let p3 := changePathToDTS p2 in
  let p4 := changePathToDSTR p3 in
  [normalizedPath; p2; p3; p4].

Definition readEvents (normalizedPath : string) : list Event :=
  map (fun a => ReadFile (fst a) (bool_decide (is_Some (snd a))))
      (attempts readFile (directCandidates normalizedPath)).

Definition findEvents (parentPath normalizedPath : string) : list Event :=
  map (fun a => FindFile parentPath (fst a) (IResolvedFile.path <$> snd a))
      (attempts (findFile parentPath) (searchCandidates normalizedPath)).

Definition readResult (normalizedPath : string) : option IResolvedFile.t :=
  match firstHit readFile (directCandidates normalizedPath) with
  | Some (p, c) => Some (IResolvedFile.mk (Some c) p)
  | None => None
  end.

Definition findResult (parentPath normalizedPath : string)
    : option IResolvedFile.t :=
  match firstHit (findFile parentPath) (searchCandidates normalizedPath) with
  | Some (_, f) => Some f
  | None => None
  end.

Lemma traced_traced st e1 e2 : traced (traced st e1) e2 = traced st (e1 ++ e2).
Proof. unfold traced; simpl. now rewrite <- app_assoc. Qed.

Lemma traced_nil st : traced st [] = st.
Proof. destruct st; unfold traced; simpl. now rewrite app_nil_r. Qed.

Lemma tryReadFile_eq p st :
  tryReadFile p st
  = Some (readFile p, traced st [ReadFile p (bool_decide (is_Some (readFile p)))]).
Proof. reflexivity. Qed.

Lemma callFindFile_eq root p st :
  callFindFile root p st
  = Some (findFile root p,
          traced st [FindFile root p (IResolvedFile.path <$> findFile root p)]).
Proof. reflexivity. Qed.

(** The nested [try] blocks make the read attempts of [directCandidates]
    in order and stop at the first one that succeeds. *)
Lemma readWithFallback_eq n st :
  readWithFallback n st = Some (readResult n, traced st (readEvents n)).
Proof.
  unfold readWithFallback, readResult, readEvents, directCandidates, bind.
  rewrite tryReadFile_eq. cbn [firstHit attempts].
  destruct (readFile n) eqn:E1; [reflexivity|].
  rewrite tryReadFile_eq.
  destruct (readFile (swapSourceSuffix n)) eqn:E2;
    [rewrite traced_traced; reflexivity|].
  rewrite tryReadFile_eq.
  destruct (readFile (changePathToDSTR (swapSourceSuffix n))) eqn:E3;
    [rewrite !traced_traced; reflexivity|].
  rewrite tryReadFile_eq.
  destruct (readFile (changePathToDTS (changePathToDSTR (swapSourceSuffix n))));
    rewrite !traced_traced; reflexivity.
Qed.

(** The search strategy probes [searchCandidates] in order and stops at the
    first hit. *)
Lemma findWithFallback_eq parent n st :
  findWithFallback parent n st
  = Some (findResult parent n, traced st (findEvents parent n)).
Proof.
  unfold findWithFallback, findResult, findEvents, searchCandidates, bind.
  rewrite callFindFile_eq. cbn [firstHit attempts].
  destruct (findFile parent n) eqn:E1; [reflexivity|].
  rewrite callFindFile_eq.
  destruct (findFile parent (swapSourceSuffix n)) eqn:E2;
    [rewrite traced_traced; reflexivity|].
  rewrite callFindFile_eq.
  destruct (findFile parent (changePathToDTS (swapSourceSuffix n))) eqn:E3;
    [rewrite !traced_traced; reflexivity|].
  rewrite callFindFile_eq.
  destruct (findFile parent
              (changePathToDSTR (changePathToDTS (swapSourceSuffix n))));
    rewrite !traced_traced; reflexivity.
Qed.

(** *** The four ways through one call on a key that is not visited *)

Section Equations.

Variable rc : string -> string -> bool -> M D bool.
Variables (referencePath parentPath : string) (performSearch : bool).
Variable st : State.

Let n := normalizePath referencePath parentPath performSearch.
Let k := caseFold n.

Hypothesis notVisited : isVisited st k = false.

Lemma resolveCodeBody_visited (st0 : State) :
  isVisited st0 k = true ->
  resolveCodeBody compilationSettings preProcessFile rc
    referencePath parentPath performSearch st0 = Some (true, st0).
Proof. intros H. unfold resolveCodeBody. fold n. fold k. now rewrite H. Qed.

Lemma resolveCodeBody_direct_miss :
  readsDirectly referencePath performSearch = true ->
  readResult n = None ->
  resolveCodeBody compilationSettings preProcessFile rc
    referencePath parentPath performSearch st
  = Some (false, traced st (readEvents n)).
Proof.
  intros Hd Hr. unfold resolveCodeBody. fold n. fold k.
  rewrite notVisited, Hd. unfold bind at 1.
  rewrite readWithFallback_eq, Hr. reflexivity.
Qed.

Lemma resolveCodeBody_direct_hit resolvedFile :
  readsDirectly referencePath performSearch = true ->
  readResult n = Some resolvedFile ->
  resolveCodeBody compilationSettings preProcessFile rc
    referencePath parentPath performSearch st
  = (markVisited k ;;;
     resolveDependencies compilationSettings preProcessFile rc
       (Some resolvedFile) ;;;
     ret true) (traced st (readEvents n)).
Proof.
  intros Hd Hr. unfold resolveCodeBody. fold n. fold k.
  rewrite notVisited, Hd. unfold bind at 1.
  rewrite readWithFallback_eq, Hr. reflexivity.
Qed.

Lemma resolveCodeBody_search_miss :
  readsDirectly referencePath performSearch = false ->
  findResult parentPath n = None ->
  resolveCodeBody compilationSettings preProcessFile rc
    referencePath parentPath performSearch st
  = Some (true, traced st (findEvents parentPath n)).
Proof.
  intros Hd Hr. unfold resolveCodeBody. fold n. fold k.
  rewrite notVisited, Hd. unfold bind at 1.
  rewrite findWithFallback_eq, Hr. reflexivity.
Qed.

Lemma resolveCodeBody_search_hit f :
  readsDirectly referencePath performSearch = false ->
  findResult parentPath n = Some f ->
  resolveCodeBody compilationSettings preProcessFile rc
    referencePath parentPath performSearch st
  = (markVisited k ;;;
     resolveDependencies compilationSettings preProcessFile rc
       (Some (IResolvedFile.mk (IResolvedFile.content f)
                (switchToForwardSlashes (stripQuotes (IResolvedFile.path f))))) ;;;
     ret true) (traced st (findEvents parentPath n)).
Proof.
  intros Hd Hr. unfold resolveCodeBody. fold n. fold k.
  rewrite notVisited, Hd. unfold bind at 1.
  rewrite findWithFallback_eq, Hr. reflexivity.
Qed.

End Equations.

(** *** The file of a call *)

(** The file that a call on a key that is not visited hands on to the
    resolution of its dependencies: what the direct strategy read, or what
    the search strategy found, with its path put in order. *)
Definition acquisition (referencePath parentPath : string) (performSearch : bool)
    : option IResolvedFile.t :=
  let n := normalizePath referencePath parentPath performSearch in
  if readsDirectly referencePath performSearch
  then readResult n
  else match findResult parentPath n with
       | Some f =>
         Some (IResolvedFile.mk (IResolvedFile.content f)
                 (switchToForwardSlashes (stripQuotes (IResolvedFile.path f))))
       | None => None
       end.

(** The host calls that the call makes for it. *)
Definition acquisitionEvents (referencePath parentPath : string)
    (performSearch : bool) : list Event :=
  let n := normalizePath referencePath parentPath performSearch in
  if readsDirectly referencePath performSearch
  then readEvents n
  else findEvents parentPath n.

Lemma resolveCodeBody_acquired rc referencePath parentPath performSearch
    (st : State) file :
  isVisited st (absoluteModuleID referencePath parentPath performSearch) = false ->
  acquisition referencePath parentPath performSearch = Some file ->
  resolveCodeBody compilationSettings preProcessFile rc
    referencePath parentPath performSearch st
  = (markVisited (absoluteModuleID referencePath parentPath performSearch) ;;;
     resolveDependencies compilationSettings preProcessFile rc (Some file) ;;;
     ret true)
      (traced st (acquisitionEvents referencePath parentPath performSearch)).
Proof.
  unfold acquisition, acquisitionEvents, CodeResolver.absoluteModuleID.
  intros Hv Hacq.
  destruct (readsDirectly referencePath performSearch) eqn:Hd.
  - exact (resolveCodeBody_direct_hit rc _ _ _ _ Hv file Hd Hacq).
  - destruct (findResult parentPath _) as [f|] eqn:Hres; [|discriminate].
    injection Hacq as <-.
    exact (resolveCodeBody_search_hit rc _ _ _ _ Hv f Hd Hres).
Qed.

Lemma resolveCodeBody_not_acquired rc referencePath parentPath performSearch
    (st : State) :
  isVisited st (absoluteModuleID referencePath parentPath performSearch) = false ->
  acquisition referencePath parentPath performSearch = None ->
  resolveCodeBody compilationSettings preProcessFile rc
    referencePath parentPath performSearch st
  = Some (negb (readsDirectly referencePath performSearch),
          traced st (acquisitionEvents referencePath parentPath performSearch)).
Proof.
  unfold acquisition, acquisitionEvents, CodeResolver.absoluteModuleID.
  intros Hv Hacq.
  destruct (readsDirectly referencePath performSearch) eqn:Hd.
  - exact (resolveCodeBody_direct_miss rc _ _ _ _ Hv Hd Hacq).
  - destruct (findResult parentPath _) as [f|] eqn:Hres; [discriminate|].
    exact (resolveCodeBody_search_miss rc _ _ _ _ Hv Hd Hres).
Qed.

Lemma acquisitionEvents_hostCalls referencePath parentPath performSearch :
  visitKeys (acquisitionEvents referencePath parentPath performSearch) = [] /\
  dispatchedPaths (acquisitionEvents referencePath parentPath performSearch) = [] /\
  reportedErrors (acquisitionEvents referencePath parentPath performSearch) = [].
Proof.
  unfold acquisitionEvents, readEvents, findEvents.
  destruct (readsDirectly referencePath performSearch).
  - induction (attempts readFile _) as [|a l IH]; [auto | exact IH].
  - induction (attempts (findFile parentPath) _) as [|a l IH]; [auto | exact IH].
Qed.

(** A unit without references and imports is dispatched at once. *)
Lemma resolveDependencies_leaf rc path content (st : State) :
  referencedFiles
    (preProcessFile (SourceUnit.mk path (Some content) None) compilationSettings)
    = [] ->
  importedFiles
    (preProcessFile (SourceUnit.mk path (Some content) None) compilationSettings)
    = [] ->
  resolveDependencies compilationSettings preProcessFile rc
    (Some (IResolvedFile.mk (Some content) path)) st
  = callPostResolution path (SourceUnit.mk path (Some content) (Some [])) st.
Proof.
  intros Hr Hi. unfold resolveDependencies. rewrite Hr, Hi. reflexivity.
Qed.

Lemma bind_assoc {A B C} (m : M D A) (f : A -> M D B) (g : B -> M D C) st :
  bind (bind m f) g st = bind m (fun a => bind (f a) g) st.
Proof. unfold bind. destruct (m st) as [[a st1]|]; reflexivity. Qed.

(** The loop over a concatenation is the loop over the first part followed
    by the loop over the second. *)
Lemma resolveReferences_app rc resolvedFilePath rootDir before after (st : State) :
  resolveReferences rc resolvedFilePath rootDir (before ++ after) st
  = (resolveReferences rc resolvedFilePath rootDir before ;;;
     resolveReferences rc resolvedFilePath rootDir after) st.
Proof.
  revert st. induction before as [|fileReference rest IH]; intros st; simpl.
  - reflexivity.
  - unfold bind in *. destruct (String.eqb resolvedFilePath _).
    + destruct (callPostResolutionError _ _ _ st) as [[[] st1]|];
        [apply IH | reflexivity].
    + destruct (rc _ _ _ st) as [[r st1]|]; [|reflexivity].
      destruct r; simpl; apply IH.
Qed.

(** *** Visiting only ever adds keys, and adds each key once *)

(** Every key visited in [st] is still visited in [st']. *)
Definition extends (st st' : State) : Prop :=
  forall k, isVisited st k = true -> isVisited st' k = true.

(** The [Visit] events of the trace are distinct and agree with
    [visited]. *)
Definition consistent (st : State) : Prop :=
  NoDup (visitKeys (trace st)) /\
  forall k, k ∈ visitKeys (trace st) -> isVisited st k = true.

(** The trace of [st'] continues the trace of [st], and in what was added
    every acquisition of a file has its marking of a key. *)
Definition continues (st st' : State) : Prop :=
  exists rest, trace st' = trace st ++ rest /\ balanced rest.

Definition sound {A} (m : M D A) : Prop :=
  forall st a st', m st = Some (a, st') ->
    extends st st' /\ continues st st' /\ (consistent st -> consistent st').

Lemma continues_refl st : continues st st.
Proof. exists []. split; [now rewrite app_nil_r | reflexivity]. Qed.

Lemma continues_trans st1 st2 st3 :
  continues st1 st2 -> continues st2 st3 -> continues st1 st3.
Proof.
  intros (r1 & H1 & B1) (r2 & H2 & B2). exists (r1 ++ r2).
  split; [now rewrite H2, H1, app_assoc | now apply balanced_app].
Qed.

Lemma continues_traced st events :
  balanced events -> continues st (traced st events).
Proof. intros B. now exists events. Qed.

Lemma extends_refl st : extends st st.
Proof. intros k H; exact H. Qed.

Lemma extends_trans st1 st2 st3 :
  extends st1 st2 -> extends st2 st3 -> extends st1 st3.
Proof. intros H1 H2 k H; auto. Qed.

Lemma isVisited_traced (st : State) events k : isVisited (traced st events) k = isVisited st k.
Proof. reflexivity. Qed.

Lemma extends_traced st events : extends st (traced st events).
Proof. intros k H; exact H. Qed.

Lemma consistent_traced st events :
  visitKeys events = [] -> consistent st -> consistent (traced st events).
Proof.
  intros Hq [Hnd Hin]. unfold consistent, traced; simpl.
  rewrite visitKeys_app, Hq, app_nil_r. split; [exact Hnd | exact Hin].
Qed.

Lemma isVisited_insert (st : State) k k' events d :
  isVisited (mkState (D:=D) (<[k := true]> (visited st)) events d) k'
  = if decide (k = k') then true else isVisited st k'.
Proof.
  unfold isVisited; simpl. rewrite lookup_insert.
  destruct (decide (k = k')); reflexivity.
Qed.

Lemma markVisited_eq k (st : State) :
  markVisited k st
  = Some (tt, mkState (<[k := true]> (visited st)) (trace st ++ [Visit k])
                      (dispatched st)).
Proof. reflexivity. Qed.

Lemma markVisited_extends k (st st' : State) :
  markVisited k st = Some (tt, st') -> extends st st'.
Proof.
  rewrite markVisited_eq. intros [= <-] k' H.
  rewrite isVisited_insert. destruct (decide (k = k')); [reflexivity | exact H].
Qed.

Lemma markVisited_visits k (st st' : State) :
  markVisited k st = Some (tt, st') -> isVisited st' k = true.
Proof.
  rewrite markVisited_eq. intros [= <-].
  rewrite isVisited_insert. destruct (decide (k = k)); congruence.
Qed.

Lemma markVisited_consistent k (st st' : State) :
  isVisited st k = false ->
  markVisited k st = Some (tt, st') -> consistent st -> consistent st'.
Proof.
  intros Hk. rewrite markVisited_eq. intros [= <-] [Hnd Hin].
  unfold consistent; simpl. rewrite visitKeys_app; simpl. split.
  - apply NoDup_app. split; [exact Hnd|]. split; [|apply NoDup_singleton].
    intros x Hx Hx'. apply list_elem_of_singleton in Hx'. subst x.
    apply Hin in Hx. congruence.
  - intros k' Hk'. rewrite isVisited_insert.
    destruct (decide (k = k')); [reflexivity|].
    apply elem_of_app in Hk' as [Hk'|Hk']; [now apply Hin|].
    apply list_elem_of_singleton in Hk'. congruence.
Qed.

Lemma sound_ret {A} (a : A) : sound (ret a).
Proof.
  intros st a' st' [= <- <-].
  split; [apply extends_refl | split; [apply continues_refl | auto]].
Qed.

Lemma sound_bind {A B} (m : M D A) (f : A -> M D B) :
  sound m -> (forall a, sound (f a)) -> sound (bind m f).
Proof.
  intros Hm Hf st b st'. unfold bind.
  destruct (m st) as [[a st1]|] eqn:E; [|discriminate].
  intros Hfa. destruct (Hm _ _ _ E) as (He & Ht & Hc).
  destruct (Hf a _ _ _ Hfa) as (He' & Ht' & Hc').
  split; [eapply extends_trans; eauto|].
  split; [eapply continues_trans; eauto | auto].
Qed.

Lemma sound_callPostResolutionError errorFile fileReference errorMessage :
  sound (callPostResolutionError errorFile fileReference errorMessage).
Proof.
  intros st a st' [= <- <-]. split; [intros k H; exact H|].
  split; [eexists; split; [reflexivity | reflexivity]|].
  intros [Hnd Hin]. unfold consistent; simpl.
  rewrite visitKeys_app; simpl. rewrite app_nil_r. split; assumption.
Qed.

Lemma sound_callPostResolution path source :
  sound (callPostResolution path source).
Proof.
  intros st a st' [= <- <-]. split; [intros k H; exact H|].
  split; [eexists; split; [reflexivity | reflexivity]|].
  intros [Hnd Hin]. unfold consistent; simpl.
  rewrite visitKeys_app; simpl. rewrite app_nil_r. split; assumption.
Qed.

(** A fallback chain acquires one file when it has a result, and none
    otherwise. *)
Lemma acquired_readEvents n :
  length (acquiredPaths (readEvents n))
  = match readResult n with Some _ => 1 | None => 0 end.
Proof.
  unfold readEvents, readResult.
  induction (directCandidates n) as [|c cs IH]; simpl; [reflexivity|].
  destruct (readFile c); simpl; [reflexivity | exact IH].
Qed.

Lemma acquired_findEvents parent n :
  length (acquiredPaths (findEvents parent n))
  = match findResult parent n with Some _ => 1 | None => 0 end.
Proof.
  unfold findEvents, findResult.
  induction (searchCandidates n) as [|c cs IH]; simpl; [reflexivity|].
  destruct (findFile parent c); simpl; [reflexivity | exact IH].
Qed.

Lemma visitKeys_readEvents n : visitKeys (readEvents n) = [].
Proof.
  unfold readEvents. induction (attempts readFile (directCandidates n));
    [reflexivity | exact IHl].
Qed.

Lemma visitKeys_findEvents parent n : visitKeys (findEvents parent n) = [].
Proof.
  unfold findEvents.
  induction (attempts (findFile parent) (searchCandidates n));
    [reflexivity | exact IHl].
Qed.

Section SoundBody.

Variable rc : string -> string -> bool -> M D bool.
Hypothesis rc_sound : forall r p s, sound (rc r p s).

Lemma sound_resolveReferences resolvedFilePath rootDir refs :
  sound (resolveReferences rc resolvedFilePath rootDir refs).
Proof.
  induction refs as [|fileReference rest IH]; simpl; [apply sound_ret|].
  destruct (String.eqb resolvedFilePath _).
  - apply sound_bind; [apply sound_callPostResolutionError | intros _; exact IH].
  - apply sound_bind; [apply rc_sound|]. intros r.
    apply sound_bind; [|intros _; exact IH].
    destruct (negb r); [apply sound_callPostResolutionError | apply sound_ret].
Qed.

Lemma sound_resolveImports resolvedFilePath rootDir imports :
  sound (resolveImports rc resolvedFilePath rootDir imports).
Proof.
  induction imports as [|fileImport rest IH]; simpl; [apply sound_ret|].
  apply sound_bind; [apply rc_sound|]. intros r.
  apply sound_bind; [|intros _; exact IH].
  destruct (negb r); [apply sound_callPostResolutionError | apply sound_ret].
Qed.

Lemma sound_resolveDependencies resolvedFile :
  sound (resolveDependencies compilationSettings preProcessFile rc resolvedFile).
Proof.
  destruct resolvedFile as [[[content|] path]|]; simpl; try apply sound_ret.
  apply sound_bind; [apply sound_resolveReferences | intros _].
  apply sound_bind; [apply sound_resolveImports | intros _].
  apply sound_callPostResolution.
Qed.

(** What follows the acquisition of a file under the key [k]. *)
Lemma sound_afterAcquisition k resolvedFile (st : State) r st' :
  isVisited st k = false ->
  (markVisited k ;;;
   resolveDependencies compilationSettings preProcessFile rc resolvedFile ;;;
   ret true) st = Some (r, st') ->
  isVisited st' k = true /\ extends st st' /\
  (exists rest, trace st' = trace st ++ Visit k :: rest /\ balanced rest) /\
  (consistent st -> consistent st').
Proof.
  intros Hk. unfold bind at 1.
  destruct (markVisited k st) as [[[] st1]|] eqn:E1; [|discriminate].
  intros H.
  assert (Hs : sound (resolveDependencies compilationSettings preProcessFile
                        rc resolvedFile ;;; ret true)).
  { apply sound_bind; [apply sound_resolveDependencies | intros _; apply sound_ret]. }
  destruct (Hs _ _ _ H) as (He & (rest & Ht & Hb) & Hc).
  split; [apply He; eapply markVisited_visits; eauto|].
  split; [eapply extends_trans; [eapply markVisited_extends|]; eauto|].
  split.
  - exists rest. split; [|exact Hb]. rewrite Ht. rewrite markVisited_eq in E1.
    injection E1 as <-. simpl. now rewrite <- app_assoc.
  - intros Hst. apply Hc. eapply markVisited_consistent; eauto.
Qed.

Lemma acquisition_balanced events k rest :
  length (acquiredPaths events) = 1 -> visitKeys events = [] ->
  balanced rest -> balanced (events ++ Visit k :: rest).
Proof.
  unfold balanced. intros Ha Hv Hb.
  rewrite acquiredPaths_app, visitKeys_app, !length_app, Ha, Hv. simpl. lia.
Qed.

Lemma sound_resolveCodeBody referencePath parentPath performSearch :
  sound (resolveCodeBody compilationSettings preProcessFile rc
           referencePath parentPath performSearch).
Proof.
  intros st r st'. unfold resolveCodeBody.
  destruct (isVisited st _) eqn:Hv.
  { intros [= <- <-].
    split; [apply extends_refl | split; [apply continues_refl | auto]]. }
  destruct (readsDirectly referencePath performSearch).
  - unfold bind at 1. rewrite readWithFallback_eq.
    pose proof (acquired_readEvents
                  (normalizePath referencePath parentPath performSearch)) as Ha.
    destruct (readResult _) as [rf|].
    + intros H.
      eapply sound_afterAcquisition in H as (_ & He & (rest & Ht & Hb) & Hc);
        [|rewrite isVisited_traced; exact Hv].
      split; [eapply extends_trans; [apply extends_traced|exact He]|].
      split.
      * eexists. split; [rewrite Ht; unfold traced; simpl;
                         rewrite <- app_assoc; reflexivity|].
        apply acquisition_balanced; [exact Ha | apply visitKeys_readEvents | exact Hb].
      * intros Hst. apply Hc, consistent_traced;
          [apply visitKeys_readEvents|exact Hst].
    + intros [= <- <-]. split; [apply extends_traced|].
      split; [apply continues_traced; unfold balanced;
              now rewrite Ha, visitKeys_readEvents|].
      apply consistent_traced, visitKeys_readEvents.
  - unfold bind at 1. rewrite findWithFallback_eq.
    pose proof (acquired_findEvents parentPath
                  (normalizePath referencePath parentPath performSearch)) as Ha.
    destruct (findResult _ _) as [f|].
    + intros H.
      eapply sound_afterAcquisition in H as (_ & He & (rest & Ht & Hb) & Hc);
        [|rewrite isVisited_traced; exact Hv].
      split; [eapply extends_trans; [apply extends_traced|exact He]|].
      split.
      * eexists. split; [rewrite Ht; unfold traced; simpl;
                         rewrite <- app_assoc; reflexivity|].
        apply acquisition_balanced; [exact Ha | apply visitKeys_findEvents | exact Hb].
      * intros Hst. apply Hc, consistent_traced;
          [apply visitKeys_findEvents|exact Hst].
    + intros [= <- <-]. split; [apply extends_traced|].
      split; [apply continues_traced; unfold balanced;
              now rewrite Ha, visitKeys_findEvents|].
      apply consistent_traced, visitKeys_findEvents.
Qed.

End SoundBody.

Lemma sound_resolveCode fuel referencePath parentPath performSearch :
  sound (resolveCode fuel referencePath parentPath performSearch).
Proof.
  revert referencePath parentPath performSearch.
  induction fuel as [|fuel IH]; intros r p s; simpl.
  - intros st a st'; discriminate.
  - apply sound_resolveCodeBody. exact IH.
Qed.

(** The unit of a call is dispatched last: whatever the resolution of its
    references and imports caused comes before its own [postResolution]. *)
Lemma own_dispatch_is_last fuel path content (st st' : State) :
  resolveDependencies compilationSettings preProcessFile (resolveCode fuel)
    (Some (IResolvedFile.mk (Some content) path)) st = Some (tt, st') ->
  exists nested,
    trace st'
    = trace st ++ nested ++
      [PostResolution path
         (SourceUnit.mk path (Some content)
            (Some (referencedFiles
                     (preProcessFile (SourceUnit.mk path (Some content) None)
                        compilationSettings))))].
Proof.
  unfold resolveDependencies, bind.
  destruct (resolveReferences _ _ _ _ st) as [[[] st1]|] eqn:E1; [|discriminate].
  destruct (resolveImports _ _ _ _ st1) as [[[] st2]|] eqn:E2; [|discriminate].
  intros [= <-].
  destruct (sound_resolveReferences _ (sound_resolveCode fuel) _ _ _ _ _ _ E1)
    as (_ & (r1 & H1 & _) & _).
  destruct (sound_resolveImports _ (sound_resolveCode fuel) _ _ _ _ _ _ E2)
    as (_ & (r2 & H2 & _) & _).
  exists (r1 ++ r2). simpl. rewrite H2, H1. now rewrite <- !app_assoc.
Qed.

(** *** Termination *)

(** The host yields a file for this call: one of the read attempts of the
    direct strategy succeeds, or one of the probes of the search strategy
    hits. *)
Definition acquires (referencePath parentPath : string) (performSearch : bool)
    : bool :=
  let n := normalizePath referencePath parentPath performSearch in
  if readsDirectly referencePath performSearch
  then bool_decide (is_Some (readResult n))
  else bool_decide (is_Some (findResult parentPath n)).

Lemma filter_length_mono (f g : string -> bool) (l : list string) :
  (forall x, g x = true -> f x = true) ->
  length (List.filter g l) <= length (List.filter f l).
Proof.
  intros Hfg. induction l as [|x l IH]; simpl; [lia|].
  destruct (g x) eqn:Eg.
  - rewrite (Hfg _ Eg). simpl. lia.
  - destruct (f x); simpl; lia.
Qed.

Lemma filter_length_strict (f g : string -> bool) (l : list string) (x : string) :
  (forall y, g y = true -> f y = true) ->
  x ∈ l -> f x = true -> g x = false ->
  length (List.filter g l) < length (List.filter f l).
Proof.
  intros Hfg Hx Hf Hg. induction l as [|y l IH]; [inversion Hx|].
  simpl. apply elem_of_cons in Hx as [<-|Hx].
  - rewrite Hf, Hg. simpl. pose proof (filter_length_mono f g l Hfg). lia.
  - specialize (IH Hx). destruct (g y) eqn:Eg.
    + rewrite (Hfg _ Eg). simpl. lia.
    + destruct (f y); simpl; lia.
Qed.

(** A call, as its three arguments. *)
Definition Call : Type := string * string * bool.

Definition keyOf (c : Call) : string := absoluteModuleID c.1.1 c.1.2 c.2.

(** The test of line 215. *)
Definition isSelfReference (resolvedFilePath rootDir : string)
    (fileReference : IFileReference.t) : bool :=
  String.eqb resolvedFilePath
    (resolvePath
       (if isRooted (IFileReference.path fileReference)
        then IFileReference.path fileReference
        else rootDir +:+ "/" +:+ IFileReference.path fileReference)).

(** The calls that the resolution of the dependencies of a file makes,
    in their order: one without search for each explicit reference that
    is not a reference of the file to itself, then one with search for
    each import, all from the directory of the file. *)
Definition dependencies (file : IResolvedFile.t) : list Call :=
  match file with
  | IResolvedFile.mk (Some content) path =>
    let rootDir := dirName path in
    let info :=
      preProcessFile (SourceUnit.mk path (Some content) None)
        compilationSettings in
    map (fun r => (IFileReference.path r, rootDir, false))
        (List.filter (fun r => negb (isSelfReference (resolvePath path) rootDir r))
           (referencedFiles info)) ++
    map (fun i => (IFileReference.path i, rootDir, true)) (importedFiles info)
  | _ => []
  end.

(** A reference graph: a finite list of calls that holds, with each of its
    calls that yields a file, the calls for the dependencies of that
    file. *)
Definition closed (graph : list Call) : Prop :=
  forall c file,
    c ∈ graph -> acquisition c.1.1 c.1.2 c.2 = Some file ->
    forall d, d ∈ dependencies file -> d ∈ graph.

(** The same as a test. *)
Definition isClosed (graph : list Call) : bool :=
  forallb
    (fun c : Call =>
       match acquisition c.1.1 c.1.2 c.2 with
       | Some file =>
         forallb (fun d : Call => bool_decide (d ∈ graph)) (dependencies file)
       | None => true
       end)
    graph.

Lemma isClosed_closed graph : isClosed graph = true -> closed graph.
Proof.
  unfold isClosed, closed. rewrite forallb_forall.
  intros H c file Hc Hacq d Hd.
  specialize (H c (proj1 (list_elem_of_In _ _) Hc)). rewrite Hacq in H.
  rewrite forallb_forall in H.
  specialize (H d (proj1 (list_elem_of_In _ _) Hd)).
  now apply bool_decide_eq_true in H.
Qed.

(** The loop over references that are all references of the file to
    itself reports each of them and does nothing else. *)
Lemma resolveReferences_self rc resolvedFilePath rootDir refs (st : State) :
  (forall r, r ∈ refs -> isSelfReference resolvedFilePath rootDir r = true) ->
  resolveReferences rc resolvedFilePath rootDir refs st
  = Some (tt,
          mkState (visited st)
            (trace st ++
             map (fun r =>
                    PostResolutionError resolvedFilePath r
                      "Incorrect reference: File contains reference to itself.")
                 refs)
            (foldl (fun d r =>
                      postResolutionError resolvedFilePath r
                        "Incorrect reference: File contains reference to itself." d)
               (dispatched st) refs)).
Proof.
  revert st. induction refs as [|r refs IH]; intros st Hself.
  - simpl. rewrite app_nil_r. now destruct st.
  - pose proof (Hself r ltac:(apply elem_of_cons; now left)) as Hr.
    unfold isSelfReference in Hr. simpl. rewrite Hr.
    apply String.eqb_eq in Hr. rewrite <- Hr.
    unfold bind, callPostResolutionError. rewrite IH.
    + simpl. now rewrite <- app_assoc.
    + intros r' Hr'. apply Hself. apply elem_of_cons. now right.
Qed.

Section Progress.

Variable graph : list Call.

Hypothesis graph_closed : closed graph.

(** The keys of the calls of the graph that are not visited yet. *)
Definition remaining (st : State) : nat :=
  length (List.filter (fun k => negb (isVisited st k)) (map keyOf graph)).

Lemma remaining_le_graph st : remaining st <= length graph.
Proof.
  unfold remaining. etransitivity; [apply List.filter_length_le|].
  now rewrite length_map.
Qed.

Lemma remaining_extends st st' : extends st st' -> remaining st' <= remaining st.
Proof.
  intros He. apply filter_length_mono. intros k Hk.
  destruct (isVisited st k) eqn:E; [|reflexivity].
  apply He in E. rewrite E in Hk. discriminate.
Qed.

Lemma remaining_visit st st' k :
  extends st st' -> k ∈ map keyOf graph ->
  isVisited st k = false -> isVisited st' k = true ->
  remaining st' < remaining st.
Proof.
  intros He Hk Hv Hv'. apply filter_length_strict with (x := k); auto.
  - intros y Hy. destruct (isVisited st y) eqn:E; [|reflexivity].
    apply He in E. rewrite E in Hy. discriminate.
  - now rewrite Hv.
  - now rewrite Hv'.
Qed.

(** [m] returns from every state that has fewer than [n] keys left. *)
Definition progress (n : nat) {A} (m : M D A) : Prop :=
  forall st, remaining st < n ->
    exists a st', m st = Some (a, st') /\ extends st st'.

Lemma progress_ret n {A} (a : A) : progress n (ret a).
Proof. intros st _. exists a, st. split; [reflexivity | apply extends_refl]. Qed.

Lemma progress_bind n {A B} (m : M D A) (f : A -> M D B) :
  progress n m -> (forall a, progress n (f a)) -> progress n (bind m f).
Proof.
  intros Hm Hf st Hlt. destruct (Hm st Hlt) as (a & st1 & E & He).
  destruct (Hf a st1) as (b & st2 & E' & He').
  { pose proof (remaining_extends _ _ He). lia. }
  exists b, st2. unfold bind. rewrite E. split; [exact E'|].
  eapply extends_trans; eauto.
Qed.

Lemma progress_callPostResolutionError n errorFile fileReference errorMessage :
  progress n (callPostResolutionError errorFile fileReference errorMessage).
Proof.
  intros st _. eexists _, _. split; [reflexivity|]. intros k H; exact H.
Qed.

Lemma progress_callPostResolution n path source :
  progress n (callPostResolution path source).
Proof.
  intros st _. eexists _, _. split; [reflexivity|]. intros k H; exact H.
Qed.

Section ProgressBody.

Variable n : nat.
Variable rc : string -> string -> bool -> M D bool.
Hypothesis rc_progress :
  forall c : Call, c ∈ graph -> progress n (rc c.1.1 c.1.2 c.2).

Lemma progress_resolveReferences resolvedFilePath rootDir refs :
  (forall r, r ∈ refs -> isSelfReference resolvedFilePath rootDir r = false ->
             (IFileReference.path r, rootDir, false) ∈ graph) ->
  progress n (resolveReferences rc resolvedFilePath rootDir refs).
Proof.
  induction refs as [|fileReference rest IH]; intros Hin; simpl;
    [apply progress_ret|].
  assert (IH' : progress n (resolveReferences rc resolvedFilePath rootDir rest)).
  { apply IH. intros r Hr. apply Hin. apply elem_of_cons. now right. }
  destruct (String.eqb resolvedFilePath _) eqn:Hself.
  - apply progress_bind;
      [apply progress_callPostResolutionError | intros _; exact IH'].
  - apply progress_bind.
    + apply (rc_progress (IFileReference.path fileReference, rootDir, false)).
      apply Hin; [apply elem_of_cons; now left | exact Hself].
    + intros r. apply progress_bind; [|intros _; exact IH'].
      destruct (negb r);
        [apply progress_callPostResolutionError | apply progress_ret].
Qed.

Lemma progress_resolveImports resolvedFilePath rootDir imports :
  (forall i, i ∈ imports -> (IFileReference.path i, rootDir, true) ∈ graph) ->
  progress n (resolveImports rc resolvedFilePath rootDir imports).
Proof.
  induction imports as [|fileImport rest IH]; intros Hin; simpl;
    [apply progress_ret|].
  apply progress_bind.
  - apply (rc_progress (IFileReference.path fileImport, rootDir, true)).
    apply Hin. apply elem_of_cons. now left.
  - intros r. apply progress_bind.
    + destruct (negb r);
        [apply progress_callPostResolutionError | apply progress_ret].
    + intros _. apply IH. intros i Hi. apply Hin. apply elem_of_cons. now right.
Qed.

Lemma progress_resolveDependencies file :
  (forall d, d ∈ dependencies file -> d ∈ graph) ->
  progress n
    (resolveDependencies compilationSettings preProcessFile rc (Some file)).
Proof.
  destruct file as [[content|] path]; simpl; [|intros _; apply progress_ret].
  intros Hin.
  apply progress_bind; [|intros _].
  - apply progress_resolveReferences. intros r Hr Hself. apply Hin.
    apply elem_of_app. left. apply list_elem_of_fmap. exists r.
    split; [reflexivity|]. apply list_elem_of_In, filter_In.
    split; [now apply list_elem_of_In|]. unfold isSelfReference in *.
    now rewrite Hself.
  - apply progress_bind; [|intros _; apply progress_callPostResolution].
    apply progress_resolveImports. intros i Hi. apply Hin.
    apply elem_of_app. right. apply list_elem_of_fmap. exists i. auto.
Qed.

(** Marking a key of the graph that was not visited leaves strictly fewer
    keys, so the dependencies can be resolved one level down. *)
Lemma progress_afterAcquisition k file (st : State) :
  k ∈ map keyOf graph -> isVisited st k = false -> remaining st < S n ->
  (forall d, d ∈ dependencies file -> d ∈ graph) ->
  exists r st',
    (markVisited k ;;;
     resolveDependencies compilationSettings preProcessFile rc (Some file) ;;;
     ret true) st = Some (r, st') /\ extends st st'.
Proof.
  intros Hk Hv Hlt Hdeps. unfold bind at 1. rewrite markVisited_eq.
  set (st1 := mkState _ _ _).
  assert (He1 : extends st st1) by (eapply markVisited_extends; apply markVisited_eq).
  assert (Hv1 : isVisited st1 k = true)
    by (eapply markVisited_visits; apply markVisited_eq).
  pose proof (remaining_visit _ _ _ He1 Hk Hv Hv1) as Hlt1.
  destruct (progress_bind n
              (resolveDependencies compilationSettings preProcessFile rc
                 (Some file))
              (fun _ => ret true)
              (progress_resolveDependencies file Hdeps)
              (fun _ => progress_ret n true) st1) as (r & st' & E & He);
    [lia|].
  exists r, st'. split; [exact E | eapply extends_trans; eauto].
Qed.

Lemma progress_resolveCodeBody (c : Call) :
  c ∈ graph ->
  progress (S n)
    (resolveCodeBody compilationSettings preProcessFile rc c.1.1 c.1.2 c.2).
Proof.
  intros Hc st Hlt.
  destruct (isVisited st (keyOf c)) eqn:Hv.
  { exists true, st. split; [|apply extends_refl].
    now apply resolveCodeBody_visited. }
  destruct (acquisition c.1.1 c.1.2 c.2) as [file|] eqn:Hacq.
  - rewrite (resolveCodeBody_acquired _ _ _ _ _ _ Hv Hacq).
    destruct (progress_afterAcquisition (keyOf c) file
                (traced st (acquisitionEvents c.1.1 c.1.2 c.2)))
      as (r & st' & E & He).
    + apply list_elem_of_fmap. now exists c.
    + exact Hv.
    + exact Hlt.
    + intros d Hd. eapply graph_closed; eauto.
    + exists r, st'. split; [exact E|].
      eapply extends_trans; [apply extends_traced | exact He].
  - rewrite (resolveCodeBody_not_acquired _ _ _ _ _ Hv Hacq).
    eexists _, _. split; [reflexivity | apply extends_traced].
Qed.

End ProgressBody.

(** With more fuel than there are keys left, a call of the graph
    returns. *)
Lemma progress_resolveCode fuel (c : Call) :
  c ∈ graph -> progress fuel (resolveCode fuel c.1.1 c.1.2 c.2).
Proof.
  revert c. induction fuel as [|fuel IH]; intros c Hc.
  - intros st Hlt. lia.
  - simpl. apply progress_resolveCodeBody; [exact IH | exact Hc].
Qed.

End Progress.

(** *** Calls that do not return *)

(** When the first of the calls for the dependencies of a file does not
    return, the resolution of the dependencies does not return. *)
Lemma resolveDependencies_first_call rc file d rest (st : State) :
  dependencies file = d :: rest ->
  (forall st' : State, visited st' = visited st -> rc d.1.1 d.1.2 d.2 st' = None) ->
  resolveDependencies compilationSettings preProcessFile rc (Some file) st = None.
Proof.
  destruct file as [[content|] path]; simpl; [|discriminate].
  set (info := preProcessFile _ _).
  set (rfp := resolvePath path). set (rootDir := dirName path).
  intros Hdeps Hrc.
  assert (Hrefs : forall refs rest' (st0 : State),
            visited st0 = visited st ->
            map (fun r => (IFileReference.path r, rootDir, false))
              (List.filter (fun r => negb (isSelfReference rfp rootDir r)) refs)
            = d :: rest' ->
            resolveReferences rc rfp rootDir refs st0 = None).
  { induction refs as [|r refs IH]; intros rest' st0 Hst0; simpl; [discriminate|].
    unfold isSelfReference at 1.
    destruct (String.eqb rfp _) eqn:Hself; simpl.
    - intros Hd. unfold bind, callPostResolutionError.
      apply (IH rest'); [exact Hst0 | exact Hd].
    - intros [= <- _]. unfold bind. pose proof (Hrc st0 Hst0) as H.
      simpl in H. now rewrite H. }
  destruct (List.filter (fun r => negb (isSelfReference rfp rootDir r))
              (referencedFiles info)) as [|x l] eqn:Hf.
  - simpl in Hdeps.
    assert (Hall : forall r, r ∈ referencedFiles info ->
                     isSelfReference rfp rootDir r = true).
    { intros r Hr. destruct (isSelfReference rfp rootDir r) eqn:E; [reflexivity|].
      assert (Hin : In r (List.filter
                            (fun r => negb (isSelfReference rfp rootDir r))
                            (referencedFiles info))).
      { apply filter_In. split; [now apply list_elem_of_In | now rewrite E]. }
      rewrite Hf in Hin. destruct Hin. }
    unfold bind. rewrite (resolveReferences_self _ _ _ _ _ Hall).
    destruct (importedFiles info) as [|i imports]; [discriminate|].
    simpl in Hdeps. injection Hdeps as <- _. simpl. unfold bind.
    match goal with |- context [rc ?a ?b ?c ?s] =>
      assert (H : rc a b c s = None) by (apply (Hrc s); reflexivity)
    end.
    now rewrite H.
  - simpl in Hdeps. injection Hdeps as Hd _.
    unfold bind.
    rewrite (Hrefs (referencedFiles info)
               (map (fun r => (IFileReference.path r, rootDir, false)) l)
               st eq_refl);
      [reflexivity|].
    rewrite Hf. simpl. now rewrite Hd.
Qed.

(** An endless chain of calls: each call yields a file, the first of the
    calls for the dependencies of that file is the next call of the
    chain, and no two calls of the chain have the same key.  A call of
    the chain, made in a state in which no later key of the chain is
    visited, does not return, whatever the fuel. *)
Lemma resolveCode_endless (chain : nat -> Call) :
  (forall n, exists file rest,
     acquisition (chain n).1.1 (chain n).1.2 (chain n).2 = Some file /\
     dependencies file = chain (S n) :: rest) ->
  (forall n m, keyOf (chain n) = keyOf (chain m) -> n = m) ->
  forall fuel n (st : State),
    (forall m, n <= m -> isVisited st (keyOf (chain m)) = false) ->
    resolveCode fuel (chain n).1.1 (chain n).1.2 (chain n).2 st = None.
Proof.
  intros Hchain Hinj. induction fuel as [|fuel IH]; intros n st Hv;
    [reflexivity|].
  destruct (Hchain n) as (file & rest & Hacq & Hdeps).
  change (resolveCode (S fuel) (chain n).1.1 (chain n).1.2 (chain n).2 st)
    with (resolveCodeBody compilationSettings preProcessFile (resolveCode fuel)
            (chain n).1.1 (chain n).1.2 (chain n).2 st).
  rewrite (resolveCodeBody_acquired _ _ _ _ _ _ (Hv n (le_n n)) Hacq).
  unfold bind at 1. rewrite markVisited_eq. unfold bind at 1.
  rewrite (resolveDependencies_first_call _ _ _ _ _ Hdeps); [reflexivity|].
  intros st' Hst'. apply IH. intros m Hm.
  unfold isVisited. rewrite Hst'. simpl. rewrite lookup_insert_ne.
  - apply (Hv m). lia.
  - intros Heq. apply (Hinj n m) in Heq. lia.
Qed.

(** *** More fuel changes nothing *)

(** Whatever [m1] returns, [m2] returns as well. *)
Definition refines {A} (m1 m2 : M D A) : Prop :=
  forall st x, m1 st = Some x -> m2 st = Some x.

Lemma refines_refl {A} (m : M D A) : refines m m.
Proof. intros st x H; exact H. Qed.

Lemma refines_bind {A B} (m1 m2 : M D A) (f1 f2 : A -> M D B) :
  refines m1 m2 -> (forall a, refines (f1 a) (f2 a)) ->
  refines (bind m1 f1) (bind m2 f2).
Proof.
  intros Hm Hf st x. unfold bind.
  destruct (m1 st) as [[a st1]|] eqn:E; [|discriminate].
  rewrite (Hm _ _ E). apply Hf.
Qed.

Section Refinement.

Variables rc1 rc2 : string -> string -> bool -> M D bool.
Hypothesis rc_refines : forall r p s, refines (rc1 r p s) (rc2 r p s).

Lemma refines_resolveReferences resolvedFilePath rootDir refs :
  refines (resolveReferences rc1 resolvedFilePath rootDir refs)
          (resolveReferences rc2 resolvedFilePath rootDir refs).
Proof.
  induction refs as [|fileReference rest IH]; simpl; [apply refines_refl|].
  destruct (String.eqb resolvedFilePath _).
  - apply refines_bind; [apply refines_refl | intros _; exact IH].
  - apply refines_bind; [apply rc_refines|]. intros r.
    apply refines_bind; [apply refines_refl | intros _; exact IH].
Qed.

Lemma refines_resolveImports resolvedFilePath rootDir imports :
  refines (resolveImports rc1 resolvedFilePath rootDir imports)
          (resolveImports rc2 resolvedFilePath rootDir imports).
Proof.
  induction imports as [|fileImport rest IH]; simpl; [apply refines_refl|].
  apply refines_bind; [apply rc_refines|]. intros r.
  apply refines_bind; [apply refines_refl | intros _; exact IH].
Qed.

Lemma refines_resolveDependencies resolvedFile :
  refines
    (resolveDependencies compilationSettings preProcessFile rc1 resolvedFile)
    (resolveDependencies compilationSettings preProcessFile rc2 resolvedFile).
Proof.
  destruct resolvedFile as [[[content|] path]|]; simpl; try apply refines_refl.
  apply refines_bind; [apply refines_resolveReferences | intros _].
  apply refines_bind; [apply refines_resolveImports | intros _].
  apply refines_refl.
Qed.

Lemma refines_resolveCodeBody referencePath parentPath performSearch :
  refines
    (resolveCodeBody compilationSettings preProcessFile rc1
       referencePath parentPath performSearch)
    (resolveCodeBody compilationSettings preProcessFile rc2
       referencePath parentPath performSearch).
Proof.
  intros st x. unfold resolveCodeBody.
  destruct (isVisited st _); [auto|].
  destruct (readsDirectly referencePath performSearch).
  - apply refines_bind; [apply refines_refl|].
    intros [rf|]; [|apply refines_refl].
    apply refines_bind; [apply refines_refl | intros _].
    apply refines_bind; [apply refines_resolveDependencies | intros _].
    apply refines_refl.
  - apply refines_bind; [apply refines_refl|].
    intros [f|].
    + apply refines_bind; [apply refines_refl | intros _].
      apply refines_bind; [apply refines_resolveDependencies | intros _].
      apply refines_refl.
    + apply refines_refl.
Qed.

End Refinement.

(** What [resolveCode] returns with some fuel it returns with any more. *)
Lemma resolveCode_more_fuel fuel fuel' referencePath parentPath performSearch :
  fuel <= fuel' ->
  refines (resolveCode fuel referencePath parentPath performSearch)
          (resolveCode fuel' referencePath parentPath performSearch).
Proof.
  revert fuel' referencePath parentPath performSearch.
  induction fuel as [|fuel IH]; intros fuel' r p s Hle.
  - intros st x; discriminate.
  - destruct fuel' as [|fuel']; [lia|]. simpl.
    apply refines_resolveCodeBody. intros r' p' s'. apply IH. lia.
Qed.

(** *** What a call returns *)

Lemma afterAcquisition_returns_true rc k resolvedFile (st st' : State) r :
  (markVisited k ;;;
   resolveDependencies compilationSettings preProcessFile rc resolvedFile ;;;
   ret true) st = Some (r, st') ->
  r = true.
Proof.
  unfold bind. rewrite markVisited_eq.
  destruct (resolveDependencies _ _ _ _ _) as [[[] st1]|]; [|discriminate].
  now intros [= <- _].
Qed.

(** The direct strategy returns [true] exactly when a read succeeded. *)
Lemma direct_call_returns_acquisition fuel referencePath parentPath performSearch
    (st st' : State) r :
  isVisited st (absoluteModuleID referencePath parentPath performSearch) = false ->
  readsDirectly referencePath performSearch = true ->
  resolveCode (S fuel) referencePath parentPath performSearch st = Some (r, st') ->
  r = acquires referencePath parentPath performSearch.
Proof.
  intros Hv Hd Hrun. unfold acquires. rewrite Hd. simpl in Hrun.
  destruct (readResult (normalizePath referencePath parentPath performSearch))
    as [rf|] eqn:Hres.
  - rewrite (resolveCodeBody_direct_hit _ _ _ _ _ Hv rf Hd Hres) in Hrun.
    apply afterAcquisition_returns_true in Hrun. subst r.
    symmetry. apply bool_decide_eq_true. eauto.
  - rewrite (resolveCodeBody_direct_miss _ _ _ _ _ Hv Hd Hres) in Hrun.
    injection Hrun as <- _. symmetry. apply bool_decide_eq_false.
    intros [x Hx]. discriminate.
Qed.

(** The search strategy returns [true] whether or not a probe hit. *)
Lemma search_call_returns_true fuel referencePath parentPath performSearch
    (st st' : State) r :
  isVisited st (absoluteModuleID referencePath parentPath performSearch) = false ->
  readsDirectly referencePath performSearch = false ->
  resolveCode (S fuel) referencePath parentPath performSearch st = Some (r, st') ->
  r = true.
Proof.
  intros Hv Hd Hrun. simpl in Hrun.
  destruct (findResult parentPath
              (normalizePath referencePath parentPath performSearch))
    as [f|] eqn:Hres.
  - rewrite (resolveCodeBody_search_hit _ _ _ _ _ Hv f Hd Hres) in Hrun.
    now apply afterAcquisition_returns_true in Hrun.
  - rewrite (resolveCodeBody_search_miss _ _ _ _ _ Hv Hd Hres) in Hrun.
    now injection Hrun as <- _.
Qed.

(** *** Properties of single calls *)

(** The calls for the dependencies of a file that a call of a reference
    graph has acquired are calls of the graph. *)
Lemma closed_references graph referencePath parentPath performSearch
    path content r :
  closed graph -> (referencePath, parentPath, performSearch) ∈ graph ->
  acquisition referencePath parentPath performSearch
  = Some (IResolvedFile.mk (Some content) path) ->
  r ∈ referencedFiles
        (preProcessFile (SourceUnit.mk path (Some content) None)
           compilationSettings) ->
  isSelfReference (resolvePath path) (dirName path) r = false ->
  (IFileReference.path r, dirName path, false) ∈ graph.
Proof.
  intros Hclosed Hc Hacq Hr Hself.
  apply (Hclosed (referencePath, parentPath, performSearch) _ Hc Hacq).
  unfold dependencies. apply elem_of_app. left. apply list_elem_of_fmap.
  exists r. split; [reflexivity|]. apply list_elem_of_In, filter_In.
  split; [now apply list_elem_of_In | now rewrite Hself].
Qed.

Lemma closed_imports graph referencePath parentPath performSearch
    path content i :
  closed graph -> (referencePath, parentPath, performSearch) ∈ graph ->
  acquisition referencePath parentPath performSearch
  = Some (IResolvedFile.mk (Some content) path) ->
  i ∈ importedFiles
        (preProcessFile (SourceUnit.mk path (Some content) None)
           compilationSettings) ->
  (IFileReference.path i, dirName path, true) ∈ graph.
Proof.
  intros Hclosed Hc Hacq Hi.
  apply (Hclosed (referencePath, parentPath, performSearch) _ Hc Hacq).
  unfold dependencies. apply elem_of_app. right. apply list_elem_of_fmap.
  now exists i.
Qed.

(** Marking the key of a call of the graph leaves fewer keys. *)
Lemma remaining_marked graph (c : Call) (st : State) events fuel :
  c ∈ graph -> isVisited st (keyOf c) = false -> remaining graph st < S fuel ->
  remaining graph
    (mkState (<[keyOf c := true]> (visited st))
       ((trace st ++ events) ++ [Visit (keyOf c)]) (dispatched st)) < fuel.
Proof.
  intros Hc Hv Hlt.
  set (s0 := mkState _ _ _).
  assert (Hk : isVisited s0 (keyOf c) = true).
  { unfold s0. rewrite isVisited_insert.
    destruct (decide (keyOf c = keyOf c)); congruence. }
  assert (He : extends st s0).
  { intros k' H. unfold s0. rewrite isVisited_insert.
    destruct (decide (keyOf c = k')); [reflexivity | exact H]. }
  assert (Hin : keyOf c ∈ map keyOf graph)
    by (apply list_elem_of_fmap; now exists c).
  pose proof (remaining_visit graph st s0 (keyOf c) He Hin Hv Hk). lia.
Qed.

(** C4.  Resolving a key a second time adds nothing to what the first
    resolution did.  Within a reference graph, a call on a key that is
    not visited and for which the host yields a file returns [true]; what
    it has added to the trace are the host calls of its strategy, of which
    exactly one acquired a file, the marking of the key, what the
    resolution of the references and imports of the file caused, and last
    one [postResolution] call for the file.  For a file without references
    and imports this is all: one acquisition, one marking, one
    [postResolution] call, and the dispatcher has seen that one call.
    Every later call whose reference normalises to the same key returns
    [true] at once and leaves the state, and with it the trace of host
    calls and dispatcher calls and the dispatcher itself, exactly as it
    was; the same holds in every state in which the key is visited. *)
Theorem revisit_is_noop graph fuel fuel' referencePath parentPath performSearch
    referencePath' parentPath' performSearch' (st : State) path content :
  let k := absoluteModuleID referencePath parentPath performSearch in
  let info :=
    preProcessFile (SourceUnit.mk path (Some content) None) compilationSettings in
  let unit := SourceUnit.mk path (Some content) (Some (referencedFiles info)) in
  let events := acquisitionEvents referencePath parentPath performSearch in
  closed graph ->
  (referencePath, parentPath, performSearch) ∈ graph ->
  remaining graph st < S fuel ->
  isVisited st k = false ->
  acquisition referencePath parentPath performSearch
  = Some (IResolvedFile.mk (Some content) path) ->
  absoluteModuleID referencePath' parentPath' performSearch' = k ->
  (exists (st1 : State) (nested : list Event),
     resolveCode (S fuel) referencePath parentPath performSearch st
     = Some (true, st1) /\
     trace st1
     = trace st ++ events ++ Visit k :: nested ++ [PostResolution path unit] /\
     length (acquiredPaths events) = 1 /\
     visitKeys events = [] /\
     dispatchedPaths events = [] /\
     (referencedFiles info = [] -> importedFiles info = [] ->
      nested = [] /\
      dispatched st1 = postResolution path unit (dispatched st)) /\
     resolveCode (S fuel') referencePath' parentPath' performSearch' st1
     = Some (true, st1)) /\
  (forall st2 : State,
     isVisited st2 k = true ->
     resolveCode (S fuel') referencePath' parentPath' performSearch' st2
     = Some (true, st2)).
Proof.
  intros k info unit events Hclosed Hc Hlt Hv Hacq Hkey.
  assert (Hvisited : forall st2 : State,
            isVisited st2 k = true ->
            resolveCode (S fuel') referencePath' parentPath' performSearch' st2
            = Some (true, st2)).
  { intros st2 Hv2. simpl. apply resolveCodeBody_visited.
    unfold CodeResolver.absoluteModuleID in Hkey. rewrite Hkey. exact Hv2. }
  split; [|exact Hvisited].
  destruct (acquisitionEvents_hostCalls referencePath parentPath performSearch)
    as (Hvk & Hdp & _). fold events in Hvk, Hdp.
  assert (Hone : length (acquiredPaths events) = 1).
  { unfold events, acquisitionEvents. unfold acquisition in Hacq.
    destruct (readsDirectly referencePath performSearch).
    - rewrite acquired_readEvents. now rewrite Hacq.
    - rewrite acquired_findEvents. now destruct (findResult parentPath _). }
  assert (Hcall :
    resolveCode (S fuel) referencePath parentPath performSearch st
    = (markVisited k ;;;
       resolveDependencies compilationSettings preProcessFile (resolveCode fuel)
         (Some (IResolvedFile.mk (Some content) path)) ;;;
       ret true) (traced st events)).
  { change (resolveCode (S fuel) referencePath parentPath performSearch st)
      with (resolveCodeBody compilationSettings preProcessFile (resolveCode fuel)
              referencePath parentPath performSearch st).
    exact (resolveCodeBody_acquired _ _ _ _ _ _ Hv Hacq). }
  unfold bind at 1 in Hcall. rewrite markVisited_eq in Hcall.
  set (s0 := mkState (D:=D) (<[k := true]> (visited (traced st events)))
               (trace (traced st events) ++ [Visit k])
               (dispatched (traced st events))) in Hcall.
  assert (Hk0 : isVisited s0 k = true).
  { unfold s0. rewrite isVisited_insert.
    destruct (decide (k = k)); congruence. }
  destruct (referencedFiles info) as [|r refs] eqn:Hrefs;
    [destruct (importedFiles info) as [|i imports] eqn:Himps|].
  - exists (mkState (D:=D) (visited s0)
              (trace s0 ++ [PostResolution path unit])
              (postResolution path unit (dispatched s0))), [].
    assert (Hleaf : resolveDependencies compilationSettings preProcessFile
                      (resolveCode fuel)
                      (Some (IResolvedFile.mk (Some content) path)) s0
                    = callPostResolution path unit s0).
    { unfold unit. apply resolveDependencies_leaf; assumption. }
    split; [rewrite Hcall; unfold bind; rewrite Hleaf; reflexivity|].
    split; [unfold s0, traced; simpl; now rewrite <- !app_assoc|].
    repeat (split; [assumption|]).
    split; [intros _ _; split; reflexivity|].
    apply Hvisited. exact Hk0.
  - destruct (progress_resolveDependencies graph fuel (resolveCode fuel)
                (progress_resolveCode graph Hclosed fuel)
                (IResolvedFile.mk (Some content) path)
                (Hclosed _ _ Hc Hacq) s0) as ([] & s1 & E & He).
    { apply (remaining_marked graph (referencePath, parentPath, performSearch)
               st events fuel Hc Hv Hlt). }
    destruct (own_dispatch_is_last fuel path content s0 s1 E) as (nested & Ht).
    exists s1, nested.
    split; [rewrite Hcall; unfold bind; rewrite E; reflexivity|].
    split.
    { rewrite Ht. unfold s0, traced, unit; simpl. fold info.
      rewrite ?Hrefs. now rewrite <- !app_assoc. }
    repeat (split; [assumption|]).
    split; [intros _ H; discriminate|].
    apply Hvisited, He, Hk0.
  - destruct (progress_resolveDependencies graph fuel (resolveCode fuel)
                (progress_resolveCode graph Hclosed fuel)
                (IResolvedFile.mk (Some content) path)
                (Hclosed _ _ Hc Hacq) s0) as ([] & s1 & E & He).
    { apply (remaining_marked graph (referencePath, parentPath, performSearch)
               st events fuel Hc Hv Hlt). }
    destruct (own_dispatch_is_last fuel path content s0 s1 E) as (nested & Ht).
    exists s1, nested.
    split; [rewrite Hcall; unfold bind; rewrite E; reflexivity|].
    split.
    { rewrite Ht. unfold s0, traced, unit; simpl. fold info.
      rewrite ?Hrefs. now rewrite <- !app_assoc. }
    repeat (split; [assumption|]).
    split; [intros H; discriminate|].
    apply Hvisited, He, Hk0.
Qed.

(** C7.  When a call has acquired a file and one of the explicit
    references of that file resolves to the resolved path of the file
    itself, then what the call does is: mark the key, resolve the
    references before that one, call [postResolutionError] for that one
    with the self-reference message and without any call of
    [resolveCode] for it, resolve the references after it, resolve the
    imports, dispatch the unit and return [true].  Within a reference
    graph each of these steps returns: the references before it are
    resolved, the error is reported in the state they lead to, with no
    key marked and no host call made for it, the references after it and
    the imports are resolved from there, and the call returns [true] with
    the unit dispatched last. *)
Theorem self_reference_is_reported_and_skipped graph fuel referencePath parentPath
    performSearch (st : State) path content before fileReference after :
  let k := absoluteModuleID referencePath parentPath performSearch in
  let info :=
    preProcessFile (SourceUnit.mk path (Some content) None) compilationSettings in
  let rootDir := dirName path in
  let resolvedFilePath := resolvePath path in
  let unit := SourceUnit.mk path (Some content) (Some (referencedFiles info)) in
  let events := acquisitionEvents referencePath parentPath performSearch in
  let message := "Incorrect reference: File contains reference to itself." in
  let marked :=
    mkState (D:=D) (<[k := true]> (visited st))
      ((trace st ++ events) ++ [Visit k]) (dispatched st) in
  closed graph ->
  (referencePath, parentPath, performSearch) ∈ graph ->
  remaining graph st < S fuel ->
  isVisited st k = false ->
  acquisition referencePath parentPath performSearch
  = Some (IResolvedFile.mk (Some content) path) ->
  referencedFiles info = before ++ fileReference :: after ->
  isSelfReference resolvedFilePath rootDir fileReference = true ->
  resolveCode (S fuel) referencePath parentPath performSearch st
  = (markVisited k ;;;
     resolveReferences (resolveCode fuel) resolvedFilePath rootDir before ;;;
     callPostResolutionError resolvedFilePath fileReference message ;;;
     resolveReferences (resolveCode fuel) resolvedFilePath rootDir after ;;;
     resolveImports (resolveCode fuel) resolvedFilePath rootDir
       (importedFiles info) ;;;
     callPostResolution path unit ;;;
     ret true) (traced st events) /\
  exists s1 s2 : State,
    resolveReferences (resolveCode fuel) resolvedFilePath rootDir before marked
    = Some (tt, s1) /\
    (resolveReferences (resolveCode fuel) resolvedFilePath rootDir after ;;;
     resolveImports (resolveCode fuel) resolvedFilePath rootDir
       (importedFiles info))
      (mkState (visited s1)
         (trace s1 ++ [PostResolutionError resolvedFilePath fileReference message])
         (postResolutionError resolvedFilePath fileReference message
            (dispatched s1)))
    = Some (tt, s2) /\
    resolveCode (S fuel) referencePath parentPath performSearch st
    = Some (true,
            mkState (visited s2) (trace s2 ++ [PostResolution path unit])
              (postResolution path unit (dispatched s2))).
Proof.
  intros k info rootDir resolvedFilePath unit events message marked
    Hclosed Hc Hlt Hv Hacq Hrefs Hself.
  assert (Hcall :
    resolveCode (S fuel) referencePath parentPath performSearch st
    = (markVisited k ;;;
       resolveReferences (resolveCode fuel) resolvedFilePath rootDir before ;;;
       callPostResolutionError resolvedFilePath fileReference message ;;;
       resolveReferences (resolveCode fuel) resolvedFilePath rootDir after ;;;
       resolveImports (resolveCode fuel) resolvedFilePath rootDir
         (importedFiles info) ;;;
       callPostResolution path unit ;;;
       ret true) (traced st events)).
  { assert (Hcall0 :
      resolveCode (S fuel) referencePath parentPath performSearch st
      = (markVisited k ;;;
         resolveReferences (resolveCode fuel) resolvedFilePath rootDir
           (before ++ fileReference :: after) ;;;
         resolveImports (resolveCode fuel) resolvedFilePath rootDir
           (importedFiles info) ;;;
         callPostResolution path unit ;;;
         ret true) (traced st events)).
    { change (resolveCode (S fuel) referencePath parentPath performSearch st)
        with (resolveCodeBody compilationSettings preProcessFile
                (resolveCode fuel) referencePath parentPath performSearch st).
      rewrite (resolveCodeBody_acquired _ _ _ _ _ _ Hv Hacq).
      unfold resolveDependencies. fold info rootDir resolvedFilePath unit.
      rewrite Hrefs. unfold bind.
      destruct (markVisited _ _) as [[[] s1]|]; [|reflexivity].
      destruct (resolveReferences _ _ _ _ s1) as [[[] s2]|]; [|reflexivity].
      destruct (resolveImports _ _ _ _ s2) as [[[] s3]|]; reflexivity. }
    rewrite Hcall0. unfold bind. rewrite markVisited_eq.
    rewrite resolveReferences_app. unfold bind.
    destruct (resolveReferences _ _ _ before _) as [[[] s1]|]; [|reflexivity].
    cbn [resolveReferences]. unfold isSelfReference in Hself.
    rewrite Hself. apply String.eqb_eq in Hself.
    rewrite <- Hself. unfold bind. reflexivity. }
  split; [exact Hcall|].
  assert (Hin : forall r, r ∈ before ++ fileReference :: after ->
                  isSelfReference resolvedFilePath rootDir r = false ->
                  (IFileReference.path r, rootDir, false) ∈ graph).
  { intros r Hr Hnot. rewrite <- Hrefs in Hr.
    exact (closed_references graph _ _ _ _ _ r Hclosed Hc Hacq Hr Hnot). }
  assert (Hmarked : remaining graph marked < fuel)
    by exact (remaining_marked graph (referencePath, parentPath, performSearch)
                st events fuel Hc Hv Hlt).
  destruct (progress_resolveReferences graph fuel (resolveCode fuel)
              (progress_resolveCode graph Hclosed fuel)
              resolvedFilePath rootDir before
              (fun r Hr => Hin r (proj2 (elem_of_app _ _ _) (or_introl Hr)))
              marked Hmarked) as ([] & s1 & E1 & He1).
  set (s1' := mkState (D:=D) (visited s1)
                (trace s1 ++ [PostResolutionError resolvedFilePath fileReference
                                message])
                (postResolutionError resolvedFilePath fileReference message
                   (dispatched s1))).
  assert (Hs1' : remaining graph s1' < fuel).
  { pose proof (remaining_extends graph marked s1 He1).
    change (remaining graph s1') with (remaining graph s1). lia. }
  destruct (progress_bind graph fuel
              (resolveReferences (resolveCode fuel) resolvedFilePath rootDir after)
              (fun _ => resolveImports (resolveCode fuel) resolvedFilePath rootDir
                          (importedFiles info))
              (progress_resolveReferences graph fuel (resolveCode fuel)
                 (progress_resolveCode graph Hclosed fuel)
                 resolvedFilePath rootDir after
                 (fun r Hr =>
                    Hin r (proj2 (elem_of_app _ _ _)
                             (or_intror (proj2 (elem_of_cons _ _ _)
                                           (or_intror Hr))))))
              (fun _ =>
                 progress_resolveImports graph fuel (resolveCode fuel)
                   (progress_resolveCode graph Hclosed fuel)
                   resolvedFilePath rootDir (importedFiles info)
                   (fun i Hi =>
                      closed_imports graph _ _ _ _ _ i Hclosed Hc Hacq Hi))
              s1' Hs1') as ([] & s2 & E2 & He2).
  exists s1, s2. split; [exact E1|]. split; [exact E2|].
  rewrite Hcall. unfold bind at 1. rewrite markVisited_eq.
  change (mkState (<[k:=true]> (visited (traced st events)))
            (trace (traced st events) ++ [Visit k])
            (dispatched (traced st events))) with marked.
  unfold bind at 1. rewrite E1. unfold bind at 1.
  change (callPostResolutionError resolvedFilePath fileReference message s1)
    with (Some (tt, s1')).
  cbv beta iota.
  unfold bind at 1 in E2.
  unfold bind at 1.
  destruct (resolveReferences _ _ _ after s1') as [[[] s1'']|]; [|discriminate].
  unfold bind at 1. rewrite E2. reflexivity.
Qed.

(** C9.  When all four read attempts of the direct strategy fail, the call
    returns [false] having only made those attempts: the visited object
    and the dispatcher are as before, no key is marked and nothing is
    dispatched.  A later call for the same reference finds no cached
    failure and makes the same four attempts again. *)
Theorem failed_read_is_not_cached fuel fuel' referencePath parentPath
    performSearch (st : State) :
  let n := normalizePath referencePath parentPath performSearch in
  let p2 := swapSourceSuffix n in
  let p3 := changePathToDSTR p2 in
  let p4 := changePathToDTS p3 in
  let failures :=
    [ReadFile n false; ReadFile p2 false; ReadFile p3 false; ReadFile p4 false] in
  isVisited st (caseFold n) = false ->
  readsDirectly referencePath performSearch = true ->
  readFile n = None -> readFile p2 = None ->
  readFile p3 = None -> readFile p4 = None ->
  resolveCode (S fuel) referencePath parentPath performSearch st
  = Some (false, mkState (visited st) (trace st ++ failures) (dispatched st)) /\
  resolveCode (S fuel') referencePath parentPath performSearch
    (mkState (visited st) (trace st ++ failures) (dispatched st))
  = Some (false, mkState (visited st) ((trace st ++ failures) ++ failures)
                   (dispatched st)).
Proof.
  intros n p2 p3 p4 failures Hv Hd H1 H2 H3 H4.
  assert (Hres : readResult n = None).
  { unfold readResult, directCandidates. cbn [firstHit].
    fold p2 p3 p4. now rewrite H1, H2, H3, H4. }
  assert (Hev : readEvents n = failures).
  { unfold readEvents, directCandidates. cbn [attempts].
    fold p2 p3 p4. now rewrite H1, H2, H3, H4. }
  split; simpl.
  - rewrite (resolveCodeBody_direct_miss _ _ _ _ _ Hv Hd Hres).
    fold n. rewrite Hev. reflexivity.
  - rewrite (resolveCodeBody_direct_miss _ _ _ _
               (mkState (visited st) (trace st ++ failures) (dispatched st))
               Hv Hd Hres).
    fold n. rewrite Hev. reflexivity.
Qed.

(** C10.  The key is taken from the normalised path before the fallback
    runs.  When the content is found only under a fallback path [p], the
    unit is dispatched with path [p] while the key that is marked is the
    one of the path as written; a later reference that names [p] itself
    has another key, is not recognised as visited, reads [p] again and
    has [postResolution] called a second time for it.  (The unit is taken
    to have no references of its own, so that the two traces can be
    written out in full.) *)
Theorem fallback_path_is_resolved_again fuel fuel' referencePath parentPath
    performSearch referencePath' parentPath' performSearch' (st : State)
    p content :
  let n := normalizePath referencePath parentPath performSearch in
  let unit := SourceUnit.mk p (Some content) (Some []) in
  isVisited st (caseFold n) = false ->
  readsDirectly referencePath performSearch = true ->
  readFile n = None ->
  firstHit readFile (directCandidates n) = Some (p, content) ->
  referencedFiles
    (preProcessFile (SourceUnit.mk p (Some content) None) compilationSettings)
  = [] ->
  importedFiles
    (preProcessFile (SourceUnit.mk p (Some content) None) compilationSettings)
  = [] ->
  readsDirectly referencePath' performSearch' = true ->
  normalizePath referencePath' parentPath' performSearch' = p ->
  isVisited st (caseFold p) = false ->
  caseFold p <> caseFold n ->
  exists st1 st2 : State,
    resolveCode (S fuel) referencePath parentPath performSearch st
    = Some (true, st1) /\
    trace st1
    = trace st ++ readEvents n ++ [Visit (caseFold n); PostResolution p unit] /\
    isVisited st1 (caseFold n) = true /\
    isVisited st1 (caseFold p) = false /\
    resolveCode (S fuel') referencePath' parentPath' performSearch' st1
    = Some (true, st2) /\
    trace st2
    = trace st1 ++ [ReadFile p true; Visit (caseFold p); PostResolution p unit].
Proof.
  intros n unit Hv Hd Hn Hhit Hrefs Himps Hd' Hn' Hvp Hne.
  assert (Hp : readFile p = Some content) by (eapply firstHit_probe; eauto).
  assert (Hres : readResult n = Some (IResolvedFile.mk (Some content) p)).
  { unfold readResult. now rewrite Hhit. }
  set (st1 := mkState (D:=D) (<[caseFold n := true]> (visited st))
                (((trace st ++ readEvents n) ++ [Visit (caseFold n)]) ++
                 [PostResolution p unit])
                (postResolution p unit (dispatched st))).
  set (st2 := mkState (D:=D) (<[caseFold p := true]> (visited st1))
                (((trace st1 ++ [ReadFile p true]) ++ [Visit (caseFold p)]) ++
                 [PostResolution p unit])
                (postResolution p unit (dispatched st1))).
  assert (Hvp1 : isVisited st1 (caseFold p) = false).
  { unfold st1. rewrite isVisited_insert.
    destruct (decide (caseFold n = caseFold p)); [congruence | exact Hvp]. }
  exists st1, st2. repeat split.
  - simpl. rewrite (resolveCodeBody_direct_hit _ _ _ _ _ Hv _ Hd Hres).
    unfold bind. rewrite markVisited_eq.
    rewrite resolveDependencies_leaf by assumption. reflexivity.
  - unfold st1; simpl. now rewrite <- !app_assoc.
  - unfold st1. rewrite isVisited_insert.
    destruct (decide (caseFold n = caseFold n)); congruence.
  - exact Hvp1.
  - assert (Hres' : readResult p = Some (IResolvedFile.mk (Some content) p)).
    { unfold readResult, directCandidates. cbn [firstHit]. now rewrite Hp. }
    assert (Hev' : readEvents p = [ReadFile p true]).
    { unfold readEvents, directCandidates. cbn [attempts]. now rewrite Hp. }
    simpl. rewrite <- Hn' in Hvp1.
    rewrite (resolveCodeBody_direct_hit _ _ _ _ _ Hvp1 _ Hd'
               ltac:(rewrite Hn'; exact Hres')).
    rewrite Hn', Hev'. unfold bind. rewrite markVisited_eq.
    rewrite resolveDependencies_leaf by assumption. reflexivity.
  - unfold st2; simpl. now rewrite <- !app_assoc.
Qed.

End Facts.
End ResolverFacts.

(** ** General facts about a resolution pass *)

Module PassFacts.
Import CodeResolver CodeResolver.Notations ResolverFacts.
Section Facts.

Context {pathUtils : PathUtils} {ioHost : IFileSystemObject} {runtime : Js.Runtime}.
Context (preProcessFile : SourceUnit.t -> CompilationSettings -> IPreProcessedFileInfo).
Context (compilationSettings : CompilationSettings).

#[local] Abbreviation Resolution := CommandLineHost.Resolution.
#[local] Abbreviation resolveEntries :=
  (CommandLineHost.resolveEntries preProcessFile compilationSettings).

(** The call that the loop over the entry units makes for a unit. *)
Definition entryCall (unit : SourceUnit.t) : Call :=
  (switchToForwardSlashes (resolvePath (SourceUnit.path unit)), EmptyString, false).

Lemma sound_resolveEntries fuel entries pathMap :
  sound (resolveEntries fuel entries pathMap).
Proof.
  revert pathMap. induction entries as [|unit rest IH]; intros pathMap; simpl.
  - apply sound_ret.
  - apply sound_bind; [apply sound_resolveCode | intros _; apply IH].
Qed.

Lemma refines_resolveEntries fuel fuel' entries pathMap :
  fuel <= fuel' ->
  refines (resolveEntries fuel entries pathMap)
          (resolveEntries fuel' entries pathMap).
Proof.
  intros Hle. revert pathMap.
  induction entries as [|unit rest IH]; intros pathMap; simpl.
  - apply refines_refl.
  - apply refines_bind; [now apply resolveCode_more_fuel | intros _; apply IH].
Qed.

Lemma progress_resolveEntries graph fuel entries pathMap :
  closed compilationSettings preProcessFile graph ->
  (forall unit, unit ∈ entries -> entryCall unit ∈ graph) ->
  progress compilationSettings graph fuel (resolveEntries fuel entries pathMap).
Proof.
  intros Hclosed. revert pathMap.
  induction entries as [|unit rest IH]; intros pathMap Hin; simpl.
  - apply progress_ret.
  - apply progress_bind.
    + apply (progress_resolveCode compilationSettings preProcessFile graph
               Hclosed fuel (entryCall unit)).
      apply Hin. apply elem_of_cons. now left.
    + intros _. apply IH. intros u Hu. apply Hin. apply elem_of_cons. now right.
Qed.

(** When the calls for the entry units lie in a reference graph, a pass
    run with more fuel than the graph has calls returns; it has marked no
    key twice, it has acquired as many files from the host as it has
    marked keys, and with any more fuel it returns the same. *)
Lemma pass_returns graph fuel preEnv visited0 resolvedPaths0 pathMap0 :
  closed compilationSettings preProcessFile graph ->
  (forall unit, unit ∈ CompilationEnvironment.code preEnv ->
                entryCall unit ∈ graph) ->
  length graph < fuel ->
  exists env pathMap st,
    CommandLineHost.resolveCompilationEnvironment preProcessFile
      compilationSettings fuel preEnv visited0 resolvedPaths0 pathMap0
    = Some (env, pathMap, st) /\
    NoDup (visitKeys (trace st)) /\
    length (acquiredPaths (trace st)) = length (visitKeys (trace st)) /\
    forall fuel', fuel <= fuel' ->
      CommandLineHost.resolveCompilationEnvironment preProcessFile
        compilationSettings fuel' preEnv visited0 resolvedPaths0 pathMap0
      = Some (env, pathMap, st).
Proof.
  intros Hclosed Hentries Hlt.
  unfold CommandLineHost.resolveCompilationEnvironment.
  set (start := mkState visited0 [] _).
  destruct (progress_resolveEntries graph fuel
              (CompilationEnvironment.code preEnv) pathMap0 Hclosed Hentries start)
    as (pathMap & st & E & _).
  { pose proof (remaining_le_graph compilationSettings graph start). lia. }
  rewrite E. eexists _, _, _. split; [reflexivity|].
  destruct (sound_resolveEntries _ _ _ _ _ _ E) as (_ & (rest & Ht & Hbal) & Hc).
  split; [apply Hc; split; [apply NoDup_nil_2 | intros k Hk; inversion Hk]|].
  split; [rewrite Ht; exact Hbal|].
  intros fuel' Hle.
  now rewrite (refines_resolveEntries fuel fuel' _ _ Hle _ _ E).
Qed.

End Facts.
End PassFacts.

(** ** A cycle through respelled paths

    The files [a.ts] and [b.ts] of the directory [/proj] refer to each
    other by paths that lead through the directory [sub] and back, on a
    file system that reads a file under every spelling of its path.  The
    resolver takes each reference relative to the directory part of the
    path under which it read the referring file, and so meets the two
    files under ever longer spellings, each with a key of its own. *)

Module Respelling.
Import CodeResolver ResolverFacts.

Definition settings : CompilationSettings := Build_CompilationSettings false.

Definition aText : string := "///<reference path='sub/../b.ts'/>".
Definition bText : string := "///<reference path='sub/../a.ts'/>".

Definition files : TableHost.FileTable :=
  [("/proj/a.ts", aText); ("/proj/b.ts", bText); ("/proj/sub/c.ts", "var c;")].

Definition table : TableHost.PreProcessTable :=
  [(aText, Build_IPreProcessedFileInfo
             [IFileReference.mk "sub/../b.ts" 1 0 false] []);
   (bText, Build_IPreProcessedFileInfo
             [IFileReference.mk "sub/../a.ts" 1 0 false] [])].

#[local] Instance pathUtils : PathUtils := PathModel.pathUtils.
#[local] Instance ioHost : IFileSystemObject := TableHost.canonicalHost "/proj" files.

Definition name (first : bool) : string := if first then "a.ts" else "b.ts".
Definition text (first : bool) : string := if first then aText else bText.

Fixpoint hops (n : nat) : string :=
  match n with
  | O => EmptyString
  | S n => "/sub/.." +:+ hops n
  end.

Fixpoint hopSegments (n : nat) : list string :=
  match n with
  | O => []
  | S n => "sub" :: ".." :: hopSegments n
  end.

Definition spelling (n : nat) (first : bool) : string :=
  "/proj" +:+ hops n +:+ "/" +:+ name first.

Definition chain (n : nat) : Call :=
  match n with
  | O => ("/proj/a.ts", EmptyString, false)
  | S m => ("sub/../" +:+ name (Nat.even n), "/proj" +:+ hops m, false)
  end.

Lemma append_cons x (a b : string) : String x a +:+ b = String x (a +:+ b).
Proof. reflexivity. Qed.

Lemma append_assoc (a b c : string) : (a +:+ b) +:+ c = a +:+ (b +:+ c).
Proof.
  induction a as [|x a IH]; [reflexivity|]. now rewrite !append_cons, IH.
Qed.

Lemma append_nil_r (a : string) : a +:+ EmptyString = a.
Proof.
  induction a as [|x a IH]; [reflexivity|]. now rewrite append_cons, IH.
Qed.

Lemma length_append (a b : string) :
  String.length (a +:+ b) = String.length a + String.length b.
Proof.
  induction a as [|x a IH]; [reflexivity|]. rewrite append_cons. simpl.
  now rewrite IH.
Qed.

Lemma hops_shift n : hops n +:+ "/sub/.." = "/sub/.." +:+ hops n.
Proof.
  induction n as [|n IH]; [reflexivity|].
  change (hops (S n)) with ("/sub/.." +:+ hops n).
  now rewrite append_assoc, IH.
Qed.

Lemma length_hops n : String.length (hops n) = 7 * n.
Proof.
  induction n as [|n IH]; [reflexivity|].
  change (hops (S n)) with ("/sub/.." +:+ hops n).
  rewrite length_append, IH. simpl. lia.
Qed.

(** The path that a reference from the directory of a spelling has is the
    next spelling. *)
Lemma spelling_next n first :
  ("/proj" +:+ hops n) +:+ "/" +:+ ("sub/../" +:+ name first)
  = spelling (S n) first.
Proof.
  unfold spelling. change (hops (S n)) with ("/sub/.." +:+ hops n).
  rewrite <- hops_shift. rewrite !append_assoc. reflexivity.
Qed.

Lemma segmentsFrom_hops n current rest :
  TableHost.segmentsFrom current (hops n +:+ String "/" rest)
  = String.rev current :: hopSegments n ++ TableHost.segmentsFrom EmptyString rest.
Proof.
  revert current. induction n as [|n IH]; intros current; [reflexivity|].
  change (hops (S n)) with ("/sub/.." +:+ hops n).
  rewrite append_assoc, !append_cons.
  change (EmptyString +:+ (hops n +:+ String "/" rest))
    with (hops n +:+ String "/" rest).
  simpl TableHost.segmentsFrom. rewrite IH. reflexivity.
Qed.

Lemma collapse_hops n done rest :
  TableHost.collapse done (hopSegments n ++ rest) = TableHost.collapse done rest.
Proof. induction n as [|n IH]; [reflexivity | exact IH]. Qed.

Lemma joinSegments_hops n s :
  TableHost.joinSegments (s :: hopSegments n) = s +:+ hops n.
Proof.
  revert s. induction n as [|n IH]; intros s; simpl hopSegments.
  - simpl. now rewrite append_nil_r.
  - change (TableHost.joinSegments (s :: "sub" :: ".." :: hopSegments n))
      with (s +:+ "/" +:+ "sub" +:+ "/" +:+ TableHost.joinSegments (".." :: hopSegments n)).
    rewrite IH. reflexivity.
Qed.

Lemma segments_spelling n first :
  TableHost.segments (spelling n first)
  = EmptyString :: "proj" :: hopSegments n ++ [name first].
Proof.
  unfold TableHost.segments, spelling.
  change ("/" +:+ name first) with (String "/" (name first)).
  rewrite !append_cons.
  change (EmptyString +:+ (hops n +:+ String "/" (name first)))
    with (hops n +:+ String "/" (name first)).
  simpl TableHost.segmentsFrom. rewrite segmentsFrom_hops.
  destruct first; reflexivity.
Qed.

Lemma resolvePath_spelling n first :
  TableHost.resolvePath "/proj" (spelling n first) = "/proj/" +:+ name first.
Proof.
  unfold TableHost.resolvePath.
  change (PathModel.isRooted (spelling n first)) with true. cbv iota.
  rewrite segments_spelling.
  change (TableHost.collapse [] (EmptyString :: "proj" :: hopSegments n ++ [name first]))
    with (TableHost.collapse ["proj"; EmptyString] (hopSegments n ++ [name first])).
  rewrite collapse_hops. destruct first; reflexivity.
Qed.

Lemma dirName_spelling n first :
  TableHost.dirName (spelling n first) = "/proj" +:+ hops n.
Proof.
  unfold TableHost.dirName. rewrite segments_spelling.
  change (EmptyString :: "proj" :: hopSegments n ++ [name first])
    with ((EmptyString :: "proj" :: hopSegments n) ++ [name first]).
  rewrite removelast_last.
  change (TableHost.joinSegments (EmptyString :: "proj" :: hopSegments n))
    with ("/" +:+ TableHost.joinSegments ("proj" :: hopSegments n)).
  now rewrite joinSegments_hops.
Qed.

Lemma substring_skip p k m s :
  substring (String.length p + k) m (p +:+ s) = substring k m s.
Proof. induction p as [|x p IH]; [reflexivity | exact IH]. Qed.

Lemma hasSuffix_append suffix p s :
  String.length suffix < String.length s ->
  PathModel.hasSuffix suffix (p +:+ s) = PathModel.hasSuffix suffix s.
Proof.
  intros Hlt. unfold PathModel.hasSuffix. rewrite length_append.
  replace (String.length p + String.length s - String.length suffix)
    with (String.length p + (String.length s - String.length suffix)) by lia.
  rewrite substring_skip. f_equal.
  destruct (Nat.ltb_spec (String.length suffix) (String.length s)); [|lia].
  apply Nat.ltb_lt. lia.
Qed.

Lemma spelling_split n first :
  spelling n first = ("/proj" +:+ hops n) +:+ ("/" +:+ name first).
Proof. unfold spelling. now rewrite !append_assoc. Qed.

Lemma isTSFile_spelling n first : PathModel.isTSFile (spelling n first) = true.
Proof.
  rewrite spelling_split. unfold PathModel.isTSFile.
  rewrite hasSuffix_append by (destruct first; simpl; lia).
  destruct first; reflexivity.
Qed.

Lemma isSTRFile_spelling n first : PathModel.isSTRFile (spelling n first) = false.
Proof.
  rewrite spelling_split. unfold PathModel.isSTRFile.
  rewrite hasSuffix_append by (destruct first; simpl; lia).
  destruct first; reflexivity.
Qed.

Lemma rev_app_append s1 s2 acc :
  String.rev_app (s1 +:+ s2) acc = String.rev_app s2 (String.rev_app s1 acc).
Proof.
  revert acc. induction s1 as [|x s1 IH]; intros acc; [reflexivity|].
  rewrite append_cons. simpl. apply IH.
Qed.

Lemma rev_app_rev_app s a b :
  String.rev_app (String.rev_app s a) b = String.rev_app a (s +:+ b).
Proof.
  revert a. induction s as [|x s IH]; intros a; [reflexivity|].
  simpl. rewrite IH. reflexivity.
Qed.

(** A string that neither starts nor ends with a quote character is left
    as it is. *)
Lemma stripQuotes_plain q c :
  PathModel.isQuoteChar c = false ->
  PathModel.stripLeadingQuote (q +:+ String c EmptyString)
  = q +:+ String c EmptyString ->
  PathModel.stripQuotes (q +:+ String c EmptyString) = q +:+ String c EmptyString.
Proof.
  intros Hc Hhead. unfold PathModel.stripQuotes. rewrite Hhead.
  unfold String.rev at 2. rewrite rev_app_append. simpl String.rev_app at 1.
  unfold PathModel.stripLeadingQuote at 1. rewrite Hc.
  unfold String.rev.
  change (String.rev_app (String c (String.rev_app q EmptyString)) EmptyString)
    with (String.rev_app (String.rev_app q EmptyString) (String c EmptyString)).
  now rewrite rev_app_rev_app.
Qed.

Lemma stripQuotes_spelling n first :
  PathModel.stripQuotes (spelling n first) = spelling n first.
Proof.
  assert (H : spelling n first
              = ("/proj" +:+ hops n +:+ "/" +:+ (if first then "a.t" else "b.t"))
                +:+ String "s" EmptyString).
  { unfold spelling. rewrite !append_assoc. destruct first; reflexivity. }
  rewrite H. apply stripQuotes_plain; reflexivity.
Qed.

Lemma switchToForwardSlashes_append a b :
  PathModel.switchToForwardSlashes (a +:+ b)
  = PathModel.switchToForwardSlashes a +:+ PathModel.switchToForwardSlashes b.
Proof.
  induction a as [|x a IH]; [reflexivity|]. rewrite append_cons. simpl.
  now rewrite IH.
Qed.

Lemma switchToForwardSlashes_hops n :
  PathModel.switchToForwardSlashes (hops n) = hops n.
Proof.
  induction n as [|n IH]; [reflexivity|].
  change (hops (S n)) with ("/sub/.." +:+ hops n).
  now rewrite switchToForwardSlashes_append, IH.
Qed.

Lemma switchToForwardSlashes_spelling n first :
  PathModel.switchToForwardSlashes (spelling n first) = spelling n first.
Proof.
  unfold spelling.
  rewrite !switchToForwardSlashes_append, switchToForwardSlashes_hops.
  destruct first; reflexivity.
Qed.

Lemma length_toLocaleUpperCase s :
  String.length (PathModel.toLocaleUpperCase s) = String.length s.
Proof. induction s as [|x s IH]; [reflexivity|]. simpl. now rewrite IH. Qed.

Lemma length_spelling n first : String.length (spelling n first) = 7 * n + 10.
Proof.
  unfold spelling. rewrite !length_append, length_hops.
  destruct first; simpl; lia.
Qed.

Lemma normalizePath_chain n :
  normalizePath (chain n).1.1 (chain n).1.2 (chain n).2 = spelling n (Nat.even n).
Proof.
  destruct n as [|n]; [reflexivity|].
  unfold chain, normalizePath, initialPath, isRootedPath.
  cbn [fst snd].
  assert (Href : forall first,
            isRelative ("sub/../" +:+ name first) = false /\
            isRooted ("sub/../" +:+ name first) = false)
    by (intros [|]; split; reflexivity).
  destruct (Href (Nat.even (S n))) as [-> ->].
  change (String.eqb ("/proj" +:+ hops n) EmptyString) with false.
  cbn [orb]. rewrite spelling_next.
  change (isSTRFile (spelling (S n) (Nat.even (S n))))
    with (PathModel.isSTRFile (spelling (S n) (Nat.even (S n)))).
  change (isTSFile (spelling (S n) (Nat.even (S n))))
    with (PathModel.isTSFile (spelling (S n) (Nat.even (S n)))).
  rewrite isSTRFile_spelling, isTSFile_spelling. cbn [negb andb].
  change (stripQuotes (spelling (S n) (Nat.even (S n))))
    with (PathModel.stripQuotes (spelling (S n) (Nat.even (S n)))).
  rewrite stripQuotes_spelling.
  apply switchToForwardSlashes_spelling.
Qed.

Lemma readsDirectly_chain n :
  readsDirectly (chain n).1.1 (chain n).2 = true.
Proof.
  destruct n as [|n]; [reflexivity|]. unfold readsDirectly. cbn [chain fst snd].
  now rewrite orb_true_r.
Qed.

Lemma readResult_spelling n first :
  readResult (spelling n first)
  = Some (IResolvedFile.mk (Some (text first)) (spelling n first)).
Proof.
  unfold readResult, directCandidates. cbn [firstHit].
  change (readFile (spelling n first))
    with (TableHost.lookupFile files
            (TableHost.resolvePath "/proj" (spelling n first))).
  rewrite resolvePath_spelling. destruct first; reflexivity.
Qed.

Lemma acquisition_chain n :
  acquisition (chain n).1.1 (chain n).1.2 (chain n).2
  = Some (IResolvedFile.mk (Some (text (Nat.even n))) (spelling n (Nat.even n))).
Proof.
  unfold acquisition.
  rewrite readsDirectly_chain, normalizePath_chain. apply readResult_spelling.
Qed.

Lemma dependencies_spelling n :
  dependencies settings (TableHost.preProcessFile table)
    (IResolvedFile.mk (Some (text (Nat.even n))) (spelling n (Nat.even n)))
  = [chain (S n)].
Proof.
  unfold dependencies.
  change (dirName (spelling n (Nat.even n)))
    with (TableHost.dirName (spelling n (Nat.even n))).
  rewrite dirName_spelling.
  assert (Hinfo :
    TableHost.preProcessFile table
      (SourceUnit.mk (spelling n (Nat.even n)) (Some (text (Nat.even n))) None)
      settings
    = Build_IPreProcessedFileInfo
        [IFileReference.mk ("sub/../" +:+ name (negb (Nat.even n))) 1 0 false] [])
    by (destruct (Nat.even n); reflexivity).
  rewrite Hinfo. cbn [referencedFiles importedFiles map app List.filter].
  assert (Hself :
    isSelfReference (resolvePath (spelling n (Nat.even n))) ("/proj" +:+ hops n)
      (IFileReference.mk ("sub/../" +:+ name (negb (Nat.even n))) 1 0 false)
    = false).
  { unfold isSelfReference. cbn [IFileReference.path].
    assert (Hr : isRooted ("sub/../" +:+ name (negb (Nat.even n))) = false)
      by (destruct (Nat.even n); reflexivity).
    rewrite Hr, spelling_next.
    change (resolvePath (spelling n (Nat.even n)))
      with (TableHost.resolvePath "/proj" (spelling n (Nat.even n))).
    change (resolvePath (spelling (S n) (negb (Nat.even n))))
      with (TableHost.resolvePath "/proj" (spelling (S n) (negb (Nat.even n)))).
    rewrite !resolvePath_spelling. destruct (Nat.even n); reflexivity. }
  rewrite Hself. cbn [negb map app IFileReference.path].
  unfold chain. now rewrite Nat.even_succ, <- Nat.negb_even.
Qed.

Lemma keyOf_chain n :
  keyOf settings (chain n) = PathModel.toLocaleUpperCase (spelling n (Nat.even n)).
Proof.
  unfold keyOf, absoluteModuleID. now rewrite normalizePath_chain.
Qed.

Lemma keyOf_chain_inj n m :
  keyOf settings (chain n) = keyOf settings (chain m) -> n = m.
Proof.
  rewrite !keyOf_chain. intros H. apply (f_equal String.length) in H.
  rewrite !length_toLocaleUpperCase, !length_spelling in H. lia.
Qed.

(** The pass from [a.ts] does not return, whatever the fuel. *)
Lemma pass_never_returns fuel :
  CommandLineHost.resolveCompilationEnvironment
    (runtime := RuntimeModel.runtime)
    (TableHost.preProcessFile table) settings fuel
    (CompilationEnvironment.mk settings [SourceUnit.mk "a.ts" None None])
    ∅ ∅ ∅
  = None.
Proof.
  unfold CommandLineHost.resolveCompilationEnvironment.
  cbn [CompilationEnvironment.code CommandLineHost.resolveEntries SourceUnit.path].
  unfold bind.
  change (switchToForwardSlashes (resolvePath "a.ts")) with "/proj/a.ts".
  rewrite (resolveCode_endless settings (TableHost.preProcessFile table) chain
             (fun n => ex_intro _ _ (ex_intro _ _
                         (conj (acquisition_chain n) (dependencies_spelling n))))
             keyOf_chain_inj fuel 0);
    [reflexivity|].
  intros m _. reflexivity.
Qed.

End Respelling.

(** ** Scenarios

    Passes and single calls run on the table-driven host, with the working
    directory [/proj], the path helpers of [PathModel] and the default
    setting (paths are compared without regard to case). *)

Module Scenarios.
Import CodeResolver CodeResolver.Notations ResolverFacts.

Definition settings : CompilationSettings := Build_CompilationSettings false.

#[local] Instance dispatcher : IResolutionDispatcher CommandLineHost.Resolution :=
  CommandLineHost.resolutionDispatcher (pathUtils := PathModel.pathUtils) settings.

(** A reference to [path] found at the given position. *)
Definition referenceAt (path : string) (line character : N) : IFileReference.t :=
  IFileReference.mk path line character false.

(** The state a fresh resolver and a fresh host start a pass in. *)
Definition start : State CommandLineHost.Resolution :=
  mkState ∅ [] (CommandLineHost.mkResolution ∅ [] []).

(** One pass over the entry files named on the command line. *)
Definition pass (files : TableHost.FileTable) (table : TableHost.PreProcessTable)
    (entries : list string) (fuel : nat) :=
  CommandLineHost.resolveCompilationEnvironment
    (pathUtils := PathModel.pathUtils) (ioHost := TableHost.ioHost "/proj" files)
    (runtime := RuntimeModel.runtime)
    (TableHost.preProcessFile table) settings fuel
    (CompilationEnvironment.mk settings
       (map (fun p => SourceUnit.mk p None None) entries))
    ∅ ∅ ∅.

(** One call of [resolveCode]. *)
Definition call (files : TableHost.FileTable) (table : TableHost.PreProcessTable)
    (fuel : nat) (referencePath parentPath : string) (performSearch : bool) :=
  resolveCode (pathUtils := PathModel.pathUtils)
    (ioHost := TableHost.ioHost "/proj" files)
    settings (TableHost.preProcessFile table) fuel
    referencePath parentPath performSearch.

(** *** The end-to-end scenario *)

Definition mainText : string :=
  "///<reference path='util.ts'/> import lib = module('lib');".
Definition utilText : string := "var u = 1;".
Definition libText : string := "import core = module('core');".
Definition coreText : string := "export var c = 1;".

Definition projectFiles : TableHost.FileTable :=
  [("/proj/main.ts", mainText); ("/proj/util.ts", utilText);
   ("/proj/lib.ts", libText); ("/proj/core.ts", coreText)].

Definition projectTable : TableHost.PreProcessTable :=
  [(mainText, Build_IPreProcessedFileInfo
                [referenceAt "util.ts" 1 0] [referenceAt "lib" 1 31]);
   (libText, Build_IPreProcessedFileInfo [] [referenceAt "core" 1 0])].

(** C1.  Entry file [main] has an explicit directive to [util] and an
    import of [lib]; [util] has no references; [lib] imports [core].
    With fuel for the three levels of the graph, and with any more, the
    pass returns; [postResolution] is called for [util], [core], [lib],
    [main] in this order, and the [code] sequence of the resolved
    environment consists of exactly these four units, none of them
    twice. *)
Theorem end_to_end_dispatch_order (extra : nat) :
  exists env pathMap st,
    pass projectFiles projectTable ["main.ts"] (3 + extra)
    = Some (env, pathMap, st) /\
    dispatchedPaths (trace st)
    = ["/proj/util.ts"; "/proj/core.ts"; "/proj/lib.ts"; "/proj/main.ts"] /\
    map SourceUnit.path (CompilationEnvironment.code env)
    = ["/proj/util.ts"; "/proj/core.ts"; "/proj/lib.ts"; "/proj/main.ts"] /\
    map SourceUnit.content (CompilationEnvironment.code env)
    = [Some utilText; Some coreText; Some libText; Some mainText] /\
    NoDup (map SourceUnit.path (CompilationEnvironment.code env)).
Proof.
  eexists _, _, _. split; [vm_compute; reflexivity|].
  split; [vm_compute; reflexivity|].
  split; [vm_compute; reflexivity|].
  split; [vm_compute; reflexivity|].
  cbn [CompilationEnvironment.code map SourceUnit.path].
  repeat (apply NoDup_cons; split;
          [intros H; repeat (apply elem_of_cons in H as [H|H]; [discriminate|]);
           inversion H|]).
  apply NoDup_nil_2.
Qed.

(** *** An import that cannot be found *)

Definition importerText : string := "import x = module('nolib');".
Definition referrerText : string := "///<reference path='nolib.ts'/>".

Definition importerTable : TableHost.PreProcessTable :=
  [(importerText, Build_IPreProcessedFileInfo [] [referenceAt "nolib" 1 0]);
   (referrerText, Build_IPreProcessedFileInfo [referenceAt "nolib.ts" 1 0] [])].

(** C2, at the failing input.  There is no file for the bare name [nolib].
    The call that searches for it makes the four probes, finds nothing,
    marks nothing, and returns [true]; the call that reads [nolib.ts]
    directly makes the four read attempts and returns [false].  In a
    pass, [postResolutionError] is not called for the missing import
    while it is called for the missing reference. *)
Theorem search_miss_returns_true :
  call [] importerTable 1 "nolib" "/proj" true start
  = Some (true,
          mkState ∅
            [FindFile "/proj" "nolib.ts" None; FindFile "/proj" "nolib.str" None;
             FindFile "/proj" "nolib.d.ts" None; FindFile "/proj" "nolib.d.str" None]
            (CommandLineHost.mkResolution ∅ [] [])) /\
  call [] importerTable 1 "nolib.ts" "/proj" false start
  = Some (false,
          mkState ∅
            [ReadFile "/proj/nolib.ts" false; ReadFile "/proj/nolib.str" false;
             ReadFile "/proj/nolib.d.str" false; ReadFile "/proj/nolib.d.ts" false]
            (CommandLineHost.mkResolution ∅ [] [])) /\
  (exists env pathMap st,
     pass [("/proj/main.ts", importerText)] importerTable ["main.ts"] 2
     = Some (env, pathMap, st) /\
     reportedErrors (trace st) = []) /\
  (exists env pathMap st,
     pass [("/proj/main.ts", referrerText)] importerTable ["main.ts"] 2
     = Some (env, pathMap, st) /\
     reportedErrors (trace st)
     = [("/proj/main.ts",
         "Incorrect reference: referenced file: " +:+ dquote
         +:+ "nolib.ts" +:+ dquote +:+ " cannot be resolved.")]).
Proof.
  split; [vm_compute; reflexivity|].
  split; [vm_compute; reflexivity|].
  split; eexists _, _, _; split; vm_compute; reflexivity.
Qed.

(** *** Two declaration files for one import *)

Definition libImporterText : string := "import lib = module('lib');".

Definition declarationFiles : TableHost.FileTable :=
  [("/proj/lib.d.str", "declare var legacy;");
   ("/proj/lib.d.ts", "declare var primary;")].

(** The order of the probes as the specification words it: the bare name,
    the other source suffix, the legacy declaration suffix, the primary
    declaration suffix. *)
Definition specSearchCandidates (normalizedPath : string) : list string :=
  let p2 := swapSourceSuffix (pathUtils := PathModel.pathUtils) normalizedPath in
  let p3 := PathModel.changePathToDSTR p2 in
  let p4 := PathModel.changePathToDTS p3 in
  [normalizedPath; p2; p3; p4].

(** C3, at the failing input.  Both [lib.d.str] and [lib.d.ts] exist.  In
    the order of the specification, which is also the order of the direct
    strategy, the search for [lib] would stop at [lib.d.str]; the code
    probes [lib.d.ts] third, stops there, and dispatches [lib.d.ts]. *)
Theorem search_probes_primary_declaration_first :
  map fst (attempts (findFile (IFileSystemObject :=
                                 TableHost.ioHost "/proj" declarationFiles)
                       "/proj")
             (specSearchCandidates "lib.ts"))
  = ["lib.ts"; "lib.str"; "lib.d.str"] /\
  exists st,
    call declarationFiles [] 1 "lib" "/proj" true start = Some (true, st) /\
    probedNames (trace st) = ["lib.ts"; "lib.str"; "lib.d.ts"] /\
    dispatchedPaths (trace st) = ["/proj/lib.d.ts"] /\
    probedNames (trace st)
    <> map fst (attempts (findFile (IFileSystemObject :=
                                      TableHost.ioHost "/proj" declarationFiles)
                            "/proj")
                  (specSearchCandidates "lib.ts")).
Proof.
  split; [vm_compute; reflexivity|].
  eexists. split; [vm_compute; reflexivity|].
  split; [vm_compute; reflexivity|].
  split; [vm_compute; reflexivity|].
  vm_compute. discriminate.
Qed.

(** *** Cycles *)

Definition aImportsB : string := "import b = module('b');".
Definition bImportsA : string := "import a = module('a');".
Definition aRefersB : string := "///<reference path='b.ts'/>".
Definition bRefersA : string := "///<reference path='a.ts'/>".

Definition cycleTable : TableHost.PreProcessTable :=
  [(aImportsB, Build_IPreProcessedFileInfo [] [referenceAt "b" 1 0]);
   (bImportsA, Build_IPreProcessedFileInfo [] [referenceAt "a" 1 0]);
   (aRefersB, Build_IPreProcessedFileInfo [referenceAt "b.ts" 1 0] []);
   (bRefersA, Build_IPreProcessedFileInfo [referenceAt "a.ts" 1 0] [])].

(** The cycle of explicit references in which [a.ts] refers to [b.ts]
    and [b.ts] refers to [a.ts], and the calls of a pass from [a.ts]. *)
Definition directiveCycle : TableHost.FileTable :=
  [("/proj/a.ts", aRefersB); ("/proj/b.ts", bRefersA)].

Definition cycleGraph : list Call :=
  [("/proj/a.ts", EmptyString, false); ("b.ts", "/proj", false);
   ("a.ts", "/proj", false)].

(** A pass on the host that reads a file under every spelling of its
    path. *)
Definition canonicalPass (files : TableHost.FileTable)
    (table : TableHost.PreProcessTable) (entries : list string) (fuel : nat) :=
  CommandLineHost.resolveCompilationEnvironment
    (pathUtils := PathModel.pathUtils)
    (ioHost := TableHost.canonicalHost "/proj" files)
    (runtime := RuntimeModel.runtime)
    (TableHost.preProcessFile table) settings fuel
    (CompilationEnvironment.mk settings
       (map (fun p => SourceUnit.mk p None None) entries))
    ∅ ∅ ∅.

(** C6, counterexample.  Two cycles between [a.ts] and [b.ts].  In the
    first, [a.ts] imports [b] and [b.ts] imports [a].  The entry file is
    visited under the key of its absolute path; the import of [a] in
    [b.ts] has the key of the bare name, is not recognised as visited, and
    the file is found, read and dispatched again: [a.ts] is acquired twice
    and [postResolution] is called twice for it.  In the second, [a.ts]
    refers to [sub/../b.ts] and [b.ts] refers to [sub/../a.ts], on a file
    system that reads a file under every spelling of its path: every
    reference has a key that was not visited, and the pass does not
    return, whatever the fuel. *)
Lemma cycle_is_read_twice_or_without_end :
  (exists env pathMap st,
     pass [("/proj/a.ts", aImportsB); ("/proj/b.ts", bImportsA)] cycleTable
       ["a.ts"] 4
     = Some (env, pathMap, st) /\
     visitKeys (trace st) = ["/PROJ/A.TS"; "B.TS"; "A.TS"] /\
     acquiredPaths (trace st) = ["/proj/a.ts"; "/proj/b.ts"; "/proj/a.ts"] /\
     dispatchedPaths (trace st) = ["/proj/a.ts"; "/proj/b.ts"; "/proj/a.ts"] /\
     ~ NoDup (acquiredPaths (trace st)) /\
     ~ NoDup (dispatchedPaths (trace st))) /\
  (forall fuel,
     canonicalPass Respelling.files Respelling.table ["a.ts"] fuel = None).
Proof.
  split; [|exact Respelling.pass_never_returns].
  assert (Hdup : ~ NoDup ["/proj/a.ts"; "/proj/b.ts"; "/proj/a.ts"]).
  { intros H. apply NoDup_cons in H as [H _]. apply H.
    apply elem_of_cons. right. apply elem_of_cons. now left. }
  eexists _, _, _. split; [vm_compute; reflexivity|].
  split; [vm_compute; reflexivity|].
  split; [vm_compute; reflexivity|].
  split; [vm_compute; reflexivity|].
  split; exact Hdup.
Qed.

(** C6, as the code has it.  Take a reference graph to be a finite list
    of [resolveCode] calls that holds the calls for the entry files and,
    with each call for which the host yields a file, the calls for the
    references and imports of that file.  A pass over such a graph, run
    with more fuel than the graph has calls, returns, and returns the same
    with any more fuel; no key is marked visited twice in it, and the host
    has yielded exactly as many files as keys were marked: the content
    behind a key is acquired at most once.  In particular, for the cycle
    of explicit references in which [a.ts] refers to [b.ts] and [b.ts]
    refers to [a.ts], the pass from [a.ts] returns for every fuel from
    three on, reads each of the two files once, and calls
    [postResolution] once for [b.ts] and then once for [a.ts]; this is so
    also on the file system that reads a file under every spelling of its
    path. *)
Theorem pass_returns_marking_each_key_once :
  (forall (pathUtils : PathUtils) (ioHost : IFileSystemObject)
          (runtime : Js.Runtime) preProcessFile compilationSettings
          (graph : list Call) fuel preEnv,
     closed compilationSettings preProcessFile graph ->
     (forall unit, unit ∈ CompilationEnvironment.code preEnv ->
                   PassFacts.entryCall unit ∈ graph) ->
     length graph < fuel ->
     exists env pathMap st,
       CommandLineHost.resolveCompilationEnvironment preProcessFile
         compilationSettings fuel preEnv ∅ ∅ ∅
       = Some (env, pathMap, st) /\
       NoDup (visitKeys (trace st)) /\
       length (acquiredPaths (trace st)) = length (visitKeys (trace st)) /\
       forall fuel', fuel <= fuel' ->
         CommandLineHost.resolveCompilationEnvironment preProcessFile
           compilationSettings fuel' preEnv ∅ ∅ ∅
         = Some (env, pathMap, st)) /\
  (forall extra, exists env pathMap st,
     pass directiveCycle cycleTable ["a.ts"] (3 + extra)
     = Some (env, pathMap, st) /\
     canonicalPass directiveCycle cycleTable ["a.ts"] (3 + extra)
     = Some (env, pathMap, st) /\
     visitKeys (trace st) = ["/PROJ/A.TS"; "/PROJ/B.TS"] /\
     acquiredPaths (trace st) = ["/proj/a.ts"; "/proj/b.ts"] /\
     dispatchedPaths (trace st) = ["/proj/b.ts"; "/proj/a.ts"]).
Proof.
  split.
  - intros pathUtils ioHost runtime preProcessFile compilationSettings graph
      fuel preEnv Hclosed Hentries Hlt.
    now apply (PassFacts.pass_returns preProcessFile compilationSettings graph).
  - intros extra. eexists _, _, _. split; [vm_compute; reflexivity|].
    repeat split; vm_compute; reflexivity.
Qed.

Lemma pass_returns_marking_each_key_once_witness :
  closed (pathUtils := PathModel.pathUtils)
    (ioHost := TableHost.canonicalHost "/proj" directiveCycle)
    settings (TableHost.preProcessFile cycleTable) cycleGraph /\
  (forall unit,
     unit ∈ [SourceUnit.mk "a.ts" None None] ->
     PassFacts.entryCall (pathUtils := PathModel.pathUtils)
       (ioHost := TableHost.canonicalHost "/proj" directiveCycle) unit
     ∈ cycleGraph) /\
  length cycleGraph < 4 /\
  exists env pathMap st,
    canonicalPass directiveCycle cycleTable ["a.ts"] 4 = Some (env, pathMap, st) /\
    NoDup (visitKeys (trace st)) /\
    length (acquiredPaths (trace st)) = length (visitKeys (trace st)) /\
    forall fuel', 4 <= fuel' ->
      canonicalPass directiveCycle cycleTable ["a.ts"] fuel'
      = Some (env, pathMap, st).
Proof.
  assert (h1 : closed (pathUtils := PathModel.pathUtils)
                 (ioHost := TableHost.canonicalHost "/proj" directiveCycle)
                 settings (TableHost.preProcessFile cycleTable) cycleGraph)
    by (apply isClosed_closed; vm_compute; reflexivity).
  assert (h2 : forall unit,
            unit ∈ [SourceUnit.mk "a.ts" None None] ->
            PassFacts.entryCall (pathUtils := PathModel.pathUtils)
              (ioHost := TableHost.canonicalHost "/proj" directiveCycle) unit
            ∈ cycleGraph).
  { intros unit Hu. apply list_elem_of_singleton in Hu. subst unit.
    apply elem_of_cons. left. vm_compute. reflexivity. }
  assert (h3 : length cycleGraph < 4) by (simpl; lia).
  refine (conj h1 (conj h2 (conj h3 _))).
  exact (proj1 pass_returns_marking_each_key_once PathModel.pathUtils
           (TableHost.canonicalHost "/proj" directiveCycle)
           RuntimeModel.runtime (TableHost.preProcessFile cycleTable)
           settings cycleGraph 4
           (CompilationEnvironment.mk settings [SourceUnit.mk "a.ts" None None])
           h1 h2 h3).
Defined.

(** *** Visiting twice *)

Definition utilUnit : SourceUnit.t :=
  SourceUnit.mk "/proj/util.ts" (Some utilText) (Some []).

(** The state after [util.ts] has been resolved from a fresh start: one
    read, one mark, one [postResolution]. *)
Definition utilResolved : State CommandLineHost.Resolution :=
  mkState {["/PROJ/UTIL.TS" := true]}
    [ReadFile "/proj/util.ts" true; Visit "/PROJ/UTIL.TS";
     PostResolution "/proj/util.ts" utilUnit]
    (CommandLineHost.mkResolution {["/PROJ/UTIL.TS" := true]} [utilUnit] []).

(** The call for [util.ts] as an entry file, and as the reference of
    [main.ts]. *)
Definition utilGraph : list Call :=
  [("/proj/util.ts", EmptyString, false); ("util.ts", "/proj", false)].

Lemma revisit_is_noop_witness :
  closed (pathUtils := PathModel.pathUtils)
    (ioHost := TableHost.ioHost "/proj" projectFiles)
    settings (TableHost.preProcessFile projectTable) utilGraph /\
  ("/proj/util.ts", EmptyString, false) ∈ utilGraph /\
  remaining (pathUtils := PathModel.pathUtils)
    (ioHost := TableHost.ioHost "/proj" projectFiles) settings utilGraph start
  < 3 /\
  isVisited start "/PROJ/UTIL.TS" = false /\
  acquisition (pathUtils := PathModel.pathUtils)
    (ioHost := TableHost.ioHost "/proj" projectFiles)
    "/proj/util.ts" EmptyString false
  = Some (IResolvedFile.mk (Some utilText) "/proj/util.ts") /\
  absoluteModuleID (pathUtils := PathModel.pathUtils)
    (ioHost := TableHost.ioHost "/proj" projectFiles) settings
    "util.ts" "/proj" false
  = "/PROJ/UTIL.TS" /\
  (exists (st1 : State CommandLineHost.Resolution) (nested : list Event),
     call projectFiles projectTable 3 "/proj/util.ts" EmptyString false start
     = Some (true, st1) /\
     trace st1
     = [] ++ [ReadFile "/proj/util.ts" true] ++
       Visit "/PROJ/UTIL.TS" :: nested ++
       [PostResolution "/proj/util.ts" utilUnit] /\
     length (acquiredPaths [ReadFile "/proj/util.ts" true]) = 1 /\
     visitKeys [ReadFile "/proj/util.ts" true] = [] /\
     dispatchedPaths [ReadFile "/proj/util.ts" true] = [] /\
     (@nil IFileReference.t = [] -> @nil IFileReference.t = [] ->
      nested = [] /\
      dispatched st1
      = postResolution "/proj/util.ts" utilUnit (dispatched start)) /\
     call projectFiles projectTable 1 "util.ts" "/proj" false st1
     = Some (true, st1)) /\
  (forall st2 : State CommandLineHost.Resolution,
     isVisited st2 "/PROJ/UTIL.TS" = true ->
     call projectFiles projectTable 1 "util.ts" "/proj" false st2
     = Some (true, st2)).
Proof.
  assert (h1 : closed (pathUtils := PathModel.pathUtils)
                 (ioHost := TableHost.ioHost "/proj" projectFiles)
                 settings (TableHost.preProcessFile projectTable) utilGraph)
    by (apply isClosed_closed; vm_compute; reflexivity).
  assert (h2 : ("/proj/util.ts", EmptyString, false) ∈ utilGraph)
    by (apply elem_of_cons; now left).
  assert (h3 : remaining (pathUtils := PathModel.pathUtils)
                 (ioHost := TableHost.ioHost "/proj" projectFiles)
                 settings utilGraph start < 3)
    by (apply Nat.ltb_lt; vm_compute; reflexivity).
  assert (h4 : isVisited start "/PROJ/UTIL.TS" = false) by reflexivity.
  assert (h5 : acquisition (pathUtils := PathModel.pathUtils)
                 (ioHost := TableHost.ioHost "/proj" projectFiles)
                 "/proj/util.ts" EmptyString false
               = Some (IResolvedFile.mk (Some utilText) "/proj/util.ts"))
    by (vm_compute; reflexivity).
  assert (h6 : absoluteModuleID (pathUtils := PathModel.pathUtils)
                 (ioHost := TableHost.ioHost "/proj" projectFiles) settings
                 "util.ts" "/proj" false
               = "/PROJ/UTIL.TS") by (vm_compute; reflexivity).
  refine (conj h1 (conj h2 (conj h3 (conj h4 (conj h5 (conj h6 _)))))).
  exact (revisit_is_noop (pathUtils := PathModel.pathUtils)
           (ioHost := TableHost.ioHost "/proj" projectFiles)
           settings (TableHost.preProcessFile projectTable) utilGraph 2 0
           "/proj/util.ts" EmptyString false "util.ts" "/proj" false
           start "/proj/util.ts" utilText h1 h2 h3 h4 h5 h6).
Defined.

(** *** A file that refers to itself *)

Definition selfText : string :=
  "///<reference path='main.ts'/> ///<reference path='util.ts'/>".

Definition selfFiles : TableHost.FileTable :=
  [("/proj/main.ts", selfText); ("/proj/util.ts", utilText)].

Definition selfTable : TableHost.PreProcessTable :=
  [(selfText, Build_IPreProcessedFileInfo
                [referenceAt "main.ts" 3 0; referenceAt "util.ts" 4 0] [])].

(** The call for [main.ts] as an entry file and the call for its
    reference to [util.ts]; the reference to itself leads to no call. *)
Definition selfGraph : list Call :=
  [("/proj/main.ts", EmptyString, false); ("util.ts", "/proj", false)].

Definition selfMessage : string :=
  "Incorrect reference: File contains reference to itself.".

Definition selfUnit : SourceUnit.t :=
  SourceUnit.mk "/proj/main.ts" (Some selfText)
    (Some [referenceAt "main.ts" 3 0; referenceAt "util.ts" 4 0]).

(** The line that the program writes for the reference of [main.ts] to
    itself. *)
Definition selfReport : string :=
  "/proj/main.ts([object Object]," +:+ selfMessage +:+ ") : undefined".

(** The state in which the key of [main.ts] is marked. *)
Definition selfMarked : State CommandLineHost.Resolution :=
  mkState (<["/PROJ/MAIN.TS" := true]> ∅)
    (([] ++ [ReadFile "/proj/main.ts" true]) ++ [Visit "/PROJ/MAIN.TS"])
    (CommandLineHost.mkResolution ∅ [] []).

(** The state after the error has been reported. *)
Definition selfReported : State CommandLineHost.Resolution :=
  mkState (visited selfMarked)
    (trace selfMarked ++
     [PostResolutionError "/proj/main.ts" (referenceAt "main.ts" 3 0) selfMessage])
    (postResolutionError "/proj/main.ts" (referenceAt "main.ts" 3 0) selfMessage
       (dispatched selfMarked)).

Lemma self_reference_is_reported_and_skipped_witness :
  closed (pathUtils := PathModel.pathUtils)
    (ioHost := TableHost.ioHost "/proj" selfFiles)
    settings (TableHost.preProcessFile selfTable) selfGraph /\
  ("/proj/main.ts", EmptyString, false) ∈ selfGraph /\
  remaining (pathUtils := PathModel.pathUtils)
    (ioHost := TableHost.ioHost "/proj" selfFiles) settings selfGraph start
  < 3 /\
  isVisited start "/PROJ/MAIN.TS" = false /\
  acquisition (pathUtils := PathModel.pathUtils)
    (ioHost := TableHost.ioHost "/proj" selfFiles)
    "/proj/main.ts" EmptyString false
  = Some (IResolvedFile.mk (Some selfText) "/proj/main.ts") /\
  referencedFiles
    (TableHost.preProcessFile selfTable
       (SourceUnit.mk "/proj/main.ts" (Some selfText) None) settings)
  = [] ++ referenceAt "main.ts" 3 0 :: [referenceAt "util.ts" 4 0] /\
  isSelfReference (pathUtils := PathModel.pathUtils)
    (ioHost := TableHost.ioHost "/proj" selfFiles)
    "/proj/main.ts" "/proj" (referenceAt "main.ts" 3 0) = true /\
  CommandLineHost.reported (dispatched selfReported) = [selfReport] /\
  visited selfReported = visited selfMarked /\
  call selfFiles selfTable 3 "/proj/main.ts" EmptyString false start
  = (markVisited "/PROJ/MAIN.TS" ;;;
     resolveReferences (pathUtils := PathModel.pathUtils)
       (ioHost := TableHost.ioHost "/proj" selfFiles)
       (call selfFiles selfTable 2) "/proj/main.ts" "/proj" [] ;;;
     callPostResolutionError "/proj/main.ts" (referenceAt "main.ts" 3 0)
       selfMessage ;;;
     resolveReferences (pathUtils := PathModel.pathUtils)
       (ioHost := TableHost.ioHost "/proj" selfFiles)
       (call selfFiles selfTable 2) "/proj/main.ts" "/proj"
       [referenceAt "util.ts" 4 0] ;;;
     resolveImports (call selfFiles selfTable 2) "/proj/main.ts" "/proj" [] ;;;
     callPostResolution "/proj/main.ts" selfUnit ;;;
     ret true)
      (mkState ∅ ([] ++ [ReadFile "/proj/main.ts" true])
         (CommandLineHost.mkResolution ∅ [] [])) /\
  exists s1 s2 : State CommandLineHost.Resolution,
    resolveReferences (pathUtils := PathModel.pathUtils)
      (ioHost := TableHost.ioHost "/proj" selfFiles)
      (call selfFiles selfTable 2) "/proj/main.ts" "/proj" [] selfMarked
    = Some (tt, s1) /\
    (resolveReferences (pathUtils := PathModel.pathUtils)
       (ioHost := TableHost.ioHost "/proj" selfFiles)
       (call selfFiles selfTable 2) "/proj/main.ts" "/proj"
       [referenceAt "util.ts" 4 0] ;;;
     resolveImports (call selfFiles selfTable 2) "/proj/main.ts" "/proj" [])
      (mkState (visited s1)
         (trace s1 ++
          [PostResolutionError "/proj/main.ts" (referenceAt "main.ts" 3 0)
             selfMessage])
         (postResolutionError "/proj/main.ts" (referenceAt "main.ts" 3 0)
            selfMessage (dispatched s1)))
    = Some (tt, s2) /\
    call selfFiles selfTable 3 "/proj/main.ts" EmptyString false start
    = Some (true,
            mkState (visited s2)
              (trace s2 ++ [PostResolution "/proj/main.ts" selfUnit])
              (postResolution "/proj/main.ts" selfUnit (dispatched s2))).
Proof.
  assert (h1 : closed (pathUtils := PathModel.pathUtils)
                 (ioHost := TableHost.ioHost "/proj" selfFiles)
                 settings (TableHost.preProcessFile selfTable) selfGraph)
    by (apply isClosed_closed; vm_compute; reflexivity).
  assert (h2 : ("/proj/main.ts", EmptyString, false) ∈ selfGraph)
    by (apply elem_of_cons; now left).
  assert (h3 : remaining (pathUtils := PathModel.pathUtils)
                 (ioHost := TableHost.ioHost "/proj" selfFiles)
                 settings selfGraph start < 3)
    by (apply Nat.ltb_lt; vm_compute; reflexivity).
  assert (h4 : isVisited start "/PROJ/MAIN.TS" = false) by reflexivity.
  assert (h5 : acquisition (pathUtils := PathModel.pathUtils)
                 (ioHost := TableHost.ioHost "/proj" selfFiles)
                 "/proj/main.ts" EmptyString false
               = Some (IResolvedFile.mk (Some selfText) "/proj/main.ts"))
    by (vm_compute; reflexivity).
  assert (h6 : referencedFiles
                 (TableHost.preProcessFile selfTable
                    (SourceUnit.mk "/proj/main.ts" (Some selfText) None) settings)
               = [] ++ referenceAt "main.ts" 3 0 :: [referenceAt "util.ts" 4 0])
    by reflexivity.
  assert (h7 : isSelfReference (pathUtils := PathModel.pathUtils)
                 (ioHost := TableHost.ioHost "/proj" selfFiles)
                 "/proj/main.ts" "/proj" (referenceAt "main.ts" 3 0) = true)
    by (vm_compute; reflexivity).
  assert (h8 : CommandLineHost.reported (dispatched selfReported) = [selfReport])
    by (vm_compute; reflexivity).
  assert (h9 : visited selfReported = visited selfMarked) by reflexivity.
  refine (conj h1 (conj h2 (conj h3 (conj h4 (conj h5 (conj h6 (conj h7
            (conj h8 (conj h9 _))))))))).
  exact (self_reference_is_reported_and_skipped
           (pathUtils := PathModel.pathUtils)
           (ioHost := TableHost.ioHost "/proj" selfFiles)
           settings (TableHost.preProcessFile selfTable) selfGraph 2
           "/proj/main.ts" EmptyString false start "/proj/main.ts" selfText
           [] (referenceAt "main.ts" 3 0) [referenceAt "util.ts" 4 0]
           h1 h2 h3 h4 h5 h6 h7).
Defined.

(** *** A file that is not there *)

(** The four read attempts for [nolib.ts] under [/proj], all failing. *)
Definition nolibFailures : list Event :=
  [ReadFile "/proj/nolib.ts" false; ReadFile "/proj/nolib.str" false;
   ReadFile "/proj/nolib.d.str" false; ReadFile "/proj/nolib.d.ts" false].

Lemma failed_read_is_not_cached_witness :
  isVisited start "/PROJ/NOLIB.TS" = false /\
  readsDirectly (pathUtils := PathModel.pathUtils) "nolib.ts" false = true /\
  TableHost.lookupFile projectFiles "/proj/nolib.ts" = None /\
  TableHost.lookupFile projectFiles "/proj/nolib.str" = None /\
  TableHost.lookupFile projectFiles "/proj/nolib.d.str" = None /\
  TableHost.lookupFile projectFiles "/proj/nolib.d.ts" = None /\
  call projectFiles projectTable 1 "nolib.ts" "/proj" false start
  = Some (false, mkState ∅ ([] ++ nolibFailures)
                   (CommandLineHost.mkResolution ∅ [] [])) /\
  call projectFiles projectTable 1 "nolib.ts" "/proj" false
    (mkState ∅ ([] ++ nolibFailures) (CommandLineHost.mkResolution ∅ [] []))
  = Some (false, mkState ∅ (([] ++ nolibFailures) ++ nolibFailures)
                   (CommandLineHost.mkResolution ∅ [] [])).
Proof.
  assert (h1 : isVisited start "/PROJ/NOLIB.TS" = false) by reflexivity.
  assert (h2 : readsDirectly (pathUtils := PathModel.pathUtils) "nolib.ts" false
               = true) by reflexivity.
  assert (h3 : TableHost.lookupFile projectFiles "/proj/nolib.ts" = None)
    by reflexivity.
  assert (h4 : TableHost.lookupFile projectFiles "/proj/nolib.str" = None)
    by reflexivity.
  assert (h5 : TableHost.lookupFile projectFiles "/proj/nolib.d.str" = None)
    by reflexivity.
  assert (h6 : TableHost.lookupFile projectFiles "/proj/nolib.d.ts" = None)
    by reflexivity.
  refine (conj h1 (conj h2 (conj h3 (conj h4 (conj h5 (conj h6 _)))))).
  exact (failed_read_is_not_cached (pathUtils := PathModel.pathUtils)
           (ioHost := TableHost.ioHost "/proj" projectFiles)
           settings (TableHost.preProcessFile projectTable) 0 0
           "nolib.ts" "/proj" false start h1 h2 h3 h4 h5 h6).
Defined.

(** *** A file found under a fallback suffix *)

Definition legacyFiles : TableHost.FileTable := [("/proj/foo.str", "var foo;")].

Definition fooUnit : SourceUnit.t :=
  SourceUnit.mk "/proj/foo.str" (Some "var foo;") (Some []).

Lemma fallback_path_is_resolved_again_witness :
  isVisited start "/PROJ/FOO.TS" = false /\
  readsDirectly (pathUtils := PathModel.pathUtils) "foo" false = true /\
  TableHost.lookupFile legacyFiles "/proj/foo.ts" = None /\
  firstHit (TableHost.lookupFile legacyFiles)
    ["/proj/foo.ts"; "/proj/foo.str"; "/proj/foo.d.str"; "/proj/foo.d.ts"]
  = Some ("/proj/foo.str", "var foo;") /\
  normalizePath (pathUtils := PathModel.pathUtils)
    (ioHost := TableHost.ioHost "/proj" legacyFiles) "foo.str" "/proj" false
  = "/proj/foo.str" /\
  "/PROJ/FOO.STR" <> "/PROJ/FOO.TS" /\
  exists st1 st2 : State CommandLineHost.Resolution,
    call legacyFiles [] 1 "foo" "/proj" false start = Some (true, st1) /\
    trace st1
    = [] ++ [ReadFile "/proj/foo.ts" false; ReadFile "/proj/foo.str" true] ++
      [Visit "/PROJ/FOO.TS"; PostResolution "/proj/foo.str" fooUnit] /\
    isVisited st1 "/PROJ/FOO.TS" = true /\
    isVisited st1 "/PROJ/FOO.STR" = false /\
    call legacyFiles [] 1 "foo.str" "/proj" false st1 = Some (true, st2) /\
    trace st2
    = trace st1 ++ [ReadFile "/proj/foo.str" true; Visit "/PROJ/FOO.STR";
                    PostResolution "/proj/foo.str" fooUnit].
Proof.
  assert (h1 : isVisited start "/PROJ/FOO.TS" = false) by reflexivity.
  assert (h2 : readsDirectly (pathUtils := PathModel.pathUtils) "foo" false = true)
    by reflexivity.
  assert (h3 : TableHost.lookupFile legacyFiles "/proj/foo.ts" = None)
    by reflexivity.
  assert (h4 : firstHit (TableHost.lookupFile legacyFiles)
                 ["/proj/foo.ts"; "/proj/foo.str"; "/proj/foo.d.str";
                  "/proj/foo.d.ts"]
               = Some ("/proj/foo.str", "var foo;")) by reflexivity.
  assert (h5 : normalizePath (pathUtils := PathModel.pathUtils)
                 (ioHost := TableHost.ioHost "/proj" legacyFiles)
                 "foo.str" "/proj" false = "/proj/foo.str")
    by (vm_compute; reflexivity).
  assert (h6 : "/PROJ/FOO.STR" <> "/PROJ/FOO.TS") by discriminate.
  refine (conj h1 (conj h2 (conj h3 (conj h4 (conj h5 (conj h6 _)))))).
  exact (fallback_path_is_resolved_again (pathUtils := PathModel.pathUtils)
           (ioHost := TableHost.ioHost "/proj" legacyFiles)
           settings (TableHost.preProcessFile []) 0 0
           "foo" "/proj" false "foo.str" "/proj" false start
           "/proj/foo.str" "var foo;"
           h1 h2 h3 h4 eq_refl eq_refl eq_refl h5 eq_refl h6).
Defined.

(** *** The text of a resolution error *)

(** The text as the specification words it: file, then line and column in
    parentheses with the column moved from base zero to base one, then a
    colon and the message. *)
Definition specErrorText (errorFile : string) (line col : N)
    (errorMessage : string) : string :=
  errorFile +:+ "(" +:+ Js.numberToString line +:+ ","
  +:+ Js.numberToString (col + 1) +:+ "): " +:+ errorMessage.

(** C8, at the failing input.  The pass from [main.ts], whose first
    reference, in line 3 at column 0, is to [main.ts] itself.  The
    resolver hands the dispatcher the file, the reference and the message;
    the callback takes them for file, line and column, and has no
    message.  The line that reaches [errorReporter] shows the reference
    as the text of an object where the line should be, the message where
    the column should be, and [undefined] for the message; no column is
    incremented.  The specification asks for
    [/proj/main.ts(3,1): ] followed by the message. *)
Theorem resolution_error_text_at_self_reference :
  exists env pathMap st,
    pass selfFiles selfTable ["main.ts"] 3 = Some (env, pathMap, st) /\
    List.filter
      (fun e => match e with PostResolutionError _ _ _ => true | _ => false end)
      (trace st)
    = [PostResolutionError "/proj/main.ts" (referenceAt "main.ts" 3 0)
         selfMessage] /\
    CommandLineHost.reported (dispatched st) = [selfReport] /\
    specErrorText "/proj/main.ts" 3 0 selfMessage
    = "/proj/main.ts(3,1): Incorrect reference: File contains reference to itself." /\
    CommandLineHost.reported (dispatched st) <> [specErrorText "/proj/main.ts" 3 0 selfMessage].
Proof.
  eexists _, _, _. split; [vm_compute; reflexivity|].
  split; [vm_compute; reflexivity|].
  split; [vm_compute; reflexivity|].
  split; [vm_compute; reflexivity|].
  vm_compute. discriminate.
Qed.

End Scenarios.

(** ** The watch reconciliation on the example of the specification *)

Module WatchFacts.
Import Watch.

(** No name of the list is inherited by a plain object. *)
Definition plain {runtime : Js.Runtime} (files : list string) : Prop :=
  forall f, f ∈ files -> Js.inheritance f = Js.Absent.

(** On the names of the list, the collation of the runtime is the order
    of the code units. *)
Definition collates {runtime : Js.Runtime} (files : list string) : Prop :=
  forall a b, a ∈ files -> b ∈ files -> Js.localeCompare a b = String.compare a b.

Lemma elem_of_insertSorted x y l : y ∈ insertSorted x l <-> y = x \/ y ∈ l.
Proof.
  induction l as [|z rest IH]; simpl.
  - rewrite elem_of_cons. reflexivity.
  - destruct (String.compare x z); rewrite ?elem_of_cons, ?IH, ?elem_of_cons; tauto.
Qed.

Lemma elem_of_sort y l : y ∈ sort l <-> y ∈ l.
Proof.
  induction l as [|x rest IH]; [reflexivity|].
  change (sort (x :: rest)) with (insertSorted x (sort rest)).
  rewrite elem_of_insertSorted, elem_of_cons, IH. reflexivity.
Qed.

(** *** Two runtimes that agree on the names at hand *)

Section Agreement.

Variables (runtime1 runtime2 : Js.Runtime) (names : list string).

Hypothesis inheritance_agrees :
  forall f, f ∈ names ->
    Js.inheritance (Runtime := runtime1) f = Js.inheritance (Runtime := runtime2) f.

Hypothesis collation_agrees :
  forall a b, a ∈ names -> b ∈ names ->
    Js.localeCompare (Runtime := runtime1) a b
    = Js.localeCompare (Runtime := runtime2) a b.

Lemma addWatcher_agrees f st :
  f ∈ names ->
  addWatcher (runtime := runtime1) f st = addWatcher (runtime := runtime2) f st.
Proof.
  intros Hf. unfold addWatcher, Js.get, Js.set.
  now rewrite (inheritance_agrees f Hf).
Qed.

Lemma removeWatcher_agrees f st :
  f ∈ names ->
  removeWatcher (runtime := runtime1) f st
  = removeWatcher (runtime := runtime2) f st.
Proof.
  intros Hf. unfold removeWatcher, Js.get.
  now rewrite (inheritance_agrees f Hf).
Qed.

Lemma mergeLoop_agrees iterations oldFiles newFiles i j st :
  (forall f, f ∈ oldFiles -> f ∈ names) ->
  (forall f, f ∈ newFiles -> f ∈ names) ->
  mergeLoop (runtime := runtime1) iterations oldFiles newFiles i j st
  = mergeLoop (runtime := runtime2) iterations oldFiles newFiles i j st.
Proof.
  intros Hold Hnew. revert i j st.
  induction iterations as [|iterations IH]; intros i j st; [reflexivity|].
  simpl. destruct (oldFiles !! i) as [o|] eqn:Eo; [|reflexivity].
  destruct (newFiles !! j) as [n|] eqn:En; [|reflexivity].
  assert (Ho : o ∈ names) by (apply Hold; eapply list_elem_of_lookup_2; eauto).
  assert (Hn : n ∈ names) by (apply Hnew; eapply list_elem_of_lookup_2; eauto).
  rewrite (collation_agrees o n Ho Hn).
  destruct (Js.localeCompare o n).
  - apply IH.
  - rewrite (removeWatcher_agrees o st Ho).
    destruct (removeWatcher o st) as [st'|]; [apply IH | reflexivity].
  - rewrite (addWatcher_agrees n st Hn). apply IH.
Qed.

Lemma removeAll_agrees files st :
  (forall f, f ∈ files -> f ∈ names) ->
  removeAll (runtime := runtime1) files st
  = removeAll (runtime := runtime2) files st.
Proof.
  revert st. induction files as [|f rest IH]; intros st Hin; [reflexivity|].
  simpl. rewrite (removeWatcher_agrees f st) by (apply Hin, elem_of_cons; now left).
  destruct (removeWatcher f st) as [st'|]; [|reflexivity].
  apply IH. intros g Hg. apply Hin, elem_of_cons. now right.
Qed.

Lemma addAll_agrees files st :
  (forall f, f ∈ files -> f ∈ names) ->
  addAll (runtime := runtime1) files st = addAll (runtime := runtime2) files st.
Proof.
  revert st. induction files as [|f rest IH]; intros st Hin; [reflexivity|].
  unfold addAll in *. simpl.
  rewrite (addWatcher_agrees f st) by (apply Hin, elem_of_cons; now left).
  apply IH. intros g Hg. apply Hin, elem_of_cons. now right.
Qed.

(** The reconciliation asks the runtime only about the names of the two
    lists. *)
Lemma reconcile_agrees resolvedPaths st :
  (forall f, f ∈ resolvedFiles st -> f ∈ names) ->
  (forall f, f ∈ resolvedPaths -> f ∈ names) ->
  reconcile (runtime := runtime1) resolvedPaths st
  = reconcile (runtime := runtime2) resolvedPaths st.
Proof.
  intros Hold Hnew. unfold reconcile.
  assert (Hsorted : forall f, f ∈ sort resolvedPaths -> f ∈ names)
    by (intros f Hf; apply Hnew; now apply elem_of_sort).
  rewrite (mergeLoop_agrees _ _ _ 0 0 st Hold Hsorted).
  destruct (mergeLoop _ _ _ 0 0 st) as [[[i j] st']|]; [|reflexivity].
  simpl.
  assert (Hdrop : forall (l : list string) k f, f ∈ drop k l -> f ∈ l).
  { intros l k f Hf. apply list_elem_of_In. apply list_elem_of_In in Hf.
    rewrite <- (take_drop k l). apply in_or_app. now right. }
  rewrite (removeAll_agrees (drop i (resolvedFiles st)) st')
    by (intros f Hf; apply Hold; eapply Hdrop; eauto).
  destruct (removeAll _ st') as [st''|]; [|reflexivity].
  simpl.
  rewrite (addAll_agrees (drop j (sort resolvedPaths)) st'')
    by (intros f Hf; apply Hsorted; eapply Hdrop; eauto).
  reflexivity.
Qed.

Lemma watchInitial_agrees resolvedPaths :
  (forall f, f ∈ resolvedPaths -> f ∈ names) ->
  watchInitial (runtime := runtime1) resolvedPaths
  = watchInitial (runtime := runtime2) resolvedPaths.
Proof.
  intros Hin. unfold watchInitial. now rewrite (addAll_agrees _ _ Hin).
Qed.

End Agreement.

Definition watcherOf (filename : string) : string * IFileWatcher :=
  (filename, Build_IFileWatcher filename).

(** The state in which [a], [b] and [d] are watched. *)
Definition watchingABD : State :=
  mkState ["a"; "b"; "d"]
    (list_to_map [watcherOf "a"; watcherOf "b"; watcherOf "d"]) [].

(** The names of the example. *)
Definition exampleNames : list string := ["a"; "b"; "c"; "d"; "e"].

(** C5.  With [a], [b], [d] watched and [b], [c], [d], [e] freshly
    resolved, one run of the reconciliation closes the watch of [a], opens
    watches for [c] and for [e], makes no call for [b] or [d], and leaves
    [b], [c], [d], [e] as the stored list and as the watched files.  This
    holds on every runtime on which a plain object inherits none of the
    five names and the collation orders them as the letters are. *)
Theorem reconcile_example (runtime : Js.Runtime) :
  plain exampleNames -> collates exampleNames ->
  resolvedFiles (watchInitial ["a"; "b"; "d"]) = resolvedFiles watchingABD /\
  watchers (watchInitial ["a"; "b"; "d"]) = watchers watchingABD /\
  sort ["b"; "c"; "d"; "e"] = ["b"; "c"; "d"; "e"] /\
  reconcile ["b"; "c"; "d"; "e"] watchingABD
  = Js.Normal
      (mkState ["b"; "c"; "d"; "e"]
         (list_to_map [watcherOf "b"; watcherOf "c"; watcherOf "d"; watcherOf "e"])
         [CloseWatcher "a"; WatchFile "c"; WatchFile "e"]).
Proof.
  intros Hplain Hcollates.
  assert (Hinh : forall f, f ∈ exampleNames ->
            Js.inheritance (Runtime := runtime) f
            = Js.inheritance (Runtime := RuntimeModel.runtime) f).
  { intros f Hf. rewrite (Hplain f Hf). unfold exampleNames in Hf.
    repeat (apply elem_of_cons in Hf as [->|Hf]; [reflexivity|]).
    inversion Hf. }
  assert (Hcol : forall a b, a ∈ exampleNames -> b ∈ exampleNames ->
            Js.localeCompare (Runtime := runtime) a b
            = Js.localeCompare (Runtime := RuntimeModel.runtime) a b).
  { intros a b Ha Hb. exact (Hcollates a b Ha Hb). }
  assert (Hsub : forall l : list string,
            forallb (fun f => existsb (String.eqb f) exampleNames) l = true ->
            forall f, f ∈ l -> f ∈ exampleNames).
  { intros l Hl f Hf. rewrite forallb_forall in Hl.
    specialize (Hl f (proj1 (list_elem_of_In _ _) Hf)).
    apply existsb_exists in Hl as (g & Hg & Heq).
    apply String.eqb_eq in Heq. subst g. now apply list_elem_of_In. }
  rewrite (watchInitial_agrees runtime RuntimeModel.runtime exampleNames Hinh
             ["a"; "b"; "d"] (Hsub ["a"; "b"; "d"] eq_refl)).
  split; [vm_compute; reflexivity|].
  split; [vm_compute; reflexivity|].
  split.
  - reflexivity.
  - rewrite (reconcile_agrees runtime RuntimeModel.runtime exampleNames Hinh Hcol
               ["b"; "c"; "d"; "e"] watchingABD
               (Hsub ["a"; "b"; "d"] eq_refl) (Hsub ["b"; "c"; "d"; "e"] eq_refl)).
    vm_compute. reflexivity.
Qed.

Lemma reconcile_example_witness :
  plain (runtime := RuntimeModel.runtime) exampleNames /\
  collates (runtime := RuntimeModel.runtime) exampleNames /\
  resolvedFiles (watchInitial (runtime := RuntimeModel.runtime) ["a"; "b"; "d"])
  = resolvedFiles watchingABD /\
  watchers (watchInitial (runtime := RuntimeModel.runtime) ["a"; "b"; "d"])
  = watchers watchingABD /\
  sort ["b"; "c"; "d"; "e"] = ["b"; "c"; "d"; "e"] /\
  reconcile (runtime := RuntimeModel.runtime) ["b"; "c"; "d"; "e"] watchingABD
  = Js.Normal
      (mkState ["b"; "c"; "d"; "e"]
         (list_to_map [watcherOf "b"; watcherOf "c"; watcherOf "d"; watcherOf "e"])
         [CloseWatcher "a"; WatchFile "c"; WatchFile "e"]).
Proof.
  assert (h1 : plain (runtime := RuntimeModel.runtime) exampleNames).
  { intros f Hf. unfold exampleNames in Hf.
    repeat (apply elem_of_cons in Hf as [->|Hf]; [reflexivity|]).
    inversion Hf. }
  assert (h2 : collates (runtime := RuntimeModel.runtime) exampleNames)
    by (intros a b _ _; reflexivity).
  refine (conj h1 (conj h2 _)).
  exact (reconcile_example RuntimeModel.runtime h1 h2).
Defined.

End WatchFacts.

(** * Further properties of the code *)

(** ** Relations that every step of the resolver respects

    The resolver changes its state only by calling the host, marking a key,
    and calling one of the two callbacks of the dispatcher.  A relation
    between states that is reflexive and transitive and holds across each
    of these steps holds across every call of [resolveCode]. *)

Module Stepwise.
Import CodeResolver CodeResolver.Notations ResolverFacts.
Section Relation.

Context {pathUtils : PathUtils} {ioHost : IFileSystemObject}.
Context (compilationSettings : CompilationSettings).
Context (preProcessFile : SourceUnit.t -> CompilationSettings -> IPreProcessedFileInfo).
Context {D : Type} {resolutionDispatcher : IResolutionDispatcher D}.

#[local] Abbreviation State := (State D).
#[local] Abbreviation resolveCode := (resolveCode compilationSettings preProcessFile).
#[local] Abbreviation caseFold := (caseFold compilationSettings).

Variable R : State -> State -> Prop.

Hypothesis R_refl : forall st, R st st.
Hypothesis R_trans : forall st1 st2 st3, R st1 st2 -> R st2 st3 -> R st1 st3.
Hypothesis R_host : forall st e, isHostCall e = true -> R st (traced st [e]).
Hypothesis R_visit : forall st k,
  isVisited st k = false ->
  R st (mkState (<[k := true]> (visited st)) (trace st ++ [Visit k]) (dispatched st)).
Hypothesis R_error : forall st errorFile fileReference errorMessage,
  R st (mkState (visited st)
          (trace st ++ [PostResolutionError errorFile fileReference errorMessage])
          (postResolutionError errorFile fileReference errorMessage (dispatched st))).
Hypothesis R_post : forall st path content refs,
  R st (mkState (visited st)
          (trace st ++
           [PostResolution path (SourceUnit.mk path (Some content) (Some refs))])
          (postResolution path (SourceUnit.mk path (Some content) (Some refs))
             (dispatched st))).

Definition stepwise {A} (m : M D A) : Prop :=
  forall st a st', m st = Some (a, st') -> R st st'.

Lemma stepwise_ret {A} (a : A) : stepwise (ret a).
Proof. intros st a' st' [= <- <-]. apply R_refl. Qed.

Lemma stepwise_bind {A B} (m : M D A) (f : A -> M D B) :
  stepwise m -> (forall a, stepwise (f a)) -> stepwise (bind m f).
Proof.
  intros Hm Hf st b st'. unfold bind.
  destruct (m st) as [[a st1]|] eqn:E; [|discriminate].
  intros Hfa. eapply R_trans; [eapply Hm | eapply Hf]; eauto.
Qed.

Lemma R_hostCalls events st :
  forallb isHostCall events = true -> R st (traced st events).
Proof.
  revert st. induction events as [|e events IH]; intros st; simpl.
  - intros _. rewrite traced_nil. apply R_refl.
  - intros H. apply andb_prop in H as [He Hes].
    change (e :: events) with ([e] ++ events). rewrite <- traced_traced.
    eapply R_trans; [apply R_host; exact He | apply IH; exact Hes].
Qed.

Lemma readEvents_hostCalls n : forallb isHostCall (readEvents n) = true.
Proof.
  unfold readEvents. induction (attempts readFile (directCandidates n));
    [reflexivity | exact IHl].
Qed.

Lemma findEvents_hostCalls parent n : forallb isHostCall (findEvents parent n) = true.
Proof.
  unfold findEvents. induction (attempts (findFile parent) (searchCandidates n));
    [reflexivity | exact IHl].
Qed.

Lemma stepwise_callPostResolutionError errorFile fileReference errorMessage :
  stepwise (callPostResolutionError errorFile fileReference errorMessage).
Proof. intros st a st' [= <- <-]. apply R_error. Qed.

Section Body.

Variable rc : string -> string -> bool -> M D bool.
Hypothesis rc_stepwise : forall r p s, stepwise (rc r p s).

Lemma stepwise_resolveReferences resolvedFilePath rootDir refs :
  stepwise (resolveReferences rc resolvedFilePath rootDir refs).
Proof.
  induction refs as [|fileReference rest IH]; simpl; [apply stepwise_ret|].
  destruct (String.eqb resolvedFilePath _).
  - apply stepwise_bind;
      [apply stepwise_callPostResolutionError | intros _; exact IH].
  - apply stepwise_bind; [apply rc_stepwise|]. intros r.
    apply stepwise_bind; [|intros _; exact IH].
    destruct (negb r);
      [apply stepwise_callPostResolutionError | apply stepwise_ret].
Qed.

Lemma stepwise_resolveImports resolvedFilePath rootDir imports :
  stepwise (resolveImports rc resolvedFilePath rootDir imports).
Proof.
  induction imports as [|fileImport rest IH]; simpl; [apply stepwise_ret|].
  apply stepwise_bind; [apply rc_stepwise|]. intros r.
  apply stepwise_bind; [|intros _; exact IH].
  destruct (negb r);
    [apply stepwise_callPostResolutionError | apply stepwise_ret].
Qed.

Lemma stepwise_resolveDependencies resolvedFile :
  stepwise (resolveDependencies compilationSettings preProcessFile rc resolvedFile).
Proof.
  destruct resolvedFile as [[[content|] path]|]; simpl; try apply stepwise_ret.
  apply stepwise_bind; [apply stepwise_resolveReferences | intros _].
  apply stepwise_bind; [apply stepwise_resolveImports | intros _].
  intros st a st' [= <- <-]. apply R_post.
Qed.

Lemma stepwise_afterAcquisition k resolvedFile (st st' : State) r :
  isVisited st k = false ->
  (markVisited k ;;;
   resolveDependencies compilationSettings preProcessFile rc resolvedFile ;;;
   ret true) st = Some (r, st') ->
  R st st'.
Proof.
  intros Hk. unfold bind at 1. rewrite markVisited_eq. intros H.
  eapply R_trans; [apply R_visit; exact Hk|].
  revert H. apply stepwise_bind;
    [apply stepwise_resolveDependencies | intros _; apply stepwise_ret].
Qed.

Lemma stepwise_resolveCodeBody referencePath parentPath performSearch :
  stepwise (resolveCodeBody compilationSettings preProcessFile rc
              referencePath parentPath performSearch).
Proof.
  intros st r st'. unfold resolveCodeBody.
  destruct (isVisited st _) eqn:Hv.
  { intros [= <- <-]. apply R_refl. }
  destruct (readsDirectly referencePath performSearch).
  - unfold bind at 1. rewrite readWithFallback_eq.
    destruct (readResult _) as [rf|].
    + intros H. eapply R_trans; [apply R_hostCalls, readEvents_hostCalls|].
      eapply stepwise_afterAcquisition; [|exact H]. exact Hv.
    + intros [= <- <-]. apply R_hostCalls, readEvents_hostCalls.
  - unfold bind at 1. rewrite findWithFallback_eq.
    destruct (findResult _ _) as [f|].
    + intros H. eapply R_trans; [apply R_hostCalls, findEvents_hostCalls|].
      eapply stepwise_afterAcquisition; [|exact H]. exact Hv.
    + intros [= <- <-]. apply R_hostCalls, findEvents_hostCalls.
Qed.

End Body.

Lemma stepwise_resolveCode fuel referencePath parentPath performSearch :
  stepwise (resolveCode fuel referencePath parentPath performSearch).
Proof.
  revert referencePath parentPath performSearch.
  induction fuel as [|fuel IH]; intros r p s; simpl.
  - intros st a st'; discriminate.
  - apply stepwise_resolveCodeBody. exact IH.
Qed.

End Relation.
End Stepwise.

(** ** What a call leaves in the trace and in the dispatcher *)

Module TraceFacts.
Import CodeResolver CodeResolver.Notations ResolverFacts.
Section Facts.

Context {pathUtils : PathUtils} {ioHost : IFileSystemObject}.
Context (compilationSettings : CompilationSettings).
Context (preProcessFile : SourceUnit.t -> CompilationSettings -> IPreProcessedFileInfo).
Context {D : Type} {resolutionDispatcher : IResolutionDispatcher D}.

#[local] Abbreviation State := (State D).
#[local] Abbreviation resolveCode := (resolveCode compilationSettings preProcessFile).

(** The dispatcher after the callbacks recorded in [events] have been
    applied to it in order. *)
Fixpoint replay (events : list Event) (d : D) : D :=
  match events with
  | [] => d
  | PostResolutionError f r m :: rest => replay rest (postResolutionError f r m d)
  | PostResolution p u :: rest => replay rest (postResolution p u d)
  | _ :: rest => replay rest d
  end.

(** A [postResolution] call hands over a unit that carries the path of the
    call, a loaded text, and its list of references. *)
Definition loaded (e : Event) : Prop :=
  match e with
  | PostResolution p u =>
    SourceUnit.path u = p /\ is_Some (SourceUnit.content u) /\
    is_Some (SourceUnit.referencedFiles u)
  | _ => True
  end.

Definition follows (st st' : State) : Prop :=
  exists rest,
    trace st' = trace st ++ rest /\
    dispatched st' = replay rest (dispatched st) /\
    Forall loaded rest /\
    forall k, isVisited st' k = true <-> isVisited st k = true \/ k ∈ visitKeys rest.

Lemma replay_app e1 e2 d : replay (e1 ++ e2) d = replay e2 (replay e1 d).
Proof.
  revert d. induction e1 as [|e e1 IH]; intros d; simpl; [reflexivity|].
  destruct e; apply IH.
Qed.

Lemma follows_refl st : follows st st.
Proof.
  exists []. rewrite app_nil_r. repeat split; auto.
  - intros [H|H]; [exact H | inversion H].
Qed.

Lemma follows_trans st1 st2 st3 : follows st1 st2 -> follows st2 st3 -> follows st1 st3.
Proof.
  intros (r1 & T1 & D1 & L1 & V1) (r2 & T2 & D2 & L2 & V2). exists (r1 ++ r2).
  split; [now rewrite T2, T1, app_assoc|].
  split; [now rewrite replay_app, <- D1|].
  split; [now apply Forall_app|].
  intros k. rewrite V2, V1, visitKeys_app, elem_of_app. tauto.
Qed.

Lemma follows_host (st : State) e : isHostCall e = true -> follows st (traced st [e]).
Proof.
  intros He. exists [e]. split; [reflexivity|].
  split; [destruct e; try discriminate; reflexivity|].
  split; [constructor; [destruct e; try discriminate; exact I | constructor]|].
  intros k. rewrite isVisited_traced.
  split; [now left | intros [H|H]; [exact H|]].
  destruct e; try discriminate; inversion H.
Qed.

Lemma follows_visit (st : State) k :
  isVisited st k = false ->
  follows st (mkState (<[k := true]> (visited st)) (trace st ++ [Visit k])
                (dispatched st)).
Proof.
  intros _. exists [Visit k]. split; [reflexivity|]. split; [reflexivity|].
  split; [repeat constructor|].
  intros k'. rewrite isVisited_insert. simpl. rewrite list_elem_of_singleton.
  destruct (decide (k = k')); [subst; tauto|].
  split; [now left | intros [H|H]; [exact H | congruence]].
Qed.

Lemma follows_error (st : State) errorFile fileReference errorMessage :
  follows st
    (mkState (visited st)
       (trace st ++ [PostResolutionError errorFile fileReference errorMessage])
       (postResolutionError errorFile fileReference errorMessage (dispatched st))).
Proof.
  eexists. split; [reflexivity|]. split; [reflexivity|].
  split; [repeat constructor|].
  intros k. split; [now left | intros [H|H]; [exact H | inversion H]].
Qed.

Lemma follows_post (st : State) path content refs :
  follows st
    (mkState (visited st)
       (trace st ++
        [PostResolution path (SourceUnit.mk path (Some content) (Some refs))])
       (postResolution path (SourceUnit.mk path (Some content) (Some refs))
          (dispatched st))).
Proof.
  eexists. split; [reflexivity|]. split; [reflexivity|].
  split; [constructor; [simpl; eauto | constructor]|].
  intros k. split; [now left | intros [H|H]; [exact H | inversion H]].
Qed.

(** Across a call the trace is extended, the dispatcher is what its
    callbacks made of it, every dispatched unit is loaded, and the visited
    keys are the ones from before and the ones marked. *)
Lemma follows_resolveCode fuel referencePath parentPath performSearch
    (st st' : State) r :
  resolveCode fuel referencePath parentPath performSearch st = Some (r, st') ->
  follows st st'.
Proof.
  apply (Stepwise.stepwise_resolveCode compilationSettings preProcessFile follows
           follows_refl follows_trans follows_host follows_visit follows_error
           follows_post).
Qed.

End Facts.
End TraceFacts.

(** ** Further properties of single calls *)

Module CallFacts.
Import CodeResolver CodeResolver.Notations ResolverFacts TraceFacts.
Section Facts.

Context {pathUtils : PathUtils} {ioHost : IFileSystemObject}.
Context (compilationSettings : CompilationSettings).
Context (preProcessFile : SourceUnit.t -> CompilationSettings -> IPreProcessedFileInfo).
Context {D : Type} {resolutionDispatcher : IResolutionDispatcher D}.

#[local] Abbreviation State := (State D).
#[local] Abbreviation resolveCode := (resolveCode compilationSettings preProcessFile).
#[local] Abbreviation caseFold := (caseFold compilationSettings).
#[local] Abbreviation absoluteModuleID := (absoluteModuleID compilationSettings).

(** The unit that is built from a text read at [path]. *)
Definition unitOf (path content : string) : SourceUnit.t :=
  SourceUnit.mk path (Some content)
    (Some (referencedFiles
             (preProcessFile (SourceUnit.mk path (Some content) None)
                compilationSettings))).

Lemma afterAcquisition_shape fuel k path content (st st' : State) r :
  (markVisited k ;;;
   resolveDependencies compilationSettings preProcessFile (resolveCode fuel)
     (Some (IResolvedFile.mk (Some content) path)) ;;;
   ret true) st = Some (r, st') ->
  r = true /\
  exists nested,
    trace st'
    = trace st ++ Visit k :: nested ++ [PostResolution path (unitOf path content)].
Proof.
  intros H. split; [eapply afterAcquisition_returns_true; exact H|].
  revert H. unfold bind at 1. rewrite markVisited_eq. unfold bind.
  destruct (resolveDependencies _ _ _ _ _) as [[[] st1]|] eqn:E; [|discriminate].
  intros [= _ <-].
  apply own_dispatch_is_last in E as [nested E]. exists nested.
  rewrite E. simpl. now rewrite <- app_assoc.
Qed.

(** Within a reference graph, a call on a key that is not visited and for
    which the host yields a file with a text returns [true]; it has made
    its host calls, marked the key, resolved what the file refers to, and
    last of all dispatched the unit. *)
Lemma acquired_call_returns graph fuel referencePath parentPath performSearch
    (st : State) path content :
  closed compilationSettings preProcessFile graph ->
  (referencePath, parentPath, performSearch) ∈ graph ->
  remaining compilationSettings graph st < S fuel ->
  isVisited st (absoluteModuleID referencePath parentPath performSearch) = false ->
  acquisition referencePath parentPath performSearch
  = Some (IResolvedFile.mk (Some content) path) ->
  exists (st' : State) nested,
    resolveCode (S fuel) referencePath parentPath performSearch st
    = Some (true, st') /\
    trace st'
    = trace st ++ acquisitionEvents referencePath parentPath performSearch ++
      Visit (absoluteModuleID referencePath parentPath performSearch)
      :: nested ++ [PostResolution path (unitOf path content)].
Proof.
  intros Hclosed Hc Hlt Hv Hacq.
  set (k := absoluteModuleID referencePath parentPath performSearch) in *.
  set (events := acquisitionEvents referencePath parentPath performSearch).
  change (resolveCode (S fuel) referencePath parentPath performSearch st)
    with (resolveCodeBody compilationSettings preProcessFile (resolveCode fuel)
            referencePath parentPath performSearch st).
  rewrite (resolveCodeBody_acquired compilationSettings preProcessFile
             _ _ _ _ _ _ Hv Hacq).
  unfold bind at 1. rewrite markVisited_eq. fold k events.
  destruct (progress_resolveDependencies compilationSettings preProcessFile
              graph fuel (resolveCode fuel)
              (progress_resolveCode compilationSettings preProcessFile graph
                 Hclosed fuel)
              (IResolvedFile.mk (Some content) path)
              (Hclosed _ _ Hc Hacq)
              (mkState (<[k := true]> (visited (traced st events)))
                 (trace (traced st events) ++ [Visit k])
                 (dispatched (traced st events))))
    as ([] & s1 & E & _).
  { exact (remaining_marked compilationSettings graph
             (referencePath, parentPath, performSearch) st events fuel
             Hc Hv Hlt). }
  destruct (own_dispatch_is_last compilationSettings preProcessFile
              fuel path content _ s1 E) as (nested & Ht).
  exists s1, nested. unfold bind. rewrite E. split; [reflexivity|].
  rewrite Ht. unfold traced; simpl. now rewrite <- !app_assoc.
Qed.

(** X1.  Within a reference graph, a call that reads directly on a key
    that is not visited tries the normalised path, then the path with the
    other source suffix, then the legacy declaration suffix, then the
    primary declaration suffix, and stops at the first read that
    succeeds.  It then marks the key, resolves what the file refers to,
    and last of all dispatches the unit, whose path is the path that was
    read; the call returns [true]. *)
Theorem direct_call_shape graph fuel referencePath parentPath performSearch
    (st : State) p content :
  let n := normalizePath referencePath parentPath performSearch in
  let p2 := swapSourceSuffix n in
  let p3 := changePathToDSTR p2 in
  let p4 := changePathToDTS p3 in
  closed compilationSettings preProcessFile graph ->
  (referencePath, parentPath, performSearch) ∈ graph ->
  remaining compilationSettings graph st < S fuel ->
  isVisited st (caseFold n) = false ->
  readsDirectly referencePath performSearch = true ->
  firstHit readFile [n; p2; p3; p4] = Some (p, content) ->
  exists (st' : State) nested,
    resolveCode (S fuel) referencePath parentPath performSearch st
    = Some (true, st') /\
    trace st'
    = trace st ++
      map (fun a => ReadFile (fst a) (bool_decide (is_Some (snd a))))
          (attempts readFile [n; p2; p3; p4]) ++
      Visit (caseFold n) :: nested ++ [PostResolution p (unitOf p content)].
Proof.
  intros n p2 p3 p4 Hclosed Hc Hlt Hv Hd Hhit.
  assert (Hacq : acquisition referencePath parentPath performSearch
                 = Some (IResolvedFile.mk (Some content) p)).
  { unfold acquisition, readResult, directCandidates. rewrite Hd.
    fold n p2 p3 p4. now rewrite Hhit. }
  destruct (acquired_call_returns graph fuel _ _ _ st p content
              Hclosed Hc Hlt Hv Hacq) as (st' & nested & Hrun & Ht).
  exists st', nested. split; [exact Hrun|]. rewrite Ht.
  unfold acquisitionEvents. rewrite Hd. reflexivity.
Qed.

(** X2.  Within a reference graph, a call that searches on a key that is
    not visited, and whose probes hit a file with a text, marks the key
    after the probes, resolves what the file refers to, and last of all
    dispatches the unit under the path that the host reported, with its
    quotes stripped and its slashes made forward slashes; the call
    returns [true]. *)
Theorem search_call_shape graph fuel referencePath parentPath performSearch
    (st : State) name f content :
  let n := normalizePath referencePath parentPath performSearch in
  let p := switchToForwardSlashes (stripQuotes (IResolvedFile.path f)) in
  closed compilationSettings preProcessFile graph ->
  (referencePath, parentPath, performSearch) ∈ graph ->
  remaining compilationSettings graph st < S fuel ->
  isVisited st (caseFold n) = false ->
  readsDirectly referencePath performSearch = false ->
  firstHit (findFile parentPath) (searchCandidates n) = Some (name, f) ->
  IResolvedFile.content f = Some content ->
  exists (st' : State) nested,
    resolveCode (S fuel) referencePath parentPath performSearch st
    = Some (true, st') /\
    trace st'
    = trace st ++ findEvents parentPath n ++
      Visit (caseFold n) :: nested ++ [PostResolution p (unitOf p content)].
Proof.
  intros n p Hclosed Hc Hlt Hv Hd Hhit Hcontent.
  assert (Hacq : acquisition referencePath parentPath performSearch
                 = Some (IResolvedFile.mk (Some content) p)).
  { unfold acquisition, findResult. rewrite Hd. fold n.
    now rewrite Hhit, Hcontent. }
  destruct (acquired_call_returns graph fuel _ _ _ st p content
              Hclosed Hc Hlt Hv Hacq) as (st' & nested & Hrun & Ht).
  exists st', nested. split; [exact Hrun|]. rewrite Ht.
  unfold acquisitionEvents. rewrite Hd. reflexivity.
Qed.

(** X3.  When the search hits a file for which the host gives no text, the
    key is marked all the same, nothing is read further, nothing is
    dispatched and no error is reported; the call returns [true], and the
    key being visited, so does every later call for it. *)
Theorem search_hit_without_content fuel referencePath parentPath performSearch
    (st : State) name f :
  let n := normalizePath referencePath parentPath performSearch in
  isVisited st (caseFold n) = false ->
  readsDirectly referencePath performSearch = false ->
  firstHit (findFile parentPath) (searchCandidates n) = Some (name, f) ->
  IResolvedFile.content f = None ->
  resolveCode (S fuel) referencePath parentPath performSearch st
  = Some (true,
          mkState (<[caseFold n := true]> (visited st))
            (trace st ++ findEvents parentPath n ++ [Visit (caseFold n)])
            (dispatched st)).
Proof.
  intros n Hv Hd Hhit Hc.
  assert (Hres : findResult parentPath n = Some f).
  { unfold findResult. now rewrite Hhit. }
  change (resolveCode (S fuel) referencePath parentPath performSearch st)
    with (resolveCodeBody compilationSettings preProcessFile (resolveCode fuel)
            referencePath parentPath performSearch st).
  rewrite (resolveCodeBody_search_hit compilationSettings preProcessFile
             _ _ _ _ _ Hv _ Hd Hres), Hc.
  unfold bind. rewrite markVisited_eq. simpl.
  unfold ret, traced. simpl. now rewrite <- app_assoc.
Qed.

(** X4.  Within a reference graph, a call that reads directly on a key
    that is not visited returns, and it returns [true] exactly when one of
    its read attempts succeeds; whether the references of the file could
    be resolved has no part in the result. *)
Theorem direct_call_result graph fuel referencePath parentPath performSearch
    (st : State) :
  closed compilationSettings preProcessFile graph ->
  (referencePath, parentPath, performSearch) ∈ graph ->
  remaining compilationSettings graph st < S fuel ->
  isVisited st (absoluteModuleID referencePath parentPath performSearch) = false ->
  readsDirectly referencePath performSearch = true ->
  exists r (st' : State),
    resolveCode (S fuel) referencePath parentPath performSearch st
    = Some (r, st') /\
    (r = true <->
     exists p content,
       firstHit readFile
         (directCandidates (normalizePath referencePath parentPath performSearch))
       = Some (p, content)).
Proof.
  intros Hclosed Hc Hlt Hv Hd.
  destruct (firstHit readFile
              (directCandidates
                 (normalizePath referencePath parentPath performSearch)))
    as [[p content]|] eqn:Hhit.
  - assert (Hacq : acquisition referencePath parentPath performSearch
                   = Some (IResolvedFile.mk (Some content) p)).
    { unfold acquisition, readResult. now rewrite Hd, Hhit. }
    destruct (acquired_call_returns graph fuel _ _ _ st p content
                Hclosed Hc Hlt Hv Hacq) as (st' & nested & Hrun & _).
    exists true, st'. split; [exact Hrun|]. split; [eauto | reflexivity].
  - assert (Hacq : acquisition referencePath parentPath performSearch = None).
    { unfold acquisition, readResult. now rewrite Hd, Hhit. }
    exists false, (traced st (acquisitionEvents referencePath parentPath
                               performSearch)).
    split.
    + change (resolveCode (S fuel) referencePath parentPath performSearch st)
        with (resolveCodeBody compilationSettings preProcessFile
                (resolveCode fuel) referencePath parentPath performSearch st).
      rewrite (resolveCodeBody_not_acquired compilationSettings preProcessFile
                 _ _ _ _ _ Hv Hacq).
      now rewrite Hd.
    + split; [discriminate | intros (p & c & H); discriminate].
Qed.

(** *** A file whose references and imports lead to no further file *)

(** What the loop over the references adds to the trace for one reference,
    in a state [s]: for a reference of the file to itself, the error; for
    a reference whose key is visited, nothing; for a reference that the
    host cannot read, the read attempts and the error. *)
Definition referenceEvents (s : State) (resolvedFilePath rootDir : string)
    (r : IFileReference.t) : list Event :=
  if isSelfReference resolvedFilePath rootDir r
  then [PostResolutionError resolvedFilePath r
          "Incorrect reference: File contains reference to itself."]
  else if isVisited s (absoluteModuleID (IFileReference.path r) rootDir false)
  then []
  else acquisitionEvents (IFileReference.path r) rootDir false ++
       [PostResolutionError resolvedFilePath r
          ("Incorrect reference: referenced file: " +:+ dquote +:+
           IFileReference.path r +:+ dquote +:+ " cannot be resolved.")].

(** The same for one import: for an import whose key is visited, nothing;
    for one that the host does not yield, the host calls, and the error
    when the call has read directly. *)
Definition importEvents (s : State) (resolvedFilePath rootDir : string)
    (i : IFileReference.t) : list Event :=
  if isVisited s (absoluteModuleID (IFileReference.path i) rootDir true)
  then []
  else acquisitionEvents (IFileReference.path i) rootDir true ++
       (if readsDirectly (IFileReference.path i) true
        then [PostResolutionError resolvedFilePath i
                ("Incorrect reference: imported file: " +:+ dquote +:+
                 IFileReference.path i +:+ dquote +:+ " cannot be resolved.")]
        else []).

(** A reference is settled in [s] when it is a reference of the file to
    itself, or its key is visited, or the host yields no file for it. *)
Definition settledReference (s : State) (resolvedFilePath rootDir : string)
    (r : IFileReference.t) : Prop :=
  isSelfReference resolvedFilePath rootDir r = true \/
  isVisited s (absoluteModuleID (IFileReference.path r) rootDir false) = true \/
  acquisition (IFileReference.path r) rootDir false = None.

Definition settledImport (s : State) (rootDir : string) (i : IFileReference.t)
    : Prop :=
  isVisited s (absoluteModuleID (IFileReference.path i) rootDir true) = true \/
  acquisition (IFileReference.path i) rootDir true = None.

(** The state with further calls appended to its trace and replayed on
    its dispatcher. *)
Definition advanced (s : State) (events : list Event) : State :=
  mkState (visited s) (trace s ++ events) (replay events (dispatched s)).

Lemma advanced_nil s : advanced s [] = s.
Proof. destruct s. unfold advanced; simpl. now rewrite app_nil_r. Qed.

Lemma advanced_advanced s e1 e2 :
  advanced (advanced s e1) e2 = advanced s (e1 ++ e2).
Proof.
  unfold advanced; simpl. now rewrite <- app_assoc, replay_app.
Qed.

Lemma replay_acquisitionEvents referencePath parentPath performSearch (d : D) :
  replay (acquisitionEvents referencePath parentPath performSearch) d = d.
Proof.
  unfold acquisitionEvents, readEvents, findEvents.
  destruct (readsDirectly referencePath performSearch).
  - induction (attempts readFile _) as [|a l IH]; [reflexivity | exact IH].
  - induction (attempts (findFile parentPath) _) as [|a l IH];
      [reflexivity | exact IH].
Qed.

Lemma traced_acquisitionEvents (s : State) referencePath parentPath performSearch :
  traced s (acquisitionEvents referencePath parentPath performSearch)
  = advanced s (acquisitionEvents referencePath parentPath performSearch).
Proof. unfold traced, advanced. now rewrite replay_acquisitionEvents. Qed.

Lemma resolveReferences_settled fuel resolvedFilePath rootDir refs (s : State) :
  (forall r, r ∈ refs -> settledReference s resolvedFilePath rootDir r) ->
  resolveReferences (resolveCode (S fuel)) resolvedFilePath rootDir refs s
  = Some (tt,
          advanced s
            (concat (map (referenceEvents s resolvedFilePath rootDir) refs))).
Proof.
  assert (Hgen : forall (s0 : State) events,
            (forall r, r ∈ refs -> settledReference s resolvedFilePath rootDir r) ->
            resolveReferences (resolveCode (S fuel)) resolvedFilePath rootDir refs
              (advanced s events)
            = Some (tt,
                    advanced s
                      (events ++
                       concat (map (referenceEvents s resolvedFilePath rootDir)
                                 refs)))).
  { intros _. induction refs as [|r refs IH]; intros events Hall.
    - simpl. now rewrite app_nil_r.
    - assert (IH' := fun ev => IH ev (fun x Hx =>
                       Hall x (proj2 (elem_of_cons _ _ _) (or_intror Hx)))).
      pose proof (Hall r (proj2 (elem_of_cons _ _ _) (or_introl eq_refl)))
        as Hr.
      cbn [resolveReferences map concat]. unfold referenceEvents at 1.
      unfold settledReference in Hr. unfold isSelfReference in *.
      destruct (String.eqb resolvedFilePath _) eqn:Hself.
      + apply String.eqb_eq in Hself. rewrite <- Hself.
        unfold bind, callPostResolutionError.
        change (mkState (visited (advanced s events))
                  (trace (advanced s events) ++
                   [PostResolutionError resolvedFilePath r
                      "Incorrect reference: File contains reference to itself."])
                  (postResolutionError resolvedFilePath r
                     "Incorrect reference: File contains reference to itself."
                     (dispatched (advanced s events))))
          with (advanced (advanced s events)
                  [PostResolutionError resolvedFilePath r
                     "Incorrect reference: File contains reference to itself."]).
        rewrite advanced_advanced, IH'. now rewrite <- app_assoc.
      + destruct Hr as [Hr|[Hr|Hr]]; [congruence| |].
        * rewrite Hr. unfold bind.
          assert (Hcall : resolveCode (S fuel) (IFileReference.path r) rootDir
                            false (advanced s events)
                          = Some (true, advanced s events)).
          { simpl. apply resolveCodeBody_visited. exact Hr. }
          rewrite Hcall. simpl. apply IH'.
        * destruct (isVisited s _) eqn:Hv.
          { unfold bind.
            assert (Hcall : resolveCode (S fuel) (IFileReference.path r) rootDir
                              false (advanced s events)
                            = Some (true, advanced s events)).
            { simpl. apply resolveCodeBody_visited. exact Hv. }
            rewrite Hcall. simpl. apply IH'. }
          unfold bind.
          assert (Hcall : resolveCode (S fuel) (IFileReference.path r) rootDir
                            false (advanced s events)
                          = Some (false,
                                  advanced (advanced s events)
                                    (acquisitionEvents (IFileReference.path r)
                                       rootDir false))).
          { rewrite <- traced_acquisitionEvents.
            change (resolveCode (S fuel) (IFileReference.path r) rootDir false
                      (advanced s events))
              with (resolveCodeBody compilationSettings preProcessFile
                      (resolveCode fuel) (IFileReference.path r) rootDir false
                      (advanced s events)).
            rewrite (resolveCodeBody_not_acquired compilationSettings
                       preProcessFile _ _ _ _ (advanced s events) Hv Hr).
            unfold readsDirectly. now rewrite orb_true_r. }
          rewrite Hcall. cbn [negb]. unfold callPostResolutionError.
          match goal with
          | |- resolveReferences _ _ _ _ ?st0 = _ =>
            change st0 with
              (advanced (advanced (advanced s events)
                           (acquisitionEvents (IFileReference.path r) rootDir
                              false))
                 [PostResolutionError resolvedFilePath r
                    ("Incorrect reference: referenced file: " +:+ dquote +:+
                     IFileReference.path r +:+ dquote +:+
                     " cannot be resolved.")])
          end.
          rewrite !advanced_advanced, IH'. now rewrite <- !app_assoc. }
  intros Hall. rewrite <- (advanced_nil s) at 1. now rewrite Hgen.
Qed.

Lemma resolveImports_settled fuel resolvedFilePath rootDir imports (s : State) :
  (forall i, i ∈ imports -> settledImport s rootDir i) ->
  resolveImports (resolveCode (S fuel)) resolvedFilePath rootDir imports s
  = Some (tt,
          advanced s
            (concat (map (importEvents s resolvedFilePath rootDir) imports))).
Proof.
  assert (Hgen : forall events,
            (forall i, i ∈ imports -> settledImport s rootDir i) ->
            resolveImports (resolveCode (S fuel)) resolvedFilePath rootDir imports
              (advanced s events)
            = Some (tt,
                    advanced s
                      (events ++
                       concat (map (importEvents s resolvedFilePath rootDir)
                                 imports)))).
  { induction imports as [|i imports IH]; intros events Hall.
    - simpl. now rewrite app_nil_r.
    - assert (IH' := fun ev => IH ev (fun x Hx =>
                       Hall x (proj2 (elem_of_cons _ _ _) (or_intror Hx)))).
      pose proof (Hall i (proj2 (elem_of_cons _ _ _) (or_introl eq_refl)))
        as Hi.
      cbn [resolveImports map concat]. unfold importEvents at 1.
      assert (Hvisited :
        isVisited s (absoluteModuleID (IFileReference.path i) rootDir true) = true ->
        resolveCode (S fuel) (IFileReference.path i) rootDir true
          (advanced s events)
        = Some (true, advanced s events)).
      { intros Hv. simpl. apply resolveCodeBody_visited. exact Hv. }
      destruct (isVisited s _) eqn:Hv.
      { unfold bind. rewrite (Hvisited eq_refl). simpl. apply IH'. }
      destruct Hi as [Hi|Hi]; [congruence|].
      unfold bind.
      assert (Hcall : resolveCode (S fuel) (IFileReference.path i) rootDir
                        true (advanced s events)
                      = Some (negb (readsDirectly (IFileReference.path i) true),
                              advanced (advanced s events)
                                (acquisitionEvents (IFileReference.path i)
                                   rootDir true))).
      { rewrite <- traced_acquisitionEvents.
        change (resolveCode (S fuel) (IFileReference.path i) rootDir true
                  (advanced s events))
          with (resolveCodeBody compilationSettings preProcessFile
                  (resolveCode fuel) (IFileReference.path i) rootDir true
                  (advanced s events)).
        exact (resolveCodeBody_not_acquired compilationSettings
                 preProcessFile _ _ _ _ (advanced s events) Hv Hi). }
      rewrite Hcall.
      destruct (readsDirectly (IFileReference.path i) true); cbn [negb].
      + unfold callPostResolutionError.
        match goal with
        | |- resolveImports _ _ _ _ ?st0 = _ =>
          change st0 with
            (advanced (advanced (advanced s events)
                         (acquisitionEvents (IFileReference.path i) rootDir
                            true))
               [PostResolutionError resolvedFilePath i
                  ("Incorrect reference: imported file: " +:+ dquote +:+
                   IFileReference.path i +:+ dquote +:+
                   " cannot be resolved.")])
        end.
        rewrite !advanced_advanced, IH'. now rewrite <- !app_assoc.
      + unfold ret. rewrite advanced_advanced, IH'.
        now rewrite app_nil_r, <- !app_assoc. }
  intros Hall. rewrite <- (advanced_nil s) at 1. now rewrite Hgen.
Qed.

(** X5.  A call acquires a file each of whose references and imports is
    settled once the key of the call is marked: it resolves to the file
    itself, or has a key that is visited, or names a file that the host
    does not yield.  The call returns [true].  After its host calls and
    the marking of its key it has gone through the references in order
    and then through the imports in order.  A reference without search
    from the directory of the file, an import with search; for a
    reference of the file to itself one error and no call; for a visited
    key nothing; for a reference that cannot be read the four read
    attempts and one error, for the referring file and with the text of
    the reference in the message; for an import that is not found the
    host calls, and one error only when the import was read directly.
    Last of all the unit is dispatched; no further key is marked, and the
    dispatcher has seen exactly these callbacks. *)
Theorem settled_dependencies_are_reported fuel referencePath parentPath
    performSearch (st : State) path content :
  let k := absoluteModuleID referencePath parentPath performSearch in
  let info :=
    preProcessFile (SourceUnit.mk path (Some content) None) compilationSettings in
  let rootDir := dirName path in
  let resolvedFilePath := resolvePath path in
  let marked :=
    mkState (D:=D) (<[k := true]> (visited st)) (trace st) (dispatched st) in
  let added :=
    acquisitionEvents referencePath parentPath performSearch ++
    Visit k ::
    concat (map (referenceEvents marked resolvedFilePath rootDir)
              (referencedFiles info)) ++
    concat (map (importEvents marked resolvedFilePath rootDir)
              (importedFiles info)) ++
    [PostResolution path (unitOf path content)] in
  isVisited st k = false ->
  acquisition referencePath parentPath performSearch
  = Some (IResolvedFile.mk (Some content) path) ->
  (forall r, r ∈ referencedFiles info ->
     settledReference marked resolvedFilePath rootDir r) ->
  (forall i, i ∈ importedFiles info -> settledImport marked rootDir i) ->
  resolveCode (S (S fuel)) referencePath parentPath performSearch st
  = Some (true,
          mkState (<[k := true]> (visited st)) (trace st ++ added)
            (replay added (dispatched st))).
Proof.
  intros k info rootDir resolvedFilePath marked added Hv Hacq Hrefs Himps.
  set (events := acquisitionEvents referencePath parentPath performSearch) in *.
  change (resolveCode (S (S fuel)) referencePath parentPath performSearch st)
    with (resolveCodeBody compilationSettings preProcessFile
            (resolveCode (S fuel)) referencePath parentPath performSearch st).
  rewrite (resolveCodeBody_acquired compilationSettings preProcessFile
             _ _ _ _ _ _ Hv Hacq).
  fold k events. unfold bind at 1. rewrite markVisited_eq.
  set (s0 := mkState (D:=D) (<[k := true]> (visited (traced st events)))
               (trace (traced st events) ++ [Visit k])
               (dispatched (traced st events))).
  assert (Hs0 : s0 = advanced marked (events ++ [Visit k])).
  { unfold s0, advanced, marked, traced; simpl. rewrite replay_app.
    unfold events. rewrite replay_acquisitionEvents. simpl.
    now rewrite <- app_assoc. }
  assert (Hsame : forall key, isVisited s0 key = isVisited marked key)
    by reflexivity.
  unfold resolveDependencies. fold info rootDir resolvedFilePath.
  unfold bind at 1. unfold bind at 1.
  rewrite (resolveReferences_settled fuel resolvedFilePath rootDir
             (referencedFiles info) s0)
    by (intros r Hr; exact (Hrefs r Hr)).
  unfold bind at 1.
  set (refsDone := concat (map (referenceEvents s0 resolvedFilePath rootDir)
                             (referencedFiles info))).
  assert (Himps' : forall i, i ∈ importedFiles info ->
                     settledImport (advanced s0 refsDone) rootDir i)
    by (intros i Hi; exact (Himps i Hi)).
  rewrite (resolveImports_settled fuel resolvedFilePath rootDir
             (importedFiles info) (advanced s0 refsDone) Himps').
  set (impsDone := concat (map (importEvents (advanced s0 refsDone)
                                  resolvedFilePath rootDir)
                             (importedFiles info))).
  unfold callPostResolution, ret. cbn [SourceUnit.path].
  do 2 f_equal.
  assert (Hrefs_eq : refsDone
                     = concat (map (referenceEvents marked resolvedFilePath
                                      rootDir) (referencedFiles info)))
    by reflexivity.
  assert (Himps_eq : impsDone
                     = concat (map (importEvents marked resolvedFilePath
                                      rootDir) (importedFiles info)))
    by reflexivity.
  unfold added. rewrite <- Hrefs_eq, <- Himps_eq.
  rewrite Hs0. unfold advanced, marked; simpl.
  rewrite !replay_app. simpl. rewrite !replay_app. simpl.
  unfold events. rewrite ?replay_acquisitionEvents.
  now rewrite <- !app_assoc.
Qed.

(** X7.  For a reference path that is relative or rooted, [performSearch]
    makes no difference: the call normalises the path in the same way and
    reads directly in both cases.  An import written with a relative or
    rooted path is therefore resolved like an explicit reference. *)
Theorem performSearch_is_ignored_unless_bare fuel referencePath parentPath
    (st : State) :
  isRelative referencePath = true \/ isRooted referencePath = true ->
  resolveCode fuel referencePath parentPath true st
  = resolveCode fuel referencePath parentPath false st.
Proof.
  intros Hshape. destruct fuel as [|fuel]; [reflexivity|]. simpl.
  unfold resolveCodeBody.
  assert (Hn : normalizePath referencePath parentPath true
               = normalizePath referencePath parentPath false).
  { unfold normalizePath, initialPath, isRootedPath.
    destruct (isRelative referencePath); [reflexivity|].
    destruct Hshape as [H|H]; [discriminate|]. now rewrite H. }
  assert (Hd : readsDirectly referencePath true = true
               /\ readsDirectly referencePath false = true).
  { unfold readsDirectly, isRootedPath.
    destruct (isRelative referencePath); [split; reflexivity|].
    destruct Hshape as [H|H]; [discriminate|]. rewrite H. split; reflexivity. }
  destruct Hd as [Hd1 Hd2]. rewrite Hn, Hd1, Hd2. reflexivity.
Qed.

(** X8.  [postResolution] is only ever called with a unit that carries the
    path of the call, a loaded text, and its list of references: whatever
    a call adds to the trace, every dispatch in it is of this kind. *)
Theorem dispatched_units_are_loaded fuel referencePath parentPath performSearch
    (st st' : State) r :
  resolveCode fuel referencePath parentPath performSearch st = Some (r, st') ->
  exists rest,
    trace st' = trace st ++ rest /\
    forall p u, PostResolution p u ∈ rest ->
      SourceUnit.path u = p /\ is_Some (SourceUnit.content u) /\
      is_Some (SourceUnit.referencedFiles u).
Proof.
  intros Hrun.
  destruct (follows_resolveCode _ _ _ _ _ _ _ _ _ Hrun) as (rest & Ht & _ & Hl & _).
  exists rest. split; [exact Ht|]. intros p u Hin.
  rewrite Forall_forall in Hl. exact (Hl _ Hin).
Qed.

(** X9.  A call never takes a key out of [visited], and it adds exactly the
    keys that it marks: a key is visited after the call if and only if it
    was visited before or the call marked it.  The state of the dispatcher
    after the call is the result of the callbacks that were called, in
    their order. *)
Theorem visited_grows_by_marked_keys fuel referencePath parentPath performSearch
    (st st' : State) r :
  resolveCode fuel referencePath parentPath performSearch st = Some (r, st') ->
  exists rest,
    trace st' = trace st ++ rest /\
    dispatched st' = replay rest (dispatched st) /\
    forall k, isVisited st' k = true <-> isVisited st k = true \/ k ∈ visitKeys rest.
Proof.
  intros Hrun.
  destruct (follows_resolveCode _ _ _ _ _ _ _ _ _ Hrun) as (rest & Ht & Hd & _ & Hv).
  exists rest. auto.
Qed.

End Facts.
End CallFacts.

(** ** The error reporter and [BatchCompiler.resolve] (batch compiler driver,
    lines 20-43, 57-59 and 111-129) *)

Module ErrorReporter.

(** What was handed to [ioHost.stderr], in order. *)
Inductive Output : Type :=
| Written (s : string)
| WrittenLine (s : string).

Record t : Type := mk {
  hasErrors : bool;
  stderr : list Output }.

(** The constructor: nothing written, no errors. *)
Definition create : t := mk false [].

Definition Write (s : string) (r : t) : t := mk true (stderr r ++ [Written s]).

Definition WriteLine (s : string) (r : t) : t :=
  mk true (stderr r ++ [WrittenLine s]).

Definition Close (r : t) : t := r.

Definition reset (r : t) : t := mk false (stderr r).

End ErrorReporter.

Module BatchCompiler.
Import CodeResolver.

Section Resolve.

Context {pathUtils : PathUtils} {ioHost : IFileSystemObject} {runtime : Js.Runtime}.
Context (preProcessFile : SourceUnit.t -> CompilationSettings -> IPreProcessedFileInfo).
Context (compilationSettings : CompilationSettings).

(** [v != undefined] for what a property access yields. *)
Definition isDefined {A} (p : Js.Property A) : bool :=
  match p with
  | Js.Undefined => false
  | Js.Own _ | Js.Inherited => true
  end.

(** [CommandLineHost.isResolved], lines 57-59.  When [pathMap] owns the
    path, its value is a resolved path, and the question is whether
    [resolvedPaths] has a property under the identifier of that path.
    When [pathMap] does not own the path, the argument of
    [getPathIdentifier] is not a string: it is [undefined], or a value
    that [pathMap] inherits under that name.  With case-sensitive
    resolution it is returned as it is and converted to the name of a
    property of [resolvedPaths]; otherwise the call of
    [toLocaleUpperCase] on it raises a [TypeError]. *)
Definition isResolved (pathMap : gmap string string)
    (resolvedPaths : gmap string bool) (path : string) : Js.Completion bool :=
  match Js.get pathMap path with
  | Js.Own p =>
    Js.Normal
      (bool_decide
         (is_Some (resolvedPaths !!
                     CommandLineHost.getPathIdentifier compilationSettings p)))
  | Js.Inherited =>
    if useCaseSensitiveFileResolution compilationSettings
    then Js.Normal (isDefined (Js.get resolvedPaths (Js.inheritedText path)))
    else Js.TypeError
  | Js.Undefined =>
    if useCaseSensitiveFileResolution compilationSettings
    then Js.Normal (isDefined (Js.get resolvedPaths "undefined"))
    else Js.TypeError
  end.

(** Lines 119-124: the line written for an entry that was not resolved. *)
Definition unresolvedMessage (path : string) : string :=
  if negb (isSTRFile path) && negb (isDSTRFile path) &&
     negb (isTSFile path) && negb (isDTSFile path)
  then "Unknown extension for file: " +:+ dquote +:+ path +:+ dquote +:+
       ". Only .ts and .d.ts extensions are allowed."
  else "Error reading file " +:+ dquote +:+ path +:+ dquote +:+
       ": File not found".

(** Lines 116-126: the loop over the entry units after the pass. *)
Fixpoint reportUnresolved (pathMap : gmap string string)
    (resolvedPaths : gmap string bool) (code : list SourceUnit.t)
    (errorReporter : ErrorReporter.t) : Js.Completion ErrorReporter.t :=
  match code with
  | [] => Js.Normal errorReporter
  | unit :: rest =>
    match isResolved pathMap resolvedPaths (SourceUnit.path unit) with
    | Js.TypeError => Js.TypeError
    | Js.Normal true => reportUnresolved pathMap resolvedPaths rest errorReporter
    | Js.Normal false =>
      reportUnresolved pathMap resolvedPaths rest
        (ErrorReporter.WriteLine (unresolvedMessage (SourceUnit.path unit))
           errorReporter)
    end
  end.

(** The lines that the callback [(err) => this.errorReporter.WriteLine(err)]
    of the host received during the pass. *)
Definition writeLines (lines : list string) (errorReporter : ErrorReporter.t)
    : ErrorReporter.t :=
  foldl (fun r line => ErrorReporter.WriteLine line r) errorReporter lines.

(** [BatchCompiler.resolve], lines 111-129, with a fresh resolver and a
    fresh host: the resolved environment and the error reporter
    afterwards. *)
Definition resolve (fuel : nat) (compilationEnvironment : CompilationEnvironment.t)
    (errorReporter : ErrorReporter.t)
    : option (Js.Completion (CompilationEnvironment.t * ErrorReporter.t)) :=
  match CommandLineHost.resolveCompilationEnvironment preProcessFile
          compilationSettings fuel compilationEnvironment ∅ ∅ ∅ with
  | None => None
  | Some (ret, pathMap, st) =>
    let errorReporter :=
      writeLines (CommandLineHost.reported (dispatched st)) errorReporter in
    match reportUnresolved pathMap
            (CommandLineHost.resolvedPaths (dispatched st))
            (CompilationEnvironment.code compilationEnvironment)
            errorReporter with
    | Js.Normal errorReporter => Some (Js.Normal (ret, errorReporter))
    | Js.TypeError => Some Js.TypeError
    end
  end.

End Resolve.
End BatchCompiler.

(** ** Properties of the host's dispatcher and of [BatchCompiler.resolve] *)

Module DriverFacts.
Import CodeResolver CodeResolver.Notations ResolverFacts TraceFacts.
Section Facts.

Context {pathUtils : PathUtils} {ioHost : IFileSystemObject} {runtime : Js.Runtime}.
Context (preProcessFile : SourceUnit.t -> CompilationSettings -> IPreProcessedFileInfo).
Context (compilationSettings : CompilationSettings).

#[local] Abbreviation Resolution := CommandLineHost.Resolution.
#[local] Abbreviation State := (State CommandLineHost.Resolution).
#[local] Abbreviation getPathIdentifier :=
  (CommandLineHost.getPathIdentifier compilationSettings).
#[local] Abbreviation dispatcher :=
  (CommandLineHost.resolutionDispatcher compilationSettings).
#[local] Abbreviation resolveEntries :=
  (CommandLineHost.resolveEntries preProcessFile compilationSettings).

(** The identifier under which the host files a unit. *)
Definition identifier (u : SourceUnit.t) : string :=
  getPathIdentifier (SourceUnit.path u).

(** The path under which an entry is resolved and entered in [pathMap]. *)
Definition entryPath (path : string) : string :=
  switchToForwardSlashes (resolvePath path).

(** The host's dispatcher before any call. *)
Definition fresh : Resolution := CommandLineHost.mkResolution ∅ [] [].

(** What the dispatcher of a fresh host holds after the callbacks in
    [events]. *)
Record Summary (events : list Event) (r : Resolution) : Prop := {
  code_distinct : NoDup (map identifier (CommandLineHost.resolvedCode r));
  paths_true : forall k v, CommandLineHost.resolvedPaths r !! k = Some v -> v = true;
  paths_code : forall k,
    is_Some (CommandLineHost.resolvedPaths r !! k) <->
    k ∈ map identifier (CommandLineHost.resolvedCode r);
  dispatched_code : forall p,
    p ∈ dispatchedPaths events ->
    getPathIdentifier p ∈ map identifier (CommandLineHost.resolvedCode r);
  code_dispatched : forall u,
    u ∈ CommandLineHost.resolvedCode r ->
    SourceUnit.path u ∈ dispatchedPaths events /\ is_Some (SourceUnit.content u) }.

Lemma summary_fresh : Summary [] fresh.
Proof.
  split; simpl.
  - apply NoDup_nil_2.
  - intros k v H. rewrite lookup_empty in H. discriminate.
  - intros k. rewrite lookup_empty. split; [intros [x H]; discriminate|].
    intros H. inversion H.
  - intros p H. inversion H.
  - intros u H. inversion H.
Qed.

Lemma replay_snoc (events : list Event) e (d : Resolution) :
  replay (resolutionDispatcher := dispatcher) (events ++ [e]) d
  = replay (resolutionDispatcher := dispatcher) [e]
      (replay (resolutionDispatcher := dispatcher) events d).
Proof. apply replay_app. Qed.

Lemma dispatchedPaths_snoc_other events e :
  isPostResolution e = false -> dispatchedPaths (events ++ [e]) = dispatchedPaths events.
Proof.
  intros H. rewrite dispatchedPaths_app.
  destruct e; try discriminate; simpl; apply app_nil_r.
Qed.

Lemma summary_step events e r :
  loaded e -> Summary events r ->
  Summary (events ++ [e]) (replay (resolutionDispatcher := dispatcher) [e] r).
Proof.
  intros Hl [S1 S2 S3 S4 S5].
  destruct e as [p ok|root p found|k|f ref m|p u]; simpl.
  1-3: (split; auto; rewrite dispatchedPaths_snoc_other by reflexivity; auto).
  - split; simpl; auto; rewrite dispatchedPaths_snoc_other by reflexivity; auto.
  - destruct Hl as (Hp & Hc & _).
    unfold CommandLineHost.postResolution.
    assert (Hid : getPathIdentifier p = identifier u)
      by (unfold identifier; now rewrite Hp).
    destruct (CommandLineHost.resolvedPaths r !! getPathIdentifier p) as [[|]|] eqn:E.
    + split; auto.
      * intros q Hq. rewrite dispatchedPaths_app in Hq. simpl in Hq.
        apply elem_of_app in Hq as [Hq|Hq]; [auto|].
        apply list_elem_of_singleton in Hq. subst q. apply S3. eauto.
      * intros v Hv. destruct (S5 v Hv) as [H1 H2]. split; [|exact H2].
        rewrite dispatchedPaths_app. apply elem_of_app. now left.
    + apply S2 in E. discriminate.
    + assert (Hfresh : identifier u ∉ map identifier (CommandLineHost.resolvedCode r)).
      { intros Hin. rewrite <- Hid in Hin. apply S3 in Hin as [x Hx]. congruence. }
      split; simpl.
      * rewrite map_app. simpl. apply NoDup_app. split; [exact S1|].
        split; [|apply NoDup_singleton].
        intros x Hx Hx'. apply list_elem_of_singleton in Hx'. subst x. auto.
      * intros k v. rewrite lookup_insert. destruct (decide _); [congruence | apply S2].
      * intros k. rewrite lookup_insert, map_app, elem_of_app. simpl.
        rewrite list_elem_of_singleton, <- Hid.
        destruct (decide (getPathIdentifier p = k)) as [->|Hne].
        -- split; [intros _; now right | intros _; eauto].
        -- rewrite S3. split; [intros H; now left | intros [H|H]; [exact H | congruence]].
      * intros q Hq. rewrite dispatchedPaths_app in Hq. simpl in Hq.
        rewrite map_app, elem_of_app. simpl.
        apply elem_of_app in Hq as [Hq|Hq]; [left; auto|].
        apply list_elem_of_singleton in Hq. subst q. right.
        rewrite Hid. apply list_elem_of_singleton. reflexivity.
      * intros v Hv. rewrite dispatchedPaths_app. simpl.
        apply elem_of_app in Hv as [Hv|Hv].
        -- destruct (S5 v Hv) as [H1 H2]. split; [|exact H2].
           apply elem_of_app. now left.
        -- apply list_elem_of_singleton in Hv. subst v. split; [|exact Hc].
           apply elem_of_app. right. rewrite Hp. apply list_elem_of_singleton.
           reflexivity.
Qed.

Lemma summary_replay events :
  Forall loaded events ->
  Summary events (replay (resolutionDispatcher := dispatcher) events fresh).
Proof.
  induction events as [|e events IH] using rev_ind; intros Hl.
  - apply summary_fresh.
  - apply Forall_app in Hl as [Hes He]. rewrite replay_snoc.
    apply summary_step; [now inversion He | auto].
Qed.

(** The entry loop respects what every call respects. *)
Lemma follows_resolveEntries fuel entries pathMap (st st' : State) pathMap' :
  resolveEntries fuel entries pathMap st = Some (pathMap', st') ->
  follows (resolutionDispatcher := dispatcher) st st'.
Proof.
  revert pathMap st. induction entries as [|unit rest IH]; intros pathMap st; simpl.
  - intros [= _ <-]. apply follows_refl.
  - unfold bind.
    destruct (CodeResolver.resolveCode _ _ _ _ _ _ st) as [[r st1]|] eqn:E;
      [|discriminate].
    intros H. eapply follows_trans; [|eapply IH; exact H].
    eapply follows_resolveCode; exact E.
Qed.

(** What the loop over the entries leaves under the name [k] of an entry
    in a [pathMap] that had [before] there: the resolved path of the
    entry, unless the object did not own the name and inherits it as an
    accessor, which drops the assignment. *)
Definition entered (before : option string) (k : string) : option string :=
  match before, Js.inheritance k with
  | None, Js.Accessor => None
  | _, _ => Some (entryPath k)
  end.

Lemma lookup_set (pathMap : gmap string string) k v k' :
  Js.set k v pathMap !! k'
  = if decide (k = k')
    then match pathMap !! k, Js.inheritance k with
         | None, Js.Accessor => None
         | _, _ => Some v
         end
    else pathMap !! k'.
Proof.
  unfold Js.set. destruct (decide (k = k')) as [<-|Hne].
  - destruct (pathMap !! k) eqn:E; [apply lookup_insert_eq|].
    destruct (Js.inheritance k); [apply lookup_insert_eq.. | exact E].
  - destruct (pathMap !! k); [now apply lookup_insert_ne|].
    destruct (Js.inheritance k); [now apply lookup_insert_ne.. | reflexivity].
Qed.

(** After the entry loop, [pathMap] holds what was entered for every
    entry, and is otherwise as before. *)
Lemma resolveEntries_pathMap fuel entries pathMap (st st' : State) pathMap' :
  resolveEntries fuel entries pathMap st = Some (pathMap', st') ->
  forall k,
    pathMap' !! k
    = if decide (k ∈ map SourceUnit.path entries)
      then entered (pathMap !! k) k else pathMap !! k.
Proof.
  revert pathMap st. induction entries as [|unit rest IH]; intros pathMap st.
  - intros [= <- _] k. case_decide as H; [inversion H | reflexivity].
  - cbn [CommandLineHost.resolveEntries]. unfold bind.
    destruct (CodeResolver.resolveCode _ _ _ _ _ _ st) as [[r st1]|] eqn:E;
      [|discriminate].
    intros H k. rewrite (IH _ _ H k). rewrite lookup_set.
    fold (entryPath (SourceUnit.path unit)). unfold entered.
    destruct (decide (k ∈ map SourceUnit.path rest)) as [Hin|Hout];
      destruct (decide (k ∈ map SourceUnit.path (unit :: rest))) as [Hin'|Hout'].
    + destruct (decide (SourceUnit.path unit = k)) as [->|Hne]; [|reflexivity].
      destruct (pathMap !! k); [reflexivity|].
      destruct (Js.inheritance k); reflexivity.
    + exfalso. apply Hout'. apply elem_of_cons. now right.
    + apply elem_of_cons in Hin' as [->|Hin']; [|contradiction].
      destruct (decide (SourceUnit.path unit = SourceUnit.path unit));
        [reflexivity | congruence].
    + destruct (decide (SourceUnit.path unit = k)) as [<-|Hne]; [|reflexivity].
      exfalso. apply Hout'. apply elem_of_cons. now left.
Qed.

(** What a pass of a fresh host leaves behind. *)
Lemma pass_summary fuel preEnv visited0 env pathMap (st : State) :
  CommandLineHost.resolveCompilationEnvironment preProcessFile compilationSettings
    fuel preEnv visited0 ∅ ∅ = Some (env, pathMap, st) ->
  Summary (trace st) (dispatched st) /\
  CompilationEnvironment.code env = CommandLineHost.resolvedCode (dispatched st) /\
  forall k,
    pathMap !! k
    = if decide (k ∈ map SourceUnit.path (CompilationEnvironment.code preEnv))
      then entered None k else None.
Proof.
  unfold CommandLineHost.resolveCompilationEnvironment.
  destruct (resolveEntries _ _ _ _) as [[pm st1]|] eqn:E; [|discriminate].
  intros [= <- <- <-].
  destruct (follows_resolveEntries _ _ _ _ _ _ E) as (rest & Ht & Hd & Hl & _).
  simpl in Ht, Hd. rewrite Ht, Hd.
  split; [apply summary_replay; exact Hl|]. split; [reflexivity|].
  intros k. rewrite (resolveEntries_pathMap _ _ _ _ _ _ E k).
  now rewrite lookup_empty.
Qed.

(** An entry whose name is not inherited as an accessor is owned by
    [pathMap] after the pass. *)
Lemma entered_assignable k :
  Js.inheritance k <> Js.Accessor -> entered None k = Some (entryPath k).
Proof. unfold entered. destruct (Js.inheritance k); congruence. Qed.

(** X10.  In the environment that a pass of a fresh host returns, no two
    units have the same path identifier; each unit is loaded and was
    dispatched, and every path that was dispatched has a unit with its
    identifier in the environment, however often and under however many
    keys the resolver dispatched it. *)
Theorem resolved_code_has_one_unit_per_identifier fuel preEnv visited0 env pathMap
    (st : State) :
  CommandLineHost.resolveCompilationEnvironment preProcessFile compilationSettings
    fuel preEnv visited0 ∅ ∅ = Some (env, pathMap, st) ->
  NoDup (map identifier (CompilationEnvironment.code env)) /\
  (forall u, u ∈ CompilationEnvironment.code env ->
     SourceUnit.path u ∈ dispatchedPaths (trace st) /\
     is_Some (SourceUnit.content u)) /\
  (forall p, p ∈ dispatchedPaths (trace st) ->
     exists u, u ∈ CompilationEnvironment.code env /\
               identifier u = getPathIdentifier p).
Proof.
  intros Hpass. destruct (pass_summary _ _ _ _ _ _ Hpass) as ([S1 S2 S3 S4 S5] & -> & _).
  split; [exact S1|]. split; [exact S5|].
  intros p Hp. apply S4 in Hp. apply list_elem_of_fmap in Hp as (u & Hu & Hin).
  exists u. auto.
Qed.

(** Whether some dispatched path has the identifier of the path that the
    entry [path] was resolved under. *)
Definition dispatchedAs (events : list Event) (path : string) : bool :=
  existsb (fun p => String.eqb (getPathIdentifier p)
                      (getPathIdentifier (entryPath path)))
          (dispatchedPaths events).

Lemma dispatchedAs_true events path :
  dispatchedAs events path = true <->
  exists p, p ∈ dispatchedPaths events /\
            getPathIdentifier p = getPathIdentifier (entryPath path).
Proof.
  unfold dispatchedAs. rewrite existsb_exists. split.
  - intros (p & Hin & Heq). exists p. split; [now apply list_elem_of_In|].
    now apply String.eqb_eq.
  - intros (p & Hin & Heq). exists p. split; [now apply list_elem_of_In|].
    now apply String.eqb_eq.
Qed.

Lemma isResolved_entry fuel preEnv visited0 env pathMap (st : State) path :
  CommandLineHost.resolveCompilationEnvironment preProcessFile compilationSettings
    fuel preEnv visited0 ∅ ∅ = Some (env, pathMap, st) ->
  path ∈ map SourceUnit.path (CompilationEnvironment.code preEnv) ->
  Js.inheritance path <> Js.Accessor ->
  BatchCompiler.isResolved compilationSettings pathMap
    (CommandLineHost.resolvedPaths (dispatched st)) path
  = Js.Normal (dispatchedAs (trace st) path).
Proof.
  intros Hpass Hin Hassignable.
  destruct (pass_summary _ _ _ _ _ _ Hpass) as ([S1 S2 S3 S4 S5] & _ & Hpm).
  unfold BatchCompiler.isResolved, Js.get. rewrite Hpm.
  destruct (decide _) as [_|Hn]; [|contradiction].
  rewrite (entered_assignable _ Hassignable). f_equal.
  apply eq_true_iff_eq.
  rewrite bool_decide_eq_true, S3, list_elem_of_fmap, dispatchedAs_true. split.
  - intros (u & Hu & Hcode). destruct (S5 u Hcode) as [Hd _].
    exists (SourceUnit.path u). split; [exact Hd | now rewrite Hu].
  - intros (p & Hp & Hid). apply S4 in Hp.
    apply list_elem_of_fmap in Hp as (u & Hu & Hcode).
    exists u. split; [congruence | exact Hcode].
Qed.

(** A path that [pathMap] does not own after the pass: with resolution
    that is not case sensitive, asking for it raises a [TypeError]. *)
Lemma isResolved_not_owned (pathMap : gmap string string) resolvedPaths path :
  pathMap !! path = None ->
  useCaseSensitiveFileResolution compilationSettings = false ->
  BatchCompiler.isResolved compilationSettings pathMap resolvedPaths path
  = Js.TypeError.
Proof.
  intros Hnone Hcs. unfold BatchCompiler.isResolved, Js.get.
  rewrite Hnone, Hcs. destruct (Js.inheritance path); reflexivity.
Qed.


(** The entries for which the loop after the pass writes a line. *)
Definition unresolvedEntries (events : list Event) (code : list SourceUnit.t)
    : list SourceUnit.t :=
  List.filter (fun u => negb (dispatchedAs events (SourceUnit.path u))) code.

Lemma writeLines_app lines1 lines2 r :
  BatchCompiler.writeLines (lines1 ++ lines2) r
  = BatchCompiler.writeLines lines2 (BatchCompiler.writeLines lines1 r).
Proof. unfold BatchCompiler.writeLines. apply foldl_app. Qed.

Lemma writeLines_spec lines r :
  ErrorReporter.stderr (BatchCompiler.writeLines lines r)
  = ErrorReporter.stderr r ++ map ErrorReporter.WrittenLine lines /\
  ErrorReporter.hasErrors (BatchCompiler.writeLines lines r)
  = ErrorReporter.hasErrors r || negb (bool_decide (lines = [])).
Proof.
  revert r. induction lines as [|l lines IH]; intros r.
  - simpl. now rewrite app_nil_r, orb_false_r.
  - change (BatchCompiler.writeLines (l :: lines) r)
      with (BatchCompiler.writeLines lines (ErrorReporter.WriteLine l r)).
    destruct (IH (ErrorReporter.WriteLine l r)) as [-> ->]. simpl.
    rewrite <- app_assoc. split; [reflexivity|].
    now rewrite orb_true_r.
Qed.

Lemma reportUnresolved_entries fuel preEnv visited0 env pathMap (st : State) code r :
  CommandLineHost.resolveCompilationEnvironment preProcessFile compilationSettings
    fuel preEnv visited0 ∅ ∅ = Some (env, pathMap, st) ->
  (forall u, u ∈ code -> u ∈ CompilationEnvironment.code preEnv) ->
  (forall u, u ∈ code -> Js.inheritance (SourceUnit.path u) <> Js.Accessor) ->
  BatchCompiler.reportUnresolved compilationSettings pathMap
    (CommandLineHost.resolvedPaths (dispatched st)) code r
  = Js.Normal
      (BatchCompiler.writeLines
         (map (fun u => BatchCompiler.unresolvedMessage (SourceUnit.path u))
              (unresolvedEntries (trace st) code)) r).
Proof.
  intros Hpass. revert r. induction code as [|u code IH]; intros r Hsub Hown.
  - reflexivity.
  - cbn [BatchCompiler.reportUnresolved unresolvedEntries List.filter].
    rewrite (isResolved_entry _ _ _ _ _ _ _ Hpass).
    2:{ apply list_elem_of_fmap. exists u. split; [reflexivity|].
        apply Hsub. apply elem_of_cons. now left. }
    2:{ apply Hown. apply elem_of_cons. now left. }
    destruct (dispatchedAs (trace st) (SourceUnit.path u)); simpl.
    + apply IH; intros v Hv; [apply Hsub | apply Hown]; apply elem_of_cons;
        now right.
    + rewrite IH; [reflexivity | |];
        intros v Hv; [apply Hsub | apply Hown]; apply elem_of_cons; now right.
Qed.

(** The result of [resolve] once the pass is known. *)
Lemma resolve_eq fuel compilationEnvironment errorReporter ret pathMap (st : State) :
  (forall u, u ∈ CompilationEnvironment.code compilationEnvironment ->
     Js.inheritance (SourceUnit.path u) <> Js.Accessor) ->
  CommandLineHost.resolveCompilationEnvironment preProcessFile
    compilationSettings fuel compilationEnvironment ∅ ∅ ∅
  = Some (ret, pathMap, st) ->
  BatchCompiler.resolve preProcessFile compilationSettings fuel
    compilationEnvironment errorReporter
  = Some (Js.Normal
            (ret,
             BatchCompiler.writeLines
               (CommandLineHost.reported (dispatched st) ++
                map (fun u => BatchCompiler.unresolvedMessage (SourceUnit.path u))
                    (unresolvedEntries (trace st)
                       (CompilationEnvironment.code compilationEnvironment)))
               errorReporter)).
Proof.
  intros Hown Hpass. unfold BatchCompiler.resolve. rewrite Hpass.
  rewrite (reportUnresolved_entries _ _ _ _ _ _ _ _ Hpass) by auto.
  now rewrite writeLines_app.
Qed.

(** X12.  Over a reference graph, and when a plain object inherits the
    name of no entry as an accessor, [BatchCompiler.resolve] returns, and
    returns normally: it returns the environment of the pass, and its
    error reporter has received the lines of the dispatcher followed by
    one line for each entry, in order, for which no dispatched path has
    the identifier of the path the entry was resolved under.  The
    reporter has errors afterwards exactly when it had before or a line
    was written. *)
Theorem resolve_reports_unresolved_entries graph fuel compilationEnvironment
    errorReporter :
  closed compilationSettings preProcessFile graph ->
  (forall unit, unit ∈ CompilationEnvironment.code compilationEnvironment ->
     PassFacts.entryCall unit ∈ graph) ->
  length graph < fuel ->
  (forall u, u ∈ CompilationEnvironment.code compilationEnvironment ->
     Js.inheritance (SourceUnit.path u) <> Js.Accessor) ->
  exists ret pathMap (st : State),
    CommandLineHost.resolveCompilationEnvironment preProcessFile
      compilationSettings fuel compilationEnvironment ∅ ∅ ∅
    = Some (ret, pathMap, st) /\
    let lines :=
      CommandLineHost.reported (dispatched st) ++
      map (fun u => BatchCompiler.unresolvedMessage (SourceUnit.path u))
          (unresolvedEntries (trace st)
             (CompilationEnvironment.code compilationEnvironment)) in
    BatchCompiler.resolve preProcessFile compilationSettings fuel
      compilationEnvironment errorReporter
    = Some (Js.Normal (ret, BatchCompiler.writeLines lines errorReporter)) /\
    ErrorReporter.stderr (BatchCompiler.writeLines lines errorReporter)
    = ErrorReporter.stderr errorReporter ++ map ErrorReporter.WrittenLine lines /\
    ErrorReporter.hasErrors (BatchCompiler.writeLines lines errorReporter)
    = ErrorReporter.hasErrors errorReporter || negb (bool_decide (lines = [])).
Proof.
  intros Hclosed Hentries Hlt Hown.
  destruct (PassFacts.pass_returns preProcessFile compilationSettings graph fuel
              compilationEnvironment ∅ ∅ ∅ Hclosed Hentries Hlt)
    as (ret & pathMap & st & Hpass & _).
  exists ret, pathMap, st. split; [exact Hpass|]. cbv zeta.
  split; [exact (resolve_eq _ _ _ _ _ _ Hown Hpass)|].
  apply writeLines_spec.
Qed.

(** The loop after the pass raises when an entry raises. *)
Lemma reportUnresolved_raises pathMap resolvedPaths code unit r :
  unit ∈ code ->
  BatchCompiler.isResolved compilationSettings pathMap resolvedPaths
    (SourceUnit.path unit) = Js.TypeError ->
  BatchCompiler.reportUnresolved compilationSettings pathMap resolvedPaths code r
  = Js.TypeError.
Proof.
  revert r. induction code as [|u code IH]; intros r Hin Hraise;
    [inversion Hin|].
  cbn [BatchCompiler.reportUnresolved].
  destruct (BatchCompiler.isResolved compilationSettings pathMap resolvedPaths
              (SourceUnit.path u)) as [[|]|] eqn:E; [| |reflexivity].
  - apply IH; [|exact Hraise].
    apply elem_of_cons in Hin as [->|Hin]; [congruence | exact Hin].
  - apply IH; [|exact Hraise].
    apply elem_of_cons in Hin as [->|Hin]; [congruence | exact Hin].
Qed.

(** X21.  An entry whose name a plain object inherits as an accessor, such
    as [__proto__], is not entered in [pathMap]: the assignment is
    dropped.  When resolution is not case sensitive, asking whether it is
    resolved raises a [TypeError], and so does [BatchCompiler.resolve],
    once the pass has returned and whatever the pass has loaded. *)
Theorem resolve_raises_for_accessor_entry fuel compilationEnvironment
    errorReporter ret pathMap (st : State) unit :
  CommandLineHost.resolveCompilationEnvironment preProcessFile
    compilationSettings fuel compilationEnvironment ∅ ∅ ∅
  = Some (ret, pathMap, st) ->
  unit ∈ CompilationEnvironment.code compilationEnvironment ->
  Js.inheritance (SourceUnit.path unit) = Js.Accessor ->
  useCaseSensitiveFileResolution compilationSettings = false ->
  pathMap !! (SourceUnit.path unit) = None /\
  BatchCompiler.isResolved compilationSettings pathMap
    (CommandLineHost.resolvedPaths (dispatched st)) (SourceUnit.path unit)
  = Js.TypeError /\
  BatchCompiler.resolve preProcessFile compilationSettings fuel
    compilationEnvironment errorReporter
  = Some Js.TypeError.
Proof.
  intros Hpass Hin Haccessor Hcs.
  destruct (pass_summary _ _ _ _ _ _ Hpass) as (_ & _ & Hpm).
  assert (Hnone : pathMap !! (SourceUnit.path unit) = None).
  { rewrite Hpm. destruct (decide _); [|reflexivity].
    unfold entered. now rewrite Haccessor. }
  assert (Hraise :
    BatchCompiler.isResolved compilationSettings pathMap
      (CommandLineHost.resolvedPaths (dispatched st)) (SourceUnit.path unit)
    = Js.TypeError) by (now apply isResolved_not_owned).
  split; [exact Hnone|]. split; [exact Hraise|].
  unfold BatchCompiler.resolve. rewrite Hpass.
  now rewrite (reportUnresolved_raises _ _ _ unit _ Hin Hraise).
Qed.

Lemma hostCalls_dispatch_nothing events :
  forallb isHostCall events = true -> dispatchedPaths events = [].
Proof.
  induction events as [|e events IH]; [reflexivity|].
  simpl. intros H. apply andb_true_iff in H as [He Hes].
  destruct e; try discriminate; simpl; auto.
Qed.

Lemma resolveCode_S fuel referencePath parentPath performSearch (st : State) :
  CodeResolver.resolveCode (resolutionDispatcher := dispatcher)
    compilationSettings preProcessFile (S fuel)
    referencePath parentPath performSearch st
  = resolveCodeBody (resolutionDispatcher := dispatcher)
      compilationSettings preProcessFile
      (CodeResolver.resolveCode (resolutionDispatcher := dispatcher)
         compilationSettings preProcessFile fuel)
      referencePath parentPath performSearch st.
Proof. reflexivity. Qed.

Lemma resolveEntries_unreadable fuel entries pathMap (st : State) :
  (forall k, isVisited st k = false) ->
  (forall u, u ∈ entries ->
     firstHit readFile
       (directCandidates
          (normalizePath (entryPath (SourceUnit.path u)) EmptyString false))
     = None) ->
  exists pathMap' events,
    resolveEntries (S fuel) entries pathMap st = Some (pathMap', traced st events) /\
    dispatchedPaths events = [].
Proof.
  intros Hv. revert pathMap st Hv.
  induction entries as [|unit rest IH]; intros pathMap st Hv Hmiss.
  - exists pathMap, []. now rewrite traced_nil.
  - cbn [CommandLineHost.resolveEntries]. unfold bind, entryPath in *.
    rewrite resolveCode_S.
    rewrite (resolveCodeBody_direct_miss compilationSettings preProcessFile
               _ _ _ _ _ (Hv _)).
    + set (path := switchToForwardSlashes (resolvePath (SourceUnit.path unit))).
      destruct (IH (Js.set (SourceUnit.path unit) path pathMap)
                   (traced st (readEvents (normalizePath path EmptyString false))))
        as (pm & events & Hrun & Hd).
      * intros k. apply Hv.
      * intros u Hu. apply Hmiss. apply elem_of_cons. now right.
      * exists pm, (readEvents (normalizePath path EmptyString false) ++ events).
        split; [now rewrite Hrun, traced_traced|].
        rewrite dispatchedPaths_app, Hd, app_nil_r.
        apply hostCalls_dispatch_nothing, Stepwise.readEvents_hostCalls.
    + unfold readsDirectly. simpl. apply orb_true_r.
    + unfold readResult. rewrite Hmiss; [reflexivity|].
      apply elem_of_cons. now left.
Qed.

Lemma unresolvedEntries_all events code :
  dispatchedPaths events = [] -> unresolvedEntries events code = code.
Proof.
  intros Hd. unfold unresolvedEntries, dispatchedAs. rewrite Hd. simpl.
  induction code as [|u code IH]; [reflexivity|]. simpl. now rewrite IH.
Qed.

(** X13.  When none of the four read attempts succeeds for any entry, and
    a plain object inherits the name of no entry as an accessor, the
    resolved environment is empty and the reporter receives exactly one
    line for each entry, in the order of the entries and under the path
    as the entry gives it: the line for an unknown extension when the
    path has none of the four suffixes, the line for a file not found
    otherwise. *)
Theorem unreadable_entries_are_reported fuel compilationEnvironment errorReporter :
  (forall u, u ∈ CompilationEnvironment.code compilationEnvironment ->
     firstHit readFile
       (directCandidates
          (normalizePath (entryPath (SourceUnit.path u)) EmptyString false))
     = None) ->
  (forall u, u ∈ CompilationEnvironment.code compilationEnvironment ->
     Js.inheritance (SourceUnit.path u) <> Js.Accessor) ->
  BatchCompiler.resolve preProcessFile compilationSettings (S fuel)
    compilationEnvironment errorReporter
  = Some (Js.Normal
            (CompilationEnvironment.mk
               (CompilationEnvironment.compilationSettings compilationEnvironment)
               [],
             BatchCompiler.writeLines
               (map (fun u => BatchCompiler.unresolvedMessage (SourceUnit.path u))
                    (CompilationEnvironment.code compilationEnvironment))
               errorReporter)).
Proof.
  intros Hmiss Hown.
  destruct (resolveEntries_unreadable fuel
              (CompilationEnvironment.code compilationEnvironment) ∅
              (mkState ∅ [] fresh)) as (pm & events & Hrun & Hd).
  { intros k. unfold isVisited. simpl. now rewrite lookup_empty. }
  { exact Hmiss. }
  erewrite resolve_eq; [|exact Hown|].
  2:{ unfold CommandLineHost.resolveCompilationEnvironment.
      fold fresh. rewrite Hrun. reflexivity. }
  simpl. now rewrite unresolvedEntries_all.
Qed.


(** X15.  A single entry that is read under a path with the identifier of
    the path it was resolved under is not reported: whatever the pass
    dispatches besides, the reporter receives the lines of the dispatcher
    and nothing else.  (The name of the entry is taken not to be one that
    a plain object inherits as an accessor.) *)
Theorem entry_read_under_its_identifier_is_not_reported fuel settings unit p content
    errorReporter ret pathMap (st : State) :
  let n := normalizePath (entryPath (SourceUnit.path unit)) EmptyString false in
  Js.inheritance (SourceUnit.path unit) <> Js.Accessor ->
  firstHit readFile (directCandidates n) = Some (p, content) ->
  getPathIdentifier p = getPathIdentifier (entryPath (SourceUnit.path unit)) ->
  CommandLineHost.resolveCompilationEnvironment preProcessFile
    compilationSettings fuel (CompilationEnvironment.mk settings [unit]) ∅ ∅ ∅
  = Some (ret, pathMap, st) ->
  BatchCompiler.resolve preProcessFile compilationSettings fuel
    (CompilationEnvironment.mk settings [unit]) errorReporter
  = Some (Js.Normal
            (ret,
             BatchCompiler.writeLines (CommandLineHost.reported (dispatched st))
               errorReporter)).
Proof.
  intros n Hown Hhit Hid Hpass.
  assert (Hown' : forall u,
            u ∈ CompilationEnvironment.code
                  (CompilationEnvironment.mk settings [unit]) ->
            Js.inheritance (SourceUnit.path u) <> Js.Accessor).
  { intros u Hu. apply list_elem_of_singleton in Hu. now subst u. }
  rewrite (resolve_eq _ _ _ _ _ _ Hown' Hpass).
  do 3 f_equal. rewrite <- (app_nil_r (CommandLineHost.reported (dispatched st))) at 2.
  f_equal. cbn. unfold unresolvedEntries. cbn.
  replace (dispatchedAs (trace st) (SourceUnit.path unit)) with true; [reflexivity|].
  symmetry. apply dispatchedAs_true. exists p. split; [|exact Hid].
  revert Hpass. unfold CommandLineHost.resolveCompilationEnvironment.
  cbn [CompilationEnvironment.code CommandLineHost.resolveEntries].
  unfold bind at 1.
  destruct (CodeResolver.resolveCode _ _ _ _ _ _ _) as [[r st1]|] eqn:E;
    [|discriminate].
  intros [= _ _ <-]. destruct fuel as [|fuel]; [discriminate|].
  assert (Hres : readResult n = Some (IResolvedFile.mk (Some content) p)).
  { unfold readResult. now rewrite Hhit. }
  rewrite resolveCode_S in E.
  fold (entryPath (SourceUnit.path unit)) in E. fold n in E.
  assert (Hv : isVisited (mkState (D:=Resolution) ∅ []
                            (CommandLineHost.mkResolution ∅ [] []))
                 (caseFold compilationSettings n) = false).
  { unfold isVisited. simpl. now rewrite lookup_empty. }
  assert (Hd : readsDirectly (entryPath (SourceUnit.path unit)) false = true).
  { unfold readsDirectly. simpl. apply orb_true_r. }
  rewrite (resolveCodeBody_direct_hit compilationSettings preProcessFile
             _ _ _ _ _ Hv _ Hd Hres) in E.
  apply CallFacts.afterAcquisition_shape in E as [_ [nested Ht]].
  rewrite Ht. simpl. rewrite dispatchedPaths_app. simpl.
  rewrite dispatchedPaths_app. simpl.
  apply elem_of_app. right. apply elem_of_app. right. apply elem_of_cons. now left.
Qed.

End Facts.
End DriverFacts.

(** ** Properties of the watch-mode reconciliation for arbitrary lists *)

Module WatchOrder.
Import Watch WatchFacts.

(** [a] comes before [b] in the order of the code units, the order of
    [sort]. *)
Definition before (a b : string) : Prop := String.compare a b = Lt.

Lemma compare_Eq a b : String.compare a b = Eq -> a = b.
Proof. apply String.compare_eq_iff. Qed.

Lemma compare_Gt a b : String.compare a b = Gt -> before b a.
Proof.
  unfold before. rewrite (String.compare_antisym a b).
  destruct (String.compare b a); simpl; congruence.
Qed.

Lemma before_irrefl a : ~ before a a.
Proof. unfold before. rewrite RuntimeModel.compare_refl. discriminate. Qed.

Lemma before_trans a b c : before a b -> before b c -> before a c.
Proof.
  unfold before. intros H1 H2.
  apply OrderedTypeEx.String_as_OT.cmp_lt.
  eapply OrderedTypeEx.String_as_OT.lt_trans;
    apply OrderedTypeEx.String_as_OT.cmp_lt; eassumption.
Qed.

(** Strictly ascending, every element before all later ones. *)
Fixpoint ascending (l : list string) : Prop :=
  match l with
  | [] => True
  | x :: rest => (forall y, y ∈ rest -> before x y) /\ ascending rest
  end.

Fixpoint isAscending (l : list string) : bool :=
  match l with
  | [] => true
  | x :: rest =>
    forallb (fun y => match String.compare x y with Lt => true | _ => false end) rest
    && isAscending rest
  end.

Lemma isAscending_sound l : isAscending l = true -> ascending l.
Proof.
  induction l as [|x rest IH]; [easy|]. simpl.
  intros H. apply andb_true_iff in H as [Hx Hrest]. split; [|auto].
  intros y Hy. rewrite forallb_forall in Hx.
  specialize (Hx y (proj1 (list_elem_of_In _ _) Hy)).
  unfold before. destruct (String.compare x y); congruence.
Qed.

(** *** Sorting *)

Lemma ascending_insertSorted x l :
  ascending l -> x ∉ l -> ascending (insertSorted x l).
Proof.
  induction l as [|z rest IH]; intros Hasc Hx.
  - simpl. split; [|exact I]. intros y Hy. inversion Hy.
  - destruct Hasc as [Hz Hrest]. simpl.
    destruct (String.compare x z) eqn:E.
    + exfalso. apply Hx. apply elem_of_cons. left. now apply compare_Eq.
    + split; [|split; assumption].
      intros y Hy. apply elem_of_cons in Hy as [->|Hy]; [exact E|].
      eapply before_trans; [exact E | auto].
    + split.
      * intros y Hy. apply elem_of_insertSorted in Hy as [->|Hy]; [|auto].
        now apply compare_Gt.
      * apply IH; [exact Hrest|]. intros Hin. apply Hx. apply elem_of_cons. now right.
Qed.

Lemma ascending_sort l : NoDup l -> ascending (sort l).
Proof.
  induction l as [|x rest IH]; intros Hnd; [exact I|].
  apply NoDup_cons in Hnd as [Hx Hnd].
  change (sort (x :: rest)) with (insertSorted x (sort rest)).
  apply ascending_insertSorted; [auto|]. now rewrite elem_of_sort.
Qed.

Section Runtime.

Context {runtime : Js.Runtime}.

(** *** The loops on what is left of the two lists *)

(** The [while] loop of lines 600-619 followed by the two [for] loops of
    lines 622-629, on the parts of the two lists from [i] and from [j]
    on. *)
Fixpoint diffLoop (iterations : nat) (oldRest newRest : list string) (st : State)
    : Js.Completion State :=
  match iterations, oldRest, newRest with
  | S iterations, o :: oldRest', n :: newRest' =>
    match Js.localeCompare o n with
    | Eq => diffLoop iterations oldRest' newRest' st
    | Lt => Js.bind (removeWatcher o st) (diffLoop iterations oldRest' newRest)
    | Gt => diffLoop iterations oldRest newRest' (addWatcher n st)
    end
  | _, _, _ =>
    Js.bind (removeAll oldRest st) (fun st => Js.Normal (addAll newRest st))
  end.

Lemma diffLoop_stop iterations oldRest newRest st :
  iterations = 0 \/ oldRest = [] \/ newRest = [] ->
  diffLoop iterations oldRest newRest st
  = Js.bind (removeAll oldRest st) (fun st => Js.Normal (addAll newRest st)).
Proof.
  intros [->|[->| ->]]; [reflexivity| now destruct iterations |].
  destruct iterations; [reflexivity|]. now destruct oldRest.
Qed.

(** The loop over the indices is the loop over the rests. *)
Lemma mergeLoop_diffLoop iterations oldFiles newFiles i j st :
  Js.bind (mergeLoop iterations oldFiles newFiles i j st)
    (fun '(i', j', st') =>
       Js.bind (removeAll (drop i' oldFiles) st')
         (fun st => Js.Normal (addAll (drop j' newFiles) st)))
  = diffLoop iterations (drop i oldFiles) (drop j newFiles) st.
Proof.
  revert i j st. induction iterations as [|iterations IH]; intros i j st.
  - reflexivity.
  - cbn [mergeLoop].
    destruct (oldFiles !! i) as [o|] eqn:Eo.
    + destruct (newFiles !! j) as [n|] eqn:En.
      * rewrite (drop_S _ _ _ Eo), (drop_S _ _ _ En). cbn [diffLoop].
        destruct (Js.localeCompare o n).
        -- apply IH.
        -- destruct (removeWatcher o st) as [st1|]; [|reflexivity].
           cbn [Js.bind]. rewrite IH. now rewrite (drop_S _ _ _ En).
        -- rewrite IH. now rewrite (drop_S _ _ _ Eo).
      * cbn [Js.bind].
        rewrite (drop_ge newFiles j) by now apply lookup_ge_None_1.
        now rewrite diffLoop_stop by auto.
    + cbn [Js.bind].
      rewrite (drop_ge oldFiles i) by now apply lookup_ge_None_1.
      now rewrite diffLoop_stop by auto.
Qed.

Lemma reconcile_eq resolvedPaths st :
  reconcile resolvedPaths st
  = Js.bind
      (diffLoop (length (resolvedFiles st) + length (sort resolvedPaths))
         (resolvedFiles st) (sort resolvedPaths) st)
      (fun st' =>
         Js.Normal (mkState (sort resolvedPaths) (watchers st') (ops st'))).
Proof.
  unfold reconcile.
  pose proof (mergeLoop_diffLoop
                (length (resolvedFiles st) + length (sort resolvedPaths))
                (resolvedFiles st) (sort resolvedPaths) 0 0 st) as H.
  rewrite !drop_0 in H. rewrite <- H.
  destruct (mergeLoop _ _ _ 0 0 st) as [[[i j] st1]|]; [|reflexivity].
  cbn [Js.bind]. destruct (removeAll _ st1) as [st2|]; reflexivity.
Qed.

(** *** Every call is on the right kind of file *)

(** The open watchers after [calls], when each [WatchFile] in it is for a
    file without an open watcher and each [CloseWatcher] for a file with
    one. *)
Fixpoint applyCalls (calls : list WatchOp) (open : gset string)
    : option (gset string) :=
  match calls with
  | [] => Some open
  | WatchFile f :: rest =>
    if decide (f ∈ open) then None else applyCalls rest ({[f]} ∪ open)
  | CloseWatcher f :: rest =>
    if decide (f ∈ open) then applyCalls rest (open ∖ {[f]}) else None
  end.

Lemma applyCalls_app calls1 calls2 open open1 :
  applyCalls calls1 open = Some open1 ->
  applyCalls (calls1 ++ calls2) open = applyCalls calls2 open1.
Proof.
  revert open. induction calls1 as [|[f|f] rest IH]; intros open; simpl.
  - now intros [= ->].
  - destruct (decide (f ∈ open)); [discriminate | apply IH].
  - destruct (decide (f ∈ open)); [apply IH | discriminate].
Qed.

(** From [st] to [st'] only calls were added, each of the right kind, and
    [watchers] holds the open watchers. *)
Definition tracks (st st' : State) : Prop :=
  resolvedFiles st' = resolvedFiles st /\
  exists calls,
    ops st' = ops st ++ calls /\
    applyCalls calls (dom (watchers st)) = Some (dom (watchers st')).

Lemma tracks_refl st : tracks st st.
Proof. split; [reflexivity|]. exists []. now rewrite app_nil_r. Qed.

Lemma tracks_trans st1 st2 st3 : tracks st1 st2 -> tracks st2 st3 -> tracks st1 st3.
Proof.
  intros [Hr1 (c1 & Ho1 & Ha1)] [Hr2 (c2 & Ho2 & Ha2)].
  split; [congruence|]. exists (c1 ++ c2).
  split; [now rewrite Ho2, Ho1, app_assoc|].
  now rewrite (applyCalls_app _ _ _ _ Ha1).
Qed.

Lemma tracks_addWatcher f st : tracks st (addWatcher f st).
Proof.
  unfold addWatcher, Js.get, Js.set.
  destruct (watchers st !! f) eqn:E; [apply tracks_refl|].
  destruct (Js.inheritance f); [|apply tracks_refl..].
  split; [reflexivity|]. exists [WatchFile f]. split; [reflexivity|]. simpl.
  destruct (decide (f ∈ dom (watchers st))) as [Hin|_].
  - apply elem_of_dom in Hin as [w Hw]. congruence.
  - now rewrite dom_insert_L.
Qed.

Lemma tracks_addAll files st : tracks st (addAll files st).
Proof.
  revert st. induction files as [|f files IH]; intros st; [apply tracks_refl|].
  unfold addAll in *. simpl.
  eapply tracks_trans; [apply tracks_addWatcher | apply IH].
Qed.

(** How a piece of the reconciliation ends that starts in [st] and closes
    watchers of [files] only: normally, having made only calls of the
    right kind; or in a [TypeError], and then one of the files is a name
    that a plain object inherits. *)
Definition outcome (files : list string) (st : State) (c : Js.Completion State)
    : Prop :=
  match c with
  | Js.Normal st' => tracks st st'
  | Js.TypeError => exists f, f ∈ files /\ Js.inheritance f <> Js.Absent
  end.

Lemma outcome_removeWatcher f st : outcome [f] st (removeWatcher f st).
Proof.
  unfold removeWatcher, Js.get. destruct (watchers st !! f) eqn:E.
  - split; [reflexivity|]. exists [CloseWatcher f]. split; [reflexivity|]. simpl.
    destruct (decide (f ∈ dom (watchers st))) as [_|Hout].
    + now rewrite dom_delete_L.
    + exfalso. apply Hout. apply elem_of_dom. eauto.
  - destruct (Js.inheritance f) eqn:Ei; simpl.
    + apply tracks_refl.
    + exists f. split; [apply elem_of_cons; now left | congruence].
    + exists f. split; [apply elem_of_cons; now left | congruence].
Qed.

Lemma outcome_weaken files files' st c :
  (forall f, f ∈ files -> f ∈ files') -> outcome files st c -> outcome files' st c.
Proof.
  intros Hsub. destruct c as [st'|]; [auto|].
  intros (f & Hf & Hi). exists f. auto.
Qed.

Lemma outcome_bind files st c (k : State -> Js.Completion State) :
  outcome files st c ->
  (forall st', tracks st st' -> outcome files st' (k st')) ->
  outcome files st (Js.bind c k).
Proof.
  destruct c as [st1|]; [|auto]. simpl. intros H1 Hk.
  specialize (Hk st1 H1). destruct (k st1) as [st2|]; [|exact Hk].
  eapply tracks_trans; eauto.
Qed.

Lemma outcome_removeAll files st : outcome files st (removeAll files st).
Proof.
  revert st. induction files as [|f files IH]; intros st; [apply tracks_refl|].
  simpl. apply outcome_bind.
  - eapply outcome_weaken; [|apply outcome_removeWatcher].
    intros g Hg. apply list_elem_of_singleton in Hg. subst g.
    apply elem_of_cons. now left.
  - intros st' _. eapply outcome_weaken; [|apply IH].
    intros g Hg. apply elem_of_cons. now right.
Qed.

Lemma outcome_diffLoop iterations oldRest newRest st :
  outcome oldRest st (diffLoop iterations oldRest newRest st).
Proof.
  assert (Hstop : forall oldRest newRest st,
            outcome oldRest st
              (Js.bind (removeAll oldRest st)
                 (fun st => Js.Normal (addAll newRest st)))).
  { intros o n s. apply outcome_bind; [apply outcome_removeAll|].
    intros st' _. apply tracks_addAll. }
  revert oldRest newRest st.
  induction iterations as [|iterations IH]; intros oldRest newRest st.
  - apply Hstop.
  - destruct oldRest as [|o oldRest'].
    { rewrite diffLoop_stop by auto. apply Hstop. }
    destruct newRest as [|n newRest'].
    { rewrite diffLoop_stop by auto. apply Hstop. }
    cbn [diffLoop]. destruct (Js.localeCompare o n).
    + eapply outcome_weaken; [|apply IH].
      intros g Hg. apply elem_of_cons. now right.
    + apply outcome_bind.
      * eapply outcome_weaken; [|apply outcome_removeWatcher].
        intros g Hg. apply list_elem_of_singleton in Hg. subst g.
        apply elem_of_cons. now left.
      * intros st' _. eapply outcome_weaken; [|apply IH].
        intros g Hg. apply elem_of_cons. now right.
    + specialize (IH (o :: oldRest') newRest' (addWatcher n st)).
      destruct (diffLoop iterations (o :: oldRest') newRest' (addWatcher n st))
        as [st'|]; [|exact IH].
      eapply tracks_trans; [apply tracks_addWatcher | exact IH].
Qed.

(** X16.  Whatever the two lists are and whatever state the watchers are
    in: the initial watches, which start from no watcher at all, ask for a
    watch only on a file that has no open watcher, and afterwards
    [watchers] holds exactly the watchers that are open.  A change event
    either completes, and then it has asked for a watch only on a file
    that had no open watcher and closed only a watcher that was open, and
    [watchers] holds exactly the watchers that are open; or it ends in a
    [TypeError], and then one of the recorded files has a name that a
    plain object inherits. *)
Theorem watch_calls_respect_open_watchers :
  (forall resolvedPaths,
     applyCalls (ops (watchInitial resolvedPaths)) ∅
     = Some (dom (watchers (watchInitial resolvedPaths)))) /\
  (forall resolvedPaths st,
     match reconcile resolvedPaths st with
     | Js.Normal st' =>
       exists calls,
         ops st' = ops st ++ calls /\
         applyCalls calls (dom (watchers st)) = Some (dom (watchers st'))
     | Js.TypeError =>
       exists f, f ∈ resolvedFiles st /\ Js.inheritance f <> Js.Absent
     end).
Proof.
  split.
  - intros resolvedPaths. unfold watchInitial. cbn [ops watchers].
    destruct (tracks_addAll resolvedPaths (mkState [] ∅ []))
      as [_ (calls & Ho & Ha)].
    simpl in Ho, Ha. rewrite Ho. now rewrite dom_empty_L in Ha.
  - intros resolvedPaths st. rewrite reconcile_eq.
    pose proof (outcome_diffLoop
                  (length (resolvedFiles st) + length (sort resolvedPaths))
                  (resolvedFiles st) (sort resolvedPaths) st) as H.
    destruct (diffLoop _ _ _ st) as [st'|]; [|exact H].
    cbn [Js.bind ops watchers]. destruct H as [_ (calls & Ho & Ha)].
    exists calls. split; assumption.
Qed.

(** *** A change that changes nothing *)

Lemma diffLoop_same files iterations st :
  length files <= iterations -> diffLoop iterations files files st = Js.Normal st.
Proof.
  revert iterations. induction files as [|f files IH]; intros iterations Hlen.
  - now destruct iterations.
  - destruct iterations as [|iterations]; [simpl in Hlen; lia|].
    cbn [diffLoop]. rewrite Js.localeCompare_refl. apply IH. simpl in Hlen. lia.
Qed.

Lemma reconcile_same resolvedPaths st :
  resolvedFiles st = sort resolvedPaths ->
  reconcile resolvedPaths st = Js.Normal st.
Proof.
  intros H. rewrite reconcile_eq. rewrite H.
  rewrite diffLoop_same by lia. cbn [Js.bind]. rewrite <- H. now destruct st.
Qed.

(** X17.  A change event after which the resolved files are the ones
    recorded makes no call and leaves the state as it is, duplicates in
    the list or not; so a second event with the same files does nothing,
    and neither does an event with the files of the initial watches. *)
Theorem reconcile_unchanged_files_is_noop resolvedPaths st :
  resolvedFiles st = sort resolvedPaths ->
  reconcile resolvedPaths st = Js.Normal st /\
  Js.bind (reconcile resolvedPaths st) (reconcile resolvedPaths) = Js.Normal st /\
  reconcile resolvedPaths (watchInitial resolvedPaths)
  = Js.Normal (watchInitial resolvedPaths).
Proof.
  intros H. rewrite !(reconcile_same _ st H). cbn [Js.bind].
  rewrite (reconcile_same _ st H).
  split; [reflexivity|]. split; [reflexivity|].
  now apply reconcile_same.
Qed.

(** *** A name that the watcher object inherits *)

(** X22.  A file whose name a plain object inherits, such as
    [constructor], is recorded by the initial watches but gets no watcher:
    no watch is asked for, because the test for an open watcher finds the
    inherited value.  The change event that finds the file no longer
    resolved tries to close that value and ends in a [TypeError]. *)
Theorem inherited_name_is_never_watched f :
  Js.inheritance f <> Js.Absent ->
  watchInitial [f] = mkState [f] ∅ [] /\
  reconcile [] (watchInitial [f]) = Js.TypeError.
Proof.
  intros Hi.
  assert (Hinit : watchInitial [f] = mkState [f] ∅ []).
  { unfold watchInitial, addAll, addWatcher, Js.get. simpl.
    rewrite lookup_empty. destruct (Js.inheritance f); [congruence|..];
      reflexivity. }
  split; [exact Hinit|]. rewrite Hinit.
  unfold reconcile. simpl. unfold removeWatcher, Js.get. simpl.
  rewrite lookup_empty. destruct (Js.inheritance f); [congruence|..];
    reflexivity.
Qed.

(** *** Ascending lists: the calls are exactly the difference *)

Definition watched (st : State) (f : string) : Prop := is_Some (watchers st !! f).

Definition opFile (op : WatchOp) : string :=
  match op with WatchFile f | CloseWatcher f => f end.

(** The state after the watcher of [o] has been closed, and the state
    after a watch on [n] has been asked for. *)
Definition afterClose (o : string) (st : State) : State :=
  mkState (resolvedFiles st) (delete o (watchers st))
    (ops st ++ [CloseWatcher o]).

Definition afterWatch (n : string) (st : State) : State :=
  mkState (resolvedFiles st) (<[n := Build_IFileWatcher n]> (watchers st))
    (ops st ++ [WatchFile n]).

Lemma removeWatcher_watched o st :
  watched st o -> removeWatcher o st = Js.Normal (afterClose o st).
Proof.
  unfold watched, removeWatcher, Js.get. intros [w Hw]. now rewrite Hw.
Qed.

Lemma addWatcher_fresh n st :
  ~ watched st n -> Js.inheritance n = Js.Absent ->
  addWatcher n st = afterWatch n st.
Proof.
  unfold watched, addWatcher, Js.get, Js.set. intros Hw Hi.
  destruct (watchers st !! n) eqn:E; [exfalso; apply Hw; eauto|].
  now rewrite Hi.
Qed.

Lemma watched_closed o st f : watched (afterClose o st) f <-> watched st f /\ f <> o.
Proof.
  unfold watched, afterClose. simpl.
  rewrite lookup_delete_is_Some. split; intros [H1 H2]; split; auto.
Qed.

Lemma watched_opened n st f : watched (afterWatch n st) f <-> watched st f \/ f = n.
Proof.
  unfold watched, afterWatch. simpl.
  rewrite lookup_insert_is_Some. split.
  - intros [->|[_ H]]; auto.
  - intros [H| ->]; [|auto]. destruct (decide (n = f)); auto.
Qed.

(** The calls from [st] to [st'] ascend by file, close exactly the files of
    [oldRest] that are not in [newRest], and watch exactly the files of
    [newRest] that are not in [oldRest]. *)
Definition reconciled (oldRest newRest : list string) (st st' : State) : Prop :=
  exists calls,
    ops st' = ops st ++ calls /\
    ascending (map opFile calls) /\
    (forall f, CloseWatcher f ∈ calls <-> f ∈ oldRest /\ f ∉ newRest) /\
    (forall f, WatchFile f ∈ calls <-> f ∈ newRest /\ f ∉ oldRest) /\
    (forall f, watched st' f <-> (watched st f /\ f ∉ oldRest) \/ f ∈ newRest).

Lemma reconciled_nil st : reconciled [] [] st st.
Proof.
  exists []. split; [now rewrite app_nil_r|]. split; [exact I|].
  split; [|split]; intros f; split.
  - intros H. inversion H.
  - intros [H _]. inversion H.
  - intros H. inversion H.
  - intros [H _]. inversion H.
  - intros H. left. split; [exact H|]. intros Hin. inversion Hin.
  - intros [[H _]|H]; [exact H | inversion H].
Qed.

Lemma call_file_in (calls : list WatchOp) (oldRest newRest : list string) op :
  (forall f, CloseWatcher f ∈ calls <-> f ∈ oldRest /\ f ∉ newRest) ->
  (forall f, WatchFile f ∈ calls <-> f ∈ newRest /\ f ∉ oldRest) ->
  op ∈ calls -> opFile op ∈ oldRest \/ opFile op ∈ newRest.
Proof.
  intros Hc Hw Hin. destruct op as [f|f]; simpl.
  - right. now apply Hw.
  - left. now apply Hc.
Qed.

Lemma reconciled_close o oldRest newRest st st' :
  watched st o ->
  (forall f, f ∈ oldRest -> before o f) ->
  (forall f, f ∈ newRest -> before o f) ->
  reconciled oldRest newRest (afterClose o st) st' ->
  reconciled (o :: oldRest) newRest st st'.
Proof.
  intros Hw Ho Hn (calls & Hops & Hasc & Hc & Ha & Hwatched).
  exists (CloseWatcher o :: calls).
  split; [rewrite Hops; unfold afterClose; simpl; now rewrite <- app_assoc|].
  split.
  { split; [|exact Hasc]. intros y Hy.
    apply list_elem_of_fmap in Hy as (op & -> & Hop).
    destruct (call_file_in _ _ _ _ Hc Ha Hop); auto. }
  split; [|split].
  - intros f. rewrite !elem_of_cons, Hc. split.
    + intros [[= ->]|[H1 H2]].
      * split; [now left|]. intros Hin. exact (before_irrefl _ (Hn _ Hin)).
      * split; [now right | exact H2].
    + intros [[->|H1] H2]; [now left | right; auto].
  - intros f. rewrite !elem_of_cons, Ha. split.
    + intros [H|[H1 H2]]; [discriminate|]. split; [exact H1|].
      intros [->|H]; [|contradiction]. exact (before_irrefl _ (Hn _ H1)).
    + intros [H1 H2]. right. split; [exact H1|]. intros H. apply H2. now right.
  - intros f. rewrite Hwatched, watched_closed, elem_of_cons. split.
    + intros [[[H1 H2] H3]|H]; [left|now right].
      split; [exact H1|]. intros [->|H]; contradiction.
    + intros [[H1 H2]|H]; [left|now right].
      split; [split; [exact H1|]|]; intros H; apply H2; auto.
Qed.

Lemma reconciled_watch n oldRest newRest st st' :
  ~ watched st n ->
  (forall f, f ∈ oldRest -> before n f) ->
  (forall f, f ∈ newRest -> before n f) ->
  reconciled oldRest newRest (afterWatch n st) st' ->
  reconciled oldRest (n :: newRest) st st'.
Proof.
  intros Hw Ho Hn (calls & Hops & Hasc & Hc & Ha & Hwatched).
  exists (WatchFile n :: calls).
  split; [rewrite Hops; unfold afterWatch; simpl; now rewrite <- app_assoc|].
  split.
  { split; [|exact Hasc]. intros y Hy.
    apply list_elem_of_fmap in Hy as (op & -> & Hop).
    destruct (call_file_in _ _ _ _ Hc Ha Hop); auto. }
  split; [|split].
  - intros f. rewrite !elem_of_cons, Hc. split.
    + intros [H|[H1 H2]]; [discriminate|]. split; [exact H1|].
      intros [->|H]; [|contradiction]. exact (before_irrefl _ (Ho _ H1)).
    + intros [H1 H2]. right. split; [exact H1|]. intros H. apply H2. now right.
  - intros f. rewrite !elem_of_cons, Ha. split.
    + intros [[= ->]|[H1 H2]].
      * split; [now left|]. intros Hin. exact (before_irrefl _ (Ho _ Hin)).
      * split; [now right | exact H2].
    + intros [[->|H1] H2]; [now left | right; auto].
  - intros f. rewrite Hwatched, watched_opened, elem_of_cons. split.
    + intros [[[H1| ->] H2]|H]; [left; auto | right; now left | right; now right].
    + intros [[H1 H2]|[->|H]].
      * left. auto.
      * left. split; [now right|]. intros Hin. exact (before_irrefl _ (Ho _ Hin)).
      * now right.
Qed.

Lemma reconciled_keep o oldRest newRest st st' :
  watched st o ->
  (forall f, f ∈ oldRest -> before o f) ->
  (forall f, f ∈ newRest -> before o f) ->
  reconciled oldRest newRest st st' ->
  reconciled (o :: oldRest) (o :: newRest) st st'.
Proof.
  intros Hw Ho Hn (calls & Hops & Hasc & Hc & Ha & Hwatched).
  exists calls. split; [exact Hops|]. split; [exact Hasc|].
  split; [|split].
  - intros f. rewrite !elem_of_cons, Hc. split.
    + intros [H1 H2]. split; [now right|].
      intros [->|H]; [|contradiction]. exact (before_irrefl _ (Ho _ H1)).
    + intros [[->|H1] H2]; [exfalso; apply H2; now left|].
      split; [exact H1|]. intros H. apply H2. now right.
  - intros f. rewrite !elem_of_cons, Ha. split.
    + intros [H1 H2]. split; [now right|].
      intros [->|H]; [|contradiction]. exact (before_irrefl _ (Hn _ H1)).
    + intros [[->|H1] H2]; [exfalso; apply H2; now left|].
      split; [exact H1|]. intros H. apply H2. now right.
  - intros f. rewrite Hwatched, !elem_of_cons. split.
    + intros [[H1 H2]|H]; [|right; now right].
      destruct (decide (f = o)) as [->|Hne]; [right; now left|].
      left. split; [exact H1|]. intros [->|H]; contradiction.
    + intros [[H1 H2]|[->|H]].
      * left. split; [exact H1|]. intros H. apply H2. now right.
      * left. split; [exact Hw|]. intros Hin. exact (before_irrefl _ (Ho _ Hin)).
      * now right.
Qed.

Lemma removeAll_reconciled oldRest st :
  ascending oldRest ->
  (forall f, f ∈ oldRest -> watched st f) ->
  exists st', removeAll oldRest st = Js.Normal st' /\ reconciled oldRest [] st st'.
Proof.
  revert st. induction oldRest as [|o oldRest IH]; intros st Hasc Hw.
  - exists st. split; [reflexivity | apply reconciled_nil].
  - destruct Hasc as [Ho Hasc]. simpl.
    rewrite (removeWatcher_watched o st) by (apply Hw; now left).
    cbn [Js.bind].
    destruct (IH (afterClose o st) Hasc) as (st' & Hrun & Hrec).
    { intros f Hf. apply watched_closed.
      split; [apply Hw; now right|]. intros ->. exact (before_irrefl _ (Ho _ Hf)). }
    exists st'. split; [exact Hrun|]. apply reconciled_close.
    + apply Hw. now left.
    + exact Ho.
    + intros f H. inversion H.
    + exact Hrec.
Qed.

Lemma addAll_reconciled newRest st :
  ascending newRest ->
  (forall f, f ∈ newRest -> ~ watched st f) ->
  plain newRest ->
  reconciled [] newRest st (addAll newRest st).
Proof.
  revert st. induction newRest as [|n newRest IH]; intros st Hasc Hw Hplain.
  - apply reconciled_nil.
  - destruct Hasc as [Hn Hasc]. unfold addAll in *. simpl.
    rewrite (addWatcher_fresh n st)
      by (first [apply Hw | apply Hplain]; apply elem_of_cons; now left).
    apply reconciled_watch.
    + apply Hw. now left.
    + intros f H. inversion H.
    + exact Hn.
    + apply IH; [exact Hasc| |].
      * intros f Hf H. apply watched_opened in H as [H| ->].
        -- apply (Hw f); [now right | exact H].
        -- exact (before_irrefl _ (Hn _ Hf)).
      * intros f Hf. apply Hplain. apply elem_of_cons. now right.
Qed.

Lemma diffLoop_reconciled iterations oldRest newRest st :
  length oldRest + length newRest <= iterations ->
  ascending oldRest -> ascending newRest ->
  (forall f, f ∈ oldRest -> watched st f) ->
  (forall f, f ∈ newRest -> watched st f -> f ∈ oldRest) ->
  plain newRest ->
  collates (oldRest ++ newRest) ->
  exists st',
    diffLoop iterations oldRest newRest st = Js.Normal st' /\
    reconciled oldRest newRest st st'.
Proof.
  revert oldRest newRest st.
  induction iterations as [|iterations IH];
    intros oldRest newRest st Hlen Hao Han Hold Hnew Hplain Hcollates.
  - destruct oldRest; [|simpl in Hlen; lia].
    destruct newRest; [|simpl in Hlen; lia].
    exists st. split; [reflexivity | apply reconciled_nil].
  - destruct oldRest as [|o oldRest'].
    { rewrite diffLoop_stop by auto. simpl. eexists. split; [reflexivity|].
      apply addAll_reconciled; [exact Han | | exact Hplain].
      intros f Hf H. specialize (Hnew f Hf H). inversion Hnew. }
    destruct newRest as [|n newRest'].
    { rewrite diffLoop_stop by auto.
      destruct (removeAll_reconciled (o :: oldRest') st Hao Hold)
        as (st' & Hrun & Hrec).
      exists st'. rewrite Hrun. split; [reflexivity | exact Hrec]. }
    destruct Hao as [Ho Hao]. destruct Han as [Hn Han].
    simpl in Hlen. cbn [diffLoop].
    assert (Hplain' : plain newRest')
      by (intros f Hf; apply Hplain; apply elem_of_cons; now right).
    assert (Hcmp : Js.localeCompare o n = String.compare o n).
    { apply Hcollates; apply elem_of_app;
        [left | right]; apply elem_of_cons; now left. }
    rewrite Hcmp.
    destruct (String.compare o n) eqn:E.
    + apply compare_Eq in E as <-.
      destruct (IH oldRest' newRest' st) as (st' & Hrun & Hrec);
        [lia | exact Hao | exact Han | | | exact Hplain' | |].
      * intros f Hf. apply Hold. now right.
      * intros f Hf H.
        assert (Hin : f ∈ o :: oldRest') by (apply Hnew; [now right | exact H]).
        apply elem_of_cons in Hin as [->|Hin]; [|exact Hin].
        exfalso. exact (before_irrefl _ (Hn _ Hf)).
      * intros a b Ha Hb. apply Hcollates.
        -- apply elem_of_app in Ha as [Ha|Ha]; apply elem_of_app;
             [left | right]; apply elem_of_cons; now right.
        -- apply elem_of_app in Hb as [Hb|Hb]; apply elem_of_app;
             [left | right]; apply elem_of_cons; now right.
      * exists st'. split; [exact Hrun|].
        apply reconciled_keep; [apply Hold; now left | exact Ho | exact Hn |].
        exact Hrec.
    + assert (Hon : forall f, f ∈ n :: newRest' -> before o f).
      { intros f [->|Hf]%elem_of_cons; [exact E|].
        eapply before_trans; [exact E | auto]. }
      rewrite (removeWatcher_watched o st) by (apply Hold; now left).
      cbn [Js.bind].
      destruct (IH oldRest' (n :: newRest') (afterClose o st)) as (st' & Hrun & Hrec);
        [simpl; lia | exact Hao | split; assumption | | | exact Hplain | |].
      * intros f Hf. apply watched_closed.
        split; [apply Hold; now right|]. intros ->. exact (before_irrefl _ (Ho _ Hf)).
      * intros f Hf H. apply watched_closed in H as [H Hne].
        assert (Hin : f ∈ o :: oldRest') by (apply Hnew; assumption).
        apply elem_of_cons in Hin as [->|Hin]; [contradiction | exact Hin].
      * intros a b Ha Hb. apply Hcollates.
        -- apply elem_of_app in Ha as [Ha|Ha]; apply elem_of_app;
             [left; apply elem_of_cons; now right | now right].
        -- apply elem_of_app in Hb as [Hb|Hb]; apply elem_of_app;
             [left; apply elem_of_cons; now right | now right].
      * exists st'. split; [exact Hrun|].
        apply reconciled_close; [apply Hold; now left | exact Ho | exact Hon |].
        exact Hrec.
    + apply compare_Gt in E.
      assert (Hno : forall f, f ∈ o :: oldRest' -> before n f).
      { intros f [->|Hf]%elem_of_cons; [exact E|].
        eapply before_trans; [exact E | auto]. }
      assert (Hfresh : ~ watched st n).
      { intros H. apply Hnew in H; [|apply elem_of_cons; now left].
        exact (before_irrefl _ (Hno _ H)). }
      rewrite (addWatcher_fresh n st Hfresh)
        by (apply Hplain; apply elem_of_cons; now left).
      destruct (IH (o :: oldRest') newRest' (afterWatch n st)) as (st' & Hrun & Hrec);
        [simpl; lia | split; assumption | exact Han | | | exact Hplain' | |].
      * intros f Hf. apply watched_opened. left. now apply Hold.
      * intros f Hf H. apply watched_opened in H as [H| ->].
        -- apply Hnew; [now right | exact H].
        -- exfalso. exact (before_irrefl _ (Hn _ Hf)).
      * intros a b Ha Hb. apply Hcollates.
        -- apply elem_of_app in Ha as [Ha|Ha]; apply elem_of_app;
             [now left | right; apply elem_of_cons; now right].
        -- apply elem_of_app in Hb as [Hb|Hb]; apply elem_of_app;
             [now left | right; apply elem_of_cons; now right].
      * exists st'. split; [exact Hrun|].
        apply reconciled_watch; [exact Hfresh | exact Hno | exact Hn |].
        exact Hrec.
Qed.

(** The recorded files ascend in the order of the code units, and a file
    has a watcher exactly when it is recorded. *)
Definition inSync (st : State) : Prop :=
  ascending (resolvedFiles st) /\
  forall f, watched st f <-> f ∈ resolvedFiles st.

(** The same as a test. *)
Definition isInSync (st : State) : bool :=
  isAscending (resolvedFiles st)
  && forallb (fun f => bool_decide (is_Some (watchers st !! f))) (resolvedFiles st)
  && forallb (fun f => bool_decide (f ∈ resolvedFiles st))
       (map fst (map_to_list (watchers st))).

Lemma isInSync_sound st : isInSync st = true -> inSync st.
Proof.
  unfold isInSync. intros H.
  apply andb_true_iff in H as [H Hwatched].
  apply andb_true_iff in H as [Hasc Hrecorded].
  split; [now apply isAscending_sound|].
  rewrite forallb_forall in Hwatched, Hrecorded.
  intros f. unfold watched. split.
  - intros [w Hw].
    assert (Hin : In f (map fst (map_to_list (watchers st)))).
    { apply in_map_iff. exists (f, w). split; [reflexivity|].
      apply list_elem_of_In. now apply elem_of_map_to_list. }
    specialize (Hwatched f Hin). now apply bool_decide_eq_true in Hwatched.
  - intros Hf. specialize (Hrecorded f (proj1 (list_elem_of_In _ _) Hf)).
    now apply bool_decide_eq_true in Hrecorded.
Qed.

(** X18.  Take a runtime whose collation orders the files at hand as
    [sort] does and on which a plain object inherits the name of none of
    the resolved files.  When the recorded files ascend and are the
    watched ones, and the resolved paths are distinct, the reconciliation
    completes; it closes exactly the watchers of the recorded files that
    are no longer resolved and asks for a watch on exactly the resolved
    files that were not recorded, each once and in ascending order of the
    files; afterwards the resolved paths are recorded in ascending order
    and are the watched ones. *)
Theorem reconcile_closes_and_watches_the_difference resolvedPaths st :
  inSync st ->
  NoDup resolvedPaths ->
  plain resolvedPaths ->
  collates (resolvedFiles st ++ resolvedPaths) ->
  exists st',
    reconcile resolvedPaths st = Js.Normal st' /\
    (exists calls,
       ops st' = ops st ++ calls /\
       ascending (map opFile calls) /\
       (forall f, CloseWatcher f ∈ calls <->
                  f ∈ resolvedFiles st /\ f ∉ resolvedPaths) /\
       (forall f, WatchFile f ∈ calls <->
                  f ∈ resolvedPaths /\ f ∉ resolvedFiles st)) /\
    inSync st' /\
    (forall f, f ∈ resolvedFiles st' <-> f ∈ resolvedPaths).
Proof.
  intros [Hasc Hsync] Hnd Hplain Hcollates. rewrite reconcile_eq.
  destruct (diffLoop_reconciled
              (length (resolvedFiles st) + length (sort resolvedPaths))
              (resolvedFiles st) (sort resolvedPaths) st)
    as (st1 & Hrun & calls & Hops & Hca & Hc & Ha & Hw).
  { lia. }
  { exact Hasc. }
  { now apply ascending_sort. }
  { intros f Hf. now apply Hsync. }
  { intros f _ Hf. now apply Hsync. }
  { intros f Hf. apply Hplain. now apply elem_of_sort. }
  { intros a b Ha Hb. apply Hcollates.
    - apply elem_of_app in Ha as [Ha|Ha]; apply elem_of_app;
        [now left | right; now apply elem_of_sort].
    - apply elem_of_app in Hb as [Hb|Hb]; apply elem_of_app;
        [now left | right; now apply elem_of_sort]. }
  rewrite Hrun. cbn [Js.bind]. eexists. split; [reflexivity|].
  split; [|split].
  - exists calls. cbn [ops]. split; [exact Hops|]. split; [exact Hca|].
    split; intros f; [rewrite Hc | rewrite Ha]; now rewrite elem_of_sort.
  - split; cbn [resolvedFiles]; [now apply ascending_sort|].
    intros f. unfold watched in *. cbn [watchers]. rewrite Hw. split.
    + intros [[H1 H2]|H]; [|exact H]. exfalso. apply H2. now apply Hsync.
    + intros H. now right.
  - intros f. cbn [resolvedFiles]. apply elem_of_sort.
Qed.

Lemma addAll_fresh files st :
  NoDup files ->
  (forall f, f ∈ files -> ~ watched st f) ->
  plain files ->
  ops (addAll files st) = ops st ++ map WatchFile files /\
  forall f, watched (addAll files st) f <-> watched st f \/ f ∈ files.
Proof.
  revert st. induction files as [|n files IH]; intros st Hnd Hw Hplain.
  - simpl. rewrite app_nil_r. split; [reflexivity|]. intros f. split; [tauto|].
    intros [H|H]; [exact H | inversion H].
  - apply NoDup_cons in Hnd as [Hn Hnd]. unfold addAll in *. simpl.
    rewrite (addWatcher_fresh n st)
      by (first [apply Hw | apply Hplain]; apply elem_of_cons; now left).
    destruct (IH (afterWatch n st) Hnd) as [Hops Hwatched].
    { intros f Hf H. apply watched_opened in H as [H| ->].
      - apply (Hw f); [now right | exact H].
      - contradiction. }
    { intros f Hf. apply Hplain. apply elem_of_cons. now right. }
    split.
    + rewrite Hops. unfold afterWatch; simpl. now rewrite <- app_assoc.
    + intros f. rewrite Hwatched, watched_opened, elem_of_cons. tauto.
Qed.

(** X19.  On a runtime on which a plain object inherits the name of none
    of the paths, the initial watches on distinct resolved paths ask for
    one watch on each path, in the order of the environment; they leave
    the paths recorded in the ascending order of their code units, and a
    watcher for exactly the recorded paths. *)
Theorem watchInitial_watches_each_path resolvedPaths :
  NoDup resolvedPaths ->
  plain resolvedPaths ->
  ops (watchInitial resolvedPaths) = map WatchFile resolvedPaths /\
  inSync (watchInitial resolvedPaths) /\
  (forall f, f ∈ resolvedFiles (watchInitial resolvedPaths) <-> f ∈ resolvedPaths).
Proof.
  intros Hnd Hplain. unfold watchInitial, inSync, watched.
  cbn [ops watchers resolvedFiles].
  destruct (addAll_fresh resolvedPaths (mkState [] ∅ []) Hnd) as [Hops Hw].
  { intros f _ [w Hw]. simpl in Hw. rewrite lookup_empty in Hw. discriminate. }
  { exact Hplain. }
  split; [exact Hops|]. split.
  - split; [now apply ascending_sort|].
    intros f. unfold watched in Hw. rewrite Hw, elem_of_sort. simpl.
    rewrite lookup_empty. split; [|auto].
    intros [[w H]|H]; [discriminate | exact H].
  - intros f. apply elem_of_sort.
Qed.

(** *** A collation that is not the order of the code units *)

(** X23.  The new list is sorted by code units and the loop compares by
    collation.  Take two files of which the first comes first in the
    order of the code units and last in the collation, both watched after
    the initial watches.  The change event after which only the second
    is still resolved compares the two, takes the second for a new file
    (it is watched already, so no watch is asked for), runs out of new
    files, and closes the watchers of both recorded files: the file that
    is still resolved is recorded and has no watcher any more. *)
Theorem collation_closes_a_resolved_file a b :
  plain [a; b] ->
  String.compare a b = Lt ->
  Js.localeCompare a b = Gt ->
  watchInitial [a; b]
  = mkState [a; b]
      (<[b := Build_IFileWatcher b]> (<[a := Build_IFileWatcher a]> ∅))
      [WatchFile a; WatchFile b] /\
  reconcile [b] (watchInitial [a; b])
  = Js.Normal (mkState [b] ∅
                 [WatchFile a; WatchFile b; CloseWatcher a; CloseWatcher b]).
Proof.
  intros Hplain Hlt Hgt.
  assert (Ha : Js.inheritance a = Js.Absent)
    by (apply Hplain; apply elem_of_cons; now left).
  assert (Hb : Js.inheritance b = Js.Absent)
    by (apply Hplain; apply elem_of_cons; right; apply elem_of_cons; now left).
  assert (Hne : a <> b).
  { intros ->. rewrite RuntimeModel.compare_refl in Hlt. discriminate. }
  assert (Hinit : watchInitial [a; b]
                  = mkState [a; b]
                      (<[b := Build_IFileWatcher b]>
                         (<[a := Build_IFileWatcher a]> ∅))
                      [WatchFile a; WatchFile b]).
  { assert (Hsort : sort [a; b] = [a; b]).
    { unfold sort. simpl. now rewrite Hlt. }
    assert (Hadd : addAll [a; b] (mkState [] ∅ [])
                   = mkState []
                       (<[b := Build_IFileWatcher b]>
                          (<[a := Build_IFileWatcher a]> ∅))
                       [WatchFile a; WatchFile b]).
    { unfold addAll. cbn [foldl].
      assert (H1 : addWatcher a (mkState [] ∅ [])
                   = mkState [] (<[a := Build_IFileWatcher a]> ∅) [WatchFile a]).
      { unfold addWatcher, Js.get, Js.set. cbn [watchers].
        now rewrite lookup_empty, Ha. }
      rewrite H1. unfold addWatcher, Js.get, Js.set. cbn [watchers].
      rewrite lookup_insert_ne by exact Hne. now rewrite lookup_empty, Hb. }
    unfold watchInitial. now rewrite Hsort, Hadd. }
  split; [exact Hinit|]. rewrite Hinit.
  assert (Hsort : sort [b] = [b]) by reflexivity.
  unfold reconcile. rewrite Hsort. cbn [resolvedFiles length Nat.add].
  cbn [mergeLoop]. cbn [lookup list_lookup].
  change ([a; b] !! 0) with (Some a). change ([b] !! 0) with (Some b).
  cbv iota. rewrite Hgt.
  assert (Hkeep : forall st : State,
            watchers st = <[b := Build_IFileWatcher b]>
                            (<[a := Build_IFileWatcher a]> ∅) ->
            addWatcher b st = st).
  { intros st Hw. unfold addWatcher, Js.get. now rewrite Hw, lookup_insert_eq. }
  rewrite Hkeep by reflexivity.
  change ([b] !! 1) with (@None string). cbv iota. cbn [Js.bind drop removeAll].
  assert (Hclose_a :
    removeWatcher a
      (mkState [a; b]
         (<[b := Build_IFileWatcher b]> (<[a := Build_IFileWatcher a]> ∅))
         [WatchFile a; WatchFile b])
    = Js.Normal
        (mkState [a; b] (<[b := Build_IFileWatcher b]> ∅)
           [WatchFile a; WatchFile b; CloseWatcher a])).
  { unfold removeWatcher, Js.get. cbn [watchers resolvedFiles ops].
    rewrite lookup_insert_ne by (intros H; apply Hne; now symmetry).
    rewrite lookup_insert_eq.
    rewrite delete_insert_ne by (intros H; apply Hne; now symmetry).
    now rewrite delete_insert_eq, delete_empty. }
  rewrite Hclose_a. cbn [Js.bind].
  assert (Hclose_b :
    removeWatcher b
      (mkState [a; b] (<[b := Build_IFileWatcher b]> ∅)
         [WatchFile a; WatchFile b; CloseWatcher a])
    = Js.Normal
        (mkState [a; b] ∅
           [WatchFile a; WatchFile b; CloseWatcher a; CloseWatcher b])).
  { unfold removeWatcher, Js.get. cbn [watchers resolvedFiles ops].
    rewrite lookup_insert_eq. now rewrite delete_insert_eq, delete_empty. }
  rewrite Hclose_b. reflexivity.
Qed.

End Runtime.
End WatchOrder.

(** ** The further properties at concrete inputs *)

(** Distinctness of a list of string literals. *)
Ltac distinct :=
  repeat (apply NoDup_cons; split;
          [let H := fresh in
           intros H; repeat (apply elem_of_cons in H as [H|H]; [discriminate|]);
           inversion H|]);
  apply NoDup_nil_2.

Module ProjectCalls.
Import CodeResolver CodeResolver.Notations ResolverFacts Scenarios.

#[local] Existing Instance PathModel.pathUtils.
#[local] Instance projectHost : IFileSystemObject :=
  TableHost.ioHost "/proj" projectFiles.
#[local] Existing Instance RuntimeModel.runtime.
#[local] Existing Instance Scenarios.dispatcher.

#[local] Abbreviation preProcessFile := (TableHost.preProcessFile projectTable).
#[local] Abbreviation resolveCode := (CodeResolver.resolveCode settings preProcessFile).
#[local] Abbreviation utilPath := (normalizePath "/proj/util.ts" EmptyString false).
#[local] Abbreviation corePath := (normalizePath "core" "/proj" true).

Lemma direct_call_shape_witness :
  closed settings preProcessFile utilGraph /\
  ("/proj/util.ts", EmptyString, false) ∈ utilGraph /\
  remaining settings utilGraph start < 3 /\
  isVisited start (caseFold settings utilPath) = false /\
  readsDirectly "/proj/util.ts" false = true /\
  firstHit readFile (directCandidates utilPath) = Some ("/proj/util.ts", utilText) /\
  exists (st' : State CommandLineHost.Resolution) nested,
    resolveCode 3 "/proj/util.ts" EmptyString false start = Some (true, st') /\
    trace st'
    = trace start ++
      map (fun a => ReadFile (fst a) (bool_decide (is_Some (snd a))))
          (attempts readFile (directCandidates utilPath)) ++
      Visit (caseFold settings utilPath) :: nested ++
      [PostResolution "/proj/util.ts"
         (CallFacts.unitOf settings preProcessFile "/proj/util.ts" utilText)].
Proof.
  assert (h1 : closed settings preProcessFile utilGraph)
    by (apply isClosed_closed; vm_compute; reflexivity).
  assert (h2 : ("/proj/util.ts", EmptyString, false) ∈ utilGraph)
    by (apply elem_of_cons; now left).
  assert (h3 : remaining settings utilGraph start < 3)
    by (apply Nat.ltb_lt; vm_compute; reflexivity).
  assert (h4 : isVisited start (caseFold settings utilPath) = false)
    by (vm_compute; reflexivity).
  assert (h5 : readsDirectly "/proj/util.ts" false = true)
    by (vm_compute; reflexivity).
  assert (h6 : firstHit readFile (directCandidates utilPath)
               = Some ("/proj/util.ts", utilText)) by (vm_compute; reflexivity).
  refine (conj h1 (conj h2 (conj h3 (conj h4 (conj h5 (conj h6 _)))))).
  exact (CallFacts.direct_call_shape settings preProcessFile utilGraph 2
           "/proj/util.ts" EmptyString false start
           "/proj/util.ts" utilText h1 h2 h3 h4 h5 h6).
Defined.

(** The call for the import of [core]. *)
Definition coreGraph : list Call := [("core", "/proj", true)].

Lemma search_call_shape_witness :
  closed settings preProcessFile coreGraph /\
  ("core", "/proj", true) ∈ coreGraph /\
  remaining settings coreGraph start < 2 /\
  isVisited start (caseFold settings corePath) = false /\
  readsDirectly "core" true = false /\
  firstHit (findFile "/proj") (searchCandidates corePath)
  = Some ("core.ts", IResolvedFile.mk (Some coreText) "/proj/core.ts") /\
  IResolvedFile.content (IResolvedFile.mk (Some coreText) "/proj/core.ts")
  = Some coreText /\
  exists (st' : State CommandLineHost.Resolution) nested,
    resolveCode 2 "core" "/proj" true start = Some (true, st') /\
    trace st'
    = trace start ++ findEvents "/proj" corePath ++
      Visit (caseFold settings corePath) :: nested ++
      [PostResolution
         (switchToForwardSlashes (stripQuotes "/proj/core.ts"))
         (CallFacts.unitOf settings preProcessFile
            (switchToForwardSlashes (stripQuotes "/proj/core.ts")) coreText)].
Proof.
  assert (h1 : closed settings preProcessFile coreGraph)
    by (apply isClosed_closed; vm_compute; reflexivity).
  assert (h2 : ("core", "/proj", true) ∈ coreGraph)
    by (apply elem_of_cons; now left).
  assert (h3 : remaining settings coreGraph start < 2)
    by (apply Nat.ltb_lt; vm_compute; reflexivity).
  assert (h4 : isVisited start (caseFold settings corePath) = false)
    by (vm_compute; reflexivity).
  assert (h5 : readsDirectly "core" true = false) by (vm_compute; reflexivity).
  assert (h6 : firstHit (findFile "/proj") (searchCandidates corePath)
               = Some ("core.ts", IResolvedFile.mk (Some coreText) "/proj/core.ts"))
    by (vm_compute; reflexivity).
  assert (h7 : IResolvedFile.content (IResolvedFile.mk (Some coreText) "/proj/core.ts")
               = Some coreText) by reflexivity.
  refine (conj h1 (conj h2 (conj h3 (conj h4 (conj h5 (conj h6 (conj h7 _))))))).
  exact (CallFacts.search_call_shape settings preProcessFile coreGraph 1
           "core" "/proj" true start "core.ts"
           (IResolvedFile.mk (Some coreText) "/proj/core.ts") coreText
           h1 h2 h3 h4 h5 h6 h7).
Defined.

(** The call for a reference to a file that is not there. *)
Definition nolibGraph : list Call := [("nolib.ts", "/proj", false)].

Lemma direct_call_result_witness :
  closed settings preProcessFile nolibGraph /\
  ("nolib.ts", "/proj", false) ∈ nolibGraph /\
  remaining settings nolibGraph start < 2 /\
  isVisited start (absoluteModuleID settings "nolib.ts" "/proj" false) = false /\
  readsDirectly "nolib.ts" false = true /\
  exists r (st' : State CommandLineHost.Resolution),
    resolveCode 2 "nolib.ts" "/proj" false start = Some (r, st') /\
    (r = true <->
     exists p content,
       firstHit readFile
         (directCandidates (normalizePath "nolib.ts" "/proj" false))
       = Some (p, content)).
Proof.
  assert (h1 : closed settings preProcessFile nolibGraph)
    by (apply isClosed_closed; vm_compute; reflexivity).
  assert (h2 : ("nolib.ts", "/proj", false) ∈ nolibGraph)
    by (apply elem_of_cons; now left).
  assert (h3 : remaining settings nolibGraph start < 2)
    by (apply Nat.ltb_lt; vm_compute; reflexivity).
  assert (h4 : isVisited start (absoluteModuleID settings "nolib.ts" "/proj" false)
               = false) by (vm_compute; reflexivity).
  assert (h5 : readsDirectly "nolib.ts" false = true) by (vm_compute; reflexivity).
  refine (conj h1 (conj h2 (conj h3 (conj h4 (conj h5 _))))).
  exact (CallFacts.direct_call_result settings preProcessFile nolibGraph 1
           "nolib.ts" "/proj" false start h1 h2 h3 h4 h5).
Defined.

Lemma performSearch_is_ignored_unless_bare_witness :
  (isRelative "./util.ts" = true \/ isRooted "./util.ts" = true) /\
  resolveCode 1 "./util.ts" "/proj" true start
  = resolveCode 1 "./util.ts" "/proj" false start.
Proof.
  assert (h1 : isRelative "./util.ts" = true \/ isRooted "./util.ts" = true)
    by (left; vm_compute; reflexivity).
  refine (conj h1 _).
  exact (CallFacts.performSearch_is_ignored_unless_bare settings preProcessFile 1
           "./util.ts" "/proj" start h1).
Defined.

Lemma dispatched_units_are_loaded_witness :
  resolveCode 1 "/proj/util.ts" EmptyString false start = Some (true, utilResolved) /\
  exists rest,
    trace utilResolved = trace start ++ rest /\
    forall p u, PostResolution p u ∈ rest ->
      SourceUnit.path u = p /\ is_Some (SourceUnit.content u) /\
      is_Some (SourceUnit.referencedFiles u).
Proof.
  assert (h1 : resolveCode 1 "/proj/util.ts" EmptyString false start
               = Some (true, utilResolved)) by (vm_compute; reflexivity).
  refine (conj h1 _).
  exact (CallFacts.dispatched_units_are_loaded settings preProcessFile 1
           "/proj/util.ts" EmptyString false start utilResolved true h1).
Defined.

Lemma visited_grows_by_marked_keys_witness :
  resolveCode 1 "/proj/util.ts" EmptyString false start = Some (true, utilResolved) /\
  exists rest,
    trace utilResolved = trace start ++ rest /\
    dispatched utilResolved = TraceFacts.replay rest (dispatched start) /\
    forall k, isVisited utilResolved k = true <->
              isVisited start k = true \/ k ∈ visitKeys rest.
Proof.
  assert (h1 : resolveCode 1 "/proj/util.ts" EmptyString false start
               = Some (true, utilResolved)) by (vm_compute; reflexivity).
  refine (conj h1 _).
  exact (CallFacts.visited_grows_by_marked_keys settings preProcessFile 1
           "/proj/util.ts" EmptyString false start utilResolved true h1).
Defined.

#[local] Abbreviation utilEntry := (SourceUnit.mk "util.ts" None None).

Lemma entry_read_under_its_identifier_is_not_reported_witness :
  Js.inheritance (SourceUnit.path utilEntry) <> Js.Accessor /\
  firstHit readFile
    (directCandidates
       (normalizePath (DriverFacts.entryPath (SourceUnit.path utilEntry))
          EmptyString false))
  = Some ("/proj/util.ts", utilText) /\
  CommandLineHost.getPathIdentifier settings "/proj/util.ts"
  = CommandLineHost.getPathIdentifier settings
      (DriverFacts.entryPath (SourceUnit.path utilEntry)) /\
  CommandLineHost.resolveCompilationEnvironment preProcessFile settings 1
    (CompilationEnvironment.mk settings [utilEntry]) ∅ ∅ ∅
  = Some (CompilationEnvironment.mk settings [utilUnit],
          {["util.ts" := "/proj/util.ts"]}, utilResolved) /\
  BatchCompiler.resolve preProcessFile settings 1
    (CompilationEnvironment.mk settings [utilEntry]) ErrorReporter.create
  = Some (Js.Normal
            (CompilationEnvironment.mk settings [utilUnit],
             BatchCompiler.writeLines
               (CommandLineHost.reported (dispatched utilResolved))
               ErrorReporter.create)).
Proof.
  assert (h0 : Js.inheritance (SourceUnit.path utilEntry) <> Js.Accessor)
    by (vm_compute; discriminate).
  assert (h1 : firstHit readFile
                 (directCandidates
                    (normalizePath
                       (DriverFacts.entryPath (SourceUnit.path utilEntry))
                       EmptyString false))
               = Some ("/proj/util.ts", utilText)) by (vm_compute; reflexivity).
  assert (h2 : CommandLineHost.getPathIdentifier settings "/proj/util.ts"
               = CommandLineHost.getPathIdentifier settings
                   (DriverFacts.entryPath (SourceUnit.path utilEntry)))
    by (vm_compute; reflexivity).
  assert (h3 : CommandLineHost.resolveCompilationEnvironment preProcessFile
                 settings 1 (CompilationEnvironment.mk settings [utilEntry]) ∅ ∅ ∅
               = Some (CompilationEnvironment.mk settings [utilUnit],
                       {["util.ts" := "/proj/util.ts"]}, utilResolved))
    by (vm_compute; reflexivity).
  refine (conj h0 (conj h1 (conj h2 (conj h3 _)))).
  exact (DriverFacts.entry_read_under_its_identifier_is_not_reported
           preProcessFile settings 1 settings utilEntry "/proj/util.ts" utilText
           ErrorReporter.create (CompilationEnvironment.mk settings [utilUnit])
           {["util.ts" := "/proj/util.ts"]} utilResolved h0 h1 h2 h3).
Defined.

End ProjectCalls.

Module SettledFile.
Import CodeResolver CodeResolver.Notations ResolverFacts Scenarios.

(** A file that refers to itself, to [util.ts], which is resolved
    already, and to [nolib.ts], which is not there, and that imports
    [nolib], which is not found, and [./gone], which cannot be read. *)
Definition settledText : string :=
  "///<reference path='main.ts'/> ///<reference path='util.ts'/> " +:+
  "///<reference path='nolib.ts'/> " +:+
  "import a = module('nolib'); import b = module('./gone');".

Definition settledFiles : TableHost.FileTable :=
  [("/proj/main.ts", settledText); ("/proj/util.ts", utilText)].

Definition settledReferences : list IFileReference.t :=
  [referenceAt "main.ts" 1 0; referenceAt "util.ts" 1 31;
   referenceAt "nolib.ts" 1 62].

Definition settledImports : list IFileReference.t :=
  [referenceAt "nolib" 1 94; referenceAt "./gone" 1 122].

Definition settledTable : TableHost.PreProcessTable :=
  [(settledText, Build_IPreProcessedFileInfo settledReferences settledImports)].

#[local] Existing Instance PathModel.pathUtils.
#[local] Instance settledHost : IFileSystemObject :=
  TableHost.ioHost "/proj" settledFiles.
#[local] Existing Instance Scenarios.dispatcher.

#[local] Abbreviation preProcessFile := (TableHost.preProcessFile settledTable).

(** The state with the key of [main.ts] marked in the state in which
    [util.ts] is resolved. *)
Definition settledMarked : State CommandLineHost.Resolution :=
  mkState (<["/PROJ/MAIN.TS" := true]> (visited utilResolved))
    (trace utilResolved) (dispatched utilResolved).

(** What the call for [main.ts] adds to the trace. *)
Definition settledAdded : list Event :=
  [ReadFile "/proj/main.ts" true; Visit "/PROJ/MAIN.TS";
   PostResolutionError "/proj/main.ts" (referenceAt "main.ts" 1 0)
     "Incorrect reference: File contains reference to itself.";
   ReadFile "/proj/nolib.ts" false; ReadFile "/proj/nolib.str" false;
   ReadFile "/proj/nolib.d.str" false; ReadFile "/proj/nolib.d.ts" false;
   PostResolutionError "/proj/main.ts" (referenceAt "nolib.ts" 1 62)
     ("Incorrect reference: referenced file: " +:+ dquote +:+ "nolib.ts"
      +:+ dquote +:+ " cannot be resolved.");
   FindFile "/proj" "nolib.ts" None; FindFile "/proj" "nolib.str" None;
   FindFile "/proj" "nolib.d.ts" None; FindFile "/proj" "nolib.d.str" None;
   ReadFile "/proj/gone.ts" false; ReadFile "/proj/gone.str" false;
   ReadFile "/proj/gone.d.str" false; ReadFile "/proj/gone.d.ts" false;
   PostResolutionError "/proj/main.ts" (referenceAt "./gone" 1 122)
     ("Incorrect reference: imported file: " +:+ dquote +:+ "./gone"
      +:+ dquote +:+ " cannot be resolved.");
   PostResolution "/proj/main.ts"
     (SourceUnit.mk "/proj/main.ts" (Some settledText) (Some settledReferences))].

Lemma settled_dependencies_are_reported_witness :
  isVisited utilResolved "/PROJ/MAIN.TS" = false /\
  acquisition "/proj/main.ts" EmptyString false
  = Some (IResolvedFile.mk (Some settledText) "/proj/main.ts") /\
  (forall r, r ∈ settledReferences ->
     CallFacts.settledReference settings settledMarked "/proj/main.ts" "/proj" r) /\
  (forall i, i ∈ settledImports ->
     CallFacts.settledImport settings settledMarked "/proj" i) /\
  CodeResolver.resolveCode settings preProcessFile 2
    "/proj/main.ts" EmptyString false utilResolved
  = Some (true,
          mkState (<["/PROJ/MAIN.TS" := true]> (visited utilResolved))
            (trace utilResolved ++ settledAdded)
            (TraceFacts.replay settledAdded (dispatched utilResolved))).
Proof.
  assert (h1 : isVisited utilResolved "/PROJ/MAIN.TS" = false)
    by (vm_compute; reflexivity).
  assert (h2 : acquisition "/proj/main.ts" EmptyString false
               = Some (IResolvedFile.mk (Some settledText) "/proj/main.ts"))
    by (vm_compute; reflexivity).
  assert (h3 : forall r, r ∈ settledReferences ->
            CallFacts.settledReference settings settledMarked
              "/proj/main.ts" "/proj" r).
  { intros r Hr. unfold settledReferences in Hr.
    apply elem_of_cons in Hr as [->|Hr]; [left; vm_compute; reflexivity|].
    apply elem_of_cons in Hr as [->|Hr];
      [right; left; vm_compute; reflexivity|].
    apply elem_of_cons in Hr as [->|Hr];
      [right; right; vm_compute; reflexivity|].
    inversion Hr. }
  assert (h4 : forall i, i ∈ settledImports ->
            CallFacts.settledImport settings settledMarked "/proj" i).
  { intros i Hi. unfold settledImports in Hi.
    apply elem_of_cons in Hi as [->|Hi]; [right; vm_compute; reflexivity|].
    apply elem_of_cons in Hi as [->|Hi]; [right; vm_compute; reflexivity|].
    inversion Hi. }
  refine (conj h1 (conj h2 (conj h3 (conj h4 _)))).
  assert (hAdded :
    acquisitionEvents "/proj/main.ts" EmptyString false ++
    Visit (absoluteModuleID settings "/proj/main.ts" EmptyString false) ::
    concat (map (CallFacts.referenceEvents settings
                   (mkState (D:=CommandLineHost.Resolution)
                      (<[absoluteModuleID settings "/proj/main.ts" EmptyString
                           false := true]> (visited utilResolved))
                      (trace utilResolved) (dispatched utilResolved))
                   (resolvePath "/proj/main.ts") (dirName "/proj/main.ts"))
              (referencedFiles
                 (preProcessFile
                    (SourceUnit.mk "/proj/main.ts" (Some settledText) None)
                    settings))) ++
    concat (map (CallFacts.importEvents settings
                   (mkState (D:=CommandLineHost.Resolution)
                      (<[absoluteModuleID settings "/proj/main.ts" EmptyString
                           false := true]> (visited utilResolved))
                      (trace utilResolved) (dispatched utilResolved))
                   (resolvePath "/proj/main.ts") (dirName "/proj/main.ts"))
              (importedFiles
                 (preProcessFile
                    (SourceUnit.mk "/proj/main.ts" (Some settledText) None)
                    settings))) ++
    [PostResolution "/proj/main.ts"
       (CallFacts.unitOf settings preProcessFile "/proj/main.ts" settledText)]
    = settledAdded) by (vm_compute; reflexivity).
  rewrite <- hAdded.
  exact (CallFacts.settled_dependencies_are_reported settings preProcessFile 0
           "/proj/main.ts" EmptyString false utilResolved
           "/proj/main.ts" settledText h1 h2 h3 h4).
Defined.

End SettledFile.

Module ContentlessHit.
Import CodeResolver ResolverFacts Scenarios.

#[local] Existing Instance PathModel.pathUtils.
#[local] Existing Instance Scenarios.dispatcher.

(** A host whose search reports a file for [lib.ts] and gives no text for
    it. *)
#[local] Instance contentlessHost : IFileSystemObject :=
  Build_IFileSystemObject
    (fun path => path) (fun _ => None)
    (fun _ partialFilePath =>
       if String.eqb partialFilePath "lib.ts"
       then Some (IResolvedFile.mk None "/proj/lib.ts") else None)
    (fun path => path).

#[local] Abbreviation preProcessFile := (TableHost.preProcessFile []).
#[local] Abbreviation libPath := (normalizePath "lib" "/proj" true).

Lemma search_hit_without_content_witness :
  isVisited start (caseFold settings libPath) = false /\
  readsDirectly "lib" true = false /\
  firstHit (findFile "/proj") (searchCandidates libPath)
  = Some ("lib.ts", IResolvedFile.mk None "/proj/lib.ts") /\
  IResolvedFile.content (IResolvedFile.mk None "/proj/lib.ts") = None /\
  CodeResolver.resolveCode settings preProcessFile 1 "lib" "/proj" true start
  = Some (true,
          mkState (<[caseFold settings libPath := true]> (visited start))
            (trace start ++ findEvents "/proj" libPath ++
             [Visit (caseFold settings libPath)])
            (dispatched start)).
Proof.
  assert (h1 : isVisited start (caseFold settings libPath) = false)
    by (vm_compute; reflexivity).
  assert (h2 : readsDirectly "lib" true = false) by (vm_compute; reflexivity).
  assert (h3 : firstHit (findFile "/proj") (searchCandidates libPath)
               = Some ("lib.ts", IResolvedFile.mk None "/proj/lib.ts"))
    by (vm_compute; reflexivity).
  assert (h4 : IResolvedFile.content (IResolvedFile.mk None "/proj/lib.ts") = None)
    by reflexivity.
  refine (conj h1 (conj h2 (conj h3 (conj h4 _)))).
  exact (CallFacts.search_hit_without_content settings preProcessFile 0
           "lib" "/proj" true start "lib.ts"
           (IResolvedFile.mk None "/proj/lib.ts") h1 h2 h3 h4).
Defined.

End ContentlessHit.

Module LegacyPass.
Import CodeResolver ResolverFacts Scenarios.

#[local] Existing Instance PathModel.pathUtils.
#[local] Instance legacyHost : IFileSystemObject :=
  TableHost.ioHost "/proj" legacyFiles.
#[local] Existing Instance RuntimeModel.runtime.
#[local] Existing Instance Scenarios.dispatcher.

#[local] Abbreviation preProcessFile := (TableHost.preProcessFile []).
#[local] Abbreviation fooEntry := (SourceUnit.mk "foo.ts" None None).
#[local] Abbreviation fooEnvironment := (CompilationEnvironment.mk settings [fooEntry]).

(** The state after the entry [foo.ts] has been read as [foo.str]. *)
Definition fooResolved : State CommandLineHost.Resolution :=
  mkState {["/PROJ/FOO.TS" := true]}
    [ReadFile "/proj/foo.ts" false; ReadFile "/proj/foo.str" true;
     Visit "/PROJ/FOO.TS"; PostResolution "/proj/foo.str" fooUnit]
    (CommandLineHost.mkResolution {["/PROJ/FOO.STR" := true]} [fooUnit] []).

Definition fooPathMap : gmap string string := {["foo.ts" := "/proj/foo.ts"]}.

(** The call for the entry [foo.ts]. *)
Definition fooGraph : list Call := [("/proj/foo.ts", EmptyString, false)].

Lemma fooPass :
  CommandLineHost.resolveCompilationEnvironment preProcessFile settings 1
    fooEnvironment ∅ ∅ ∅
  = Some (CompilationEnvironment.mk settings [fooUnit], fooPathMap, fooResolved).
Proof. vm_compute. reflexivity. Defined.

Lemma resolved_code_has_one_unit_per_identifier_witness :
  CommandLineHost.resolveCompilationEnvironment preProcessFile settings 1
    fooEnvironment ∅ ∅ ∅
  = Some (CompilationEnvironment.mk settings [fooUnit], fooPathMap, fooResolved) /\
  NoDup (map (DriverFacts.identifier settings)
           (CompilationEnvironment.code
              (CompilationEnvironment.mk settings [fooUnit]))) /\
  (forall u, u ∈ CompilationEnvironment.code
                   (CompilationEnvironment.mk settings [fooUnit]) ->
     SourceUnit.path u ∈ dispatchedPaths (trace fooResolved) /\
     is_Some (SourceUnit.content u)) /\
  (forall p, p ∈ dispatchedPaths (trace fooResolved) ->
     exists u, u ∈ CompilationEnvironment.code
                     (CompilationEnvironment.mk settings [fooUnit]) /\
               DriverFacts.identifier settings u
               = CommandLineHost.getPathIdentifier settings p).
Proof.
  refine (conj fooPass _).
  exact (DriverFacts.resolved_code_has_one_unit_per_identifier
           preProcessFile settings 1 fooEnvironment ∅
           (CompilationEnvironment.mk settings [fooUnit]) fooPathMap fooResolved
           fooPass).
Defined.


Lemma resolve_reports_unresolved_entries_witness :
  closed settings preProcessFile fooGraph /\
  (forall unit, unit ∈ CompilationEnvironment.code fooEnvironment ->
     PassFacts.entryCall unit ∈ fooGraph) /\
  length fooGraph < 2 /\
  (forall u, u ∈ CompilationEnvironment.code fooEnvironment ->
     Js.inheritance (SourceUnit.path u) <> Js.Accessor) /\
  BatchCompiler.resolve preProcessFile settings 2 fooEnvironment ErrorReporter.create
  = Some (Js.Normal
            (CompilationEnvironment.mk settings [fooUnit],
             ErrorReporter.WriteLine (BatchCompiler.unresolvedMessage "foo.ts")
               ErrorReporter.create)) /\
  exists ret pathMap (st : State CommandLineHost.Resolution),
    CommandLineHost.resolveCompilationEnvironment preProcessFile settings 2
      fooEnvironment ∅ ∅ ∅
    = Some (ret, pathMap, st) /\
    let lines :=
      CommandLineHost.reported (dispatched st) ++
      map (fun u => BatchCompiler.unresolvedMessage (SourceUnit.path u))
          (DriverFacts.unresolvedEntries settings (trace st)
             (CompilationEnvironment.code fooEnvironment)) in
    BatchCompiler.resolve preProcessFile settings 2 fooEnvironment
      ErrorReporter.create
    = Some (Js.Normal (ret, BatchCompiler.writeLines lines ErrorReporter.create)) /\
    ErrorReporter.stderr (BatchCompiler.writeLines lines ErrorReporter.create)
    = ErrorReporter.stderr ErrorReporter.create ++
      map ErrorReporter.WrittenLine lines /\
    ErrorReporter.hasErrors (BatchCompiler.writeLines lines ErrorReporter.create)
    = ErrorReporter.hasErrors ErrorReporter.create
      || negb (bool_decide (lines = [])).
Proof.
  assert (h1 : closed settings preProcessFile fooGraph)
    by (apply isClosed_closed; vm_compute; reflexivity).
  assert (h2 : forall unit, unit ∈ CompilationEnvironment.code fooEnvironment ->
                 PassFacts.entryCall unit ∈ fooGraph).
  { intros unit Hu. apply list_elem_of_singleton in Hu. subst unit.
    apply elem_of_cons. left. vm_compute. reflexivity. }
  assert (h3 : length fooGraph < 2) by (simpl; lia).
  assert (h4 : forall u, u ∈ CompilationEnvironment.code fooEnvironment ->
                 Js.inheritance (SourceUnit.path u) <> Js.Accessor).
  { intros u Hu. apply list_elem_of_singleton in Hu. subst u.
    vm_compute. discriminate. }
  assert (h5 : BatchCompiler.resolve preProcessFile settings 2 fooEnvironment
                 ErrorReporter.create
               = Some (Js.Normal
                         (CompilationEnvironment.mk settings [fooUnit],
                          ErrorReporter.WriteLine
                            (BatchCompiler.unresolvedMessage "foo.ts")
                            ErrorReporter.create)))
    by (vm_compute; reflexivity).
  refine (conj h1 (conj h2 (conj h3 (conj h4 (conj h5 _))))).
  exact (DriverFacts.resolve_reports_unresolved_entries preProcessFile settings
           fooGraph 2 fooEnvironment ErrorReporter.create h1 h2 h3 h4).
Defined.

#[local] Abbreviation hiddenEntry := (SourceUnit.mk "__proto__" None None).
#[local] Abbreviation hiddenEnvironment :=
  (CompilationEnvironment.mk settings [fooEntry; hiddenEntry]).

(** The state after the entries [foo.ts] and [__proto__]: the first is
    read as [foo.str], for the second nothing is read. *)
Definition hiddenResolved : State CommandLineHost.Resolution :=
  mkState {["/PROJ/FOO.TS" := true]}
    [ReadFile "/proj/foo.ts" false; ReadFile "/proj/foo.str" true;
     Visit "/PROJ/FOO.TS"; PostResolution "/proj/foo.str" fooUnit;
     ReadFile "/proj/__proto__.ts" false; ReadFile "/proj/__proto__.str" false;
     ReadFile "/proj/__proto__.d.str" false; ReadFile "/proj/__proto__.d.ts" false]
    (CommandLineHost.mkResolution {["/PROJ/FOO.STR" := true]} [fooUnit] []).

Lemma resolve_raises_for_accessor_entry_witness :
  CommandLineHost.resolveCompilationEnvironment preProcessFile settings 1
    hiddenEnvironment ∅ ∅ ∅
  = Some (CompilationEnvironment.mk settings [fooUnit], fooPathMap,
          hiddenResolved) /\
  hiddenEntry ∈ CompilationEnvironment.code hiddenEnvironment /\
  Js.inheritance (SourceUnit.path hiddenEntry) = Js.Accessor /\
  useCaseSensitiveFileResolution settings = false /\
  fooPathMap !! (SourceUnit.path hiddenEntry) = None /\
  BatchCompiler.isResolved settings fooPathMap
    (CommandLineHost.resolvedPaths (dispatched hiddenResolved))
    (SourceUnit.path hiddenEntry)
  = Js.TypeError /\
  BatchCompiler.resolve preProcessFile settings 1 hiddenEnvironment
    ErrorReporter.create
  = Some Js.TypeError.
Proof.
  assert (h1 : CommandLineHost.resolveCompilationEnvironment preProcessFile
                 settings 1 hiddenEnvironment ∅ ∅ ∅
               = Some (CompilationEnvironment.mk settings [fooUnit], fooPathMap,
                       hiddenResolved)) by (vm_compute; reflexivity).
  assert (h2 : hiddenEntry ∈ CompilationEnvironment.code hiddenEnvironment)
    by (apply elem_of_cons; right; apply elem_of_cons; now left).
  assert (h3 : Js.inheritance (SourceUnit.path hiddenEntry) = Js.Accessor)
    by reflexivity.
  assert (h4 : useCaseSensitiveFileResolution settings = false) by reflexivity.
  refine (conj h1 (conj h2 (conj h3 (conj h4 _)))).
  exact (DriverFacts.resolve_raises_for_accessor_entry preProcessFile settings 1
           hiddenEnvironment ErrorReporter.create
           (CompilationEnvironment.mk settings [fooUnit]) fooPathMap
           hiddenResolved hiddenEntry h1 h2 h3 h4).
Defined.

#[local] Abbreviation missingEnvironment :=
  (CompilationEnvironment.mk settings
     [SourceUnit.mk "bar.ts" None None; SourceUnit.mk "notes.txt" None None]).

Lemma unreadable_entries_are_reported_witness :
  (forall u, u ∈ CompilationEnvironment.code missingEnvironment ->
     firstHit readFile
       (directCandidates
          (normalizePath (DriverFacts.entryPath (SourceUnit.path u))
             EmptyString false))
     = None) /\
  (forall u, u ∈ CompilationEnvironment.code missingEnvironment ->
     Js.inheritance (SourceUnit.path u) <> Js.Accessor) /\
  BatchCompiler.resolve preProcessFile settings 1 missingEnvironment
    ErrorReporter.create
  = Some (Js.Normal
            (CompilationEnvironment.mk
               (CompilationEnvironment.compilationSettings missingEnvironment) [],
             BatchCompiler.writeLines
               (map (fun u => BatchCompiler.unresolvedMessage (SourceUnit.path u))
                    (CompilationEnvironment.code missingEnvironment))
               ErrorReporter.create)).
Proof.
  assert (h1 : forall u, u ∈ CompilationEnvironment.code missingEnvironment ->
                 firstHit readFile
                   (directCandidates
                      (normalizePath (DriverFacts.entryPath (SourceUnit.path u))
                         EmptyString false))
                 = None).
  { intros u Hu. simpl in Hu.
    apply elem_of_cons in Hu as [->|Hu]; [vm_compute; reflexivity|].
    apply elem_of_cons in Hu as [->|Hu]; [vm_compute; reflexivity|].
    inversion Hu. }
  assert (h2 : forall u, u ∈ CompilationEnvironment.code missingEnvironment ->
                 Js.inheritance (SourceUnit.path u) <> Js.Accessor).
  { intros u Hu. simpl in Hu.
    apply elem_of_cons in Hu as [->|Hu]; [vm_compute; discriminate|].
    apply elem_of_cons in Hu as [->|Hu]; [vm_compute; discriminate|].
    inversion Hu. }
  refine (conj h1 (conj h2 _)).
  exact (DriverFacts.unreadable_entries_are_reported preProcessFile settings 0
           missingEnvironment ErrorReporter.create h1 h2).
Defined.


End LegacyPass.

Module WatchScenarios.
Import Watch WatchFacts WatchOrder.

#[local] Existing Instance RuntimeModel.runtime.

Lemma reconcile_unchanged_files_is_noop_witness :
  resolvedFiles (watchInitial ["b.ts"; "a.ts"]) = sort ["a.ts"; "b.ts"] /\
  reconcile ["a.ts"; "b.ts"] (watchInitial ["b.ts"; "a.ts"])
  = Js.Normal (watchInitial ["b.ts"; "a.ts"]) /\
  Js.bind (reconcile ["a.ts"; "b.ts"] (watchInitial ["b.ts"; "a.ts"]))
    (reconcile ["a.ts"; "b.ts"])
  = Js.Normal (watchInitial ["b.ts"; "a.ts"]) /\
  reconcile ["a.ts"; "b.ts"] (watchInitial ["a.ts"; "b.ts"])
  = Js.Normal (watchInitial ["a.ts"; "b.ts"]).
Proof.
  assert (h1 : resolvedFiles (watchInitial ["b.ts"; "a.ts"]) = sort ["a.ts"; "b.ts"])
    by (vm_compute; reflexivity).
  refine (conj h1 _).
  exact (reconcile_unchanged_files_is_noop ["a.ts"; "b.ts"]
           (watchInitial ["b.ts"; "a.ts"]) h1).
Defined.

Lemma reconcile_closes_and_watches_the_difference_witness :
  inSync (watchInitial ["b.ts"; "a.ts"]) /\
  NoDup ["c.ts"; "b.ts"] /\
  plain ["c.ts"; "b.ts"] /\
  collates (resolvedFiles (watchInitial ["b.ts"; "a.ts"]) ++ ["c.ts"; "b.ts"]) /\
  exists st',
    reconcile ["c.ts"; "b.ts"] (watchInitial ["b.ts"; "a.ts"]) = Js.Normal st' /\
    (exists calls,
       ops st' = ops (watchInitial ["b.ts"; "a.ts"]) ++ calls /\
       ascending (map opFile calls) /\
       (forall f, CloseWatcher f ∈ calls <->
                  f ∈ resolvedFiles (watchInitial ["b.ts"; "a.ts"]) /\
                  f ∉ ["c.ts"; "b.ts"]) /\
       (forall f, WatchFile f ∈ calls <->
                  f ∈ ["c.ts"; "b.ts"] /\
                  f ∉ resolvedFiles (watchInitial ["b.ts"; "a.ts"]))) /\
    inSync st' /\
    (forall f, f ∈ resolvedFiles st' <-> f ∈ ["c.ts"; "b.ts"]).
Proof.
  assert (h1 : inSync (watchInitial ["b.ts"; "a.ts"]))
    by (apply isInSync_sound; vm_compute; reflexivity).
  assert (h2 : NoDup ["c.ts"; "b.ts"]) by distinct.
  assert (h3 : plain ["c.ts"; "b.ts"]).
  { intros f Hf.
    apply elem_of_cons in Hf as [->|Hf]; [vm_compute; reflexivity|].
    apply elem_of_cons in Hf as [->|Hf]; [vm_compute; reflexivity|].
    inversion Hf. }
  assert (h4 : collates (resolvedFiles (watchInitial ["b.ts"; "a.ts"])
                         ++ ["c.ts"; "b.ts"]))
    by (intros a b _ _; reflexivity).
  refine (conj h1 (conj h2 (conj h3 (conj h4 _)))).
  exact (reconcile_closes_and_watches_the_difference ["c.ts"; "b.ts"]
           (watchInitial ["b.ts"; "a.ts"]) h1 h2 h3 h4).
Defined.

Lemma watchInitial_watches_each_path_witness :
  NoDup ["b.ts"; "a.ts"] /\
  plain ["b.ts"; "a.ts"] /\
  ops (watchInitial ["b.ts"; "a.ts"]) = map WatchFile ["b.ts"; "a.ts"] /\
  inSync (watchInitial ["b.ts"; "a.ts"]) /\
  (forall f, f ∈ resolvedFiles (watchInitial ["b.ts"; "a.ts"]) <->
             f ∈ ["b.ts"; "a.ts"]).
Proof.
  assert (h1 : NoDup ["b.ts"; "a.ts"]) by distinct.
  assert (h2 : plain ["b.ts"; "a.ts"]).
  { intros f Hf.
    apply elem_of_cons in Hf as [->|Hf]; [vm_compute; reflexivity|].
    apply elem_of_cons in Hf as [->|Hf]; [vm_compute; reflexivity|].
    inversion Hf. }
  refine (conj h1 (conj h2 _)).
  exact (watchInitial_watches_each_path ["b.ts"; "a.ts"] h1 h2).
Defined.

Lemma inherited_name_is_never_watched_witness :
  Js.inheritance "constructor" <> Js.Absent /\
  watchInitial ["constructor"] = mkState ["constructor"] ∅ [] /\
  reconcile [] (watchInitial ["constructor"]) = Js.TypeError.
Proof.
  assert (h1 : Js.inheritance "constructor" <> Js.Absent)
    by (vm_compute; discriminate).
  refine (conj h1 _).
  exact (inherited_name_is_never_watched "constructor" h1).
Defined.

End WatchScenarios.

Module CollationScenario.
Import Watch WatchFacts WatchOrder.

#[local] Existing Instance RuntimeModel.collatingRuntime.

Lemma collation_closes_a_resolved_file_witness :
  plain ["util.ts"; "util_test.ts"] /\
  String.compare "util.ts" "util_test.ts" = Lt /\
  Js.localeCompare "util.ts" "util_test.ts" = Gt /\
  watchInitial ["util.ts"; "util_test.ts"]
  = mkState ["util.ts"; "util_test.ts"]
      (<["util_test.ts" := Build_IFileWatcher "util_test.ts"]>
         (<["util.ts" := Build_IFileWatcher "util.ts"]> ∅))
      [WatchFile "util.ts"; WatchFile "util_test.ts"] /\
  reconcile ["util_test.ts"] (watchInitial ["util.ts"; "util_test.ts"])
  = Js.Normal
      (mkState ["util_test.ts"] ∅
         [WatchFile "util.ts"; WatchFile "util_test.ts";
          CloseWatcher "util.ts"; CloseWatcher "util_test.ts"]).
Proof.
  assert (h1 : plain ["util.ts"; "util_test.ts"]).
  { intros f Hf.
    apply elem_of_cons in Hf as [->|Hf]; [vm_compute; reflexivity|].
    apply elem_of_cons in Hf as [->|Hf]; [vm_compute; reflexivity|].
    inversion Hf. }
  assert (h2 : String.compare "util.ts" "util_test.ts" = Lt)
    by (vm_compute; reflexivity).
  assert (h3 : Js.localeCompare "util.ts" "util_test.ts" = Gt)
    by (vm_compute; reflexivity).
  refine (conj h1 (conj h2 (conj h3 _))).
  exact (collation_closes_a_resolved_file "util.ts" "util_test.ts" h1 h2 h3).
Defined.

End CollationScenario.
